(** * Loopy: delay line, LFO bank and looper ring buffer

    A shallow embedding of [DelayEffect.h], [DelayEffect.cpp], [lfo.cpp] and
    the per-sample loop of [render.cpp], with the properties of the engine
    proved about it.

    Modelling conventions.
    - A C++ [float] is a rational ([Q]).  Three computations, each of
      which decides a whole number, are rounded as the code rounds them,
      operation by operation, to binary32 or binary64, nearest with ties to
      even ([f32], [f64]): the sample count of [setDelayTime], the start-up
      delay of [init_lfo], and the playback index of [render] with its
      comparisons against the capacity.  Everything else (samples, gains,
      the smoothed delay and the read position of [processSample], the LFO
      recurrences, the playback speed and the delay time the knob block
      computes) is exact arithmetic, and a decimal literal of the source
      ([0.1f]) is the decimal itself: rounding there is outside the model,
      as are infinities and NaN.  Numeric results are compared with [==].
    - A division of floats whose divisor is zero gives an infinity or a
      NaN.  In [init_lfo] the quotient by a zero rate reaches a conversion to
      [int], which is undefined for both; the other divisions of [lfo.cpp]
      have no counterpart (Rocq's [/] gives 0 there), so statements about
      [init_lfo] assume a positive sample rate and base frequency.
    - [unsigned int] is a [Z] in [0, 2^32) with the wrap-around of its
      arithmetic written out; [int] is a [Z] in [[INT_MIN, INT_MAX]].
    - What C++ leaves undefined (a float-to-integer conversion out of range,
      signed overflow, [%] by zero, an index outside a vector) is the
      result [Undefined].
    - The two [while] loops of [processSample] run on fuel; [OutOfFuel] is
      the loop still running when the fuel is gone.
    - What [lfo.cpp] takes from [<math.h>] ([M_PI], [M_E], [sin], [cos],
      [expf]) is a parameter of [init_lfo], [update_lfo] and [setup].
    - What the Bela context hands to one audio frame is a [Frame]; the level
      written to the LED pin is a field of the session. *)

From Stdlib Require Import ZArith QArith Qround Qabs Lia Lqa Bool.
From Stdlib Require Import Qpower.
From Stdlib Require Ascii String.
From stdpp Require Import base list.
Import String.StringSyntax.

Open Scope Q_scope.

(** ** Results of fallible code *)

Inductive result (A : Type) : Type :=
| Ok (a : A)
| OutOfFuel
| Undefined.

Arguments Ok {A} a.
Arguments OutOfFuel {A}.
Arguments Undefined {A}.

Definition bind {A B : Type} (c : result A) (k : A -> result B) : result B :=
  match c with
  | Ok a => k a
  | OutOfFuel => OutOfFuel
  | Undefined => Undefined
  end.

Notation "'do' x <- c ; k" := (bind c (fun x => k))
  (at level 10, x name, c at level 100, k at level 200).
Notation "'do' ' p <- c ; k" := (bind c (fun x => let 'p := x in k))
  (at level 10, p strict pattern, c at level 100, k at level 200).

(** ** Comparisons of floats, as booleans *)

Definition Qltb (x y : Q) : bool := if Qlt_le_dec x y then true else false.
Definition Qleb (x y : Q) : bool := if Qlt_le_dec y x then false else true.

Declare Scope float_scope.
Delimit Scope float_scope with float.
Notation "x <? y" := (Qltb x y) (at level 70, no associativity) : float_scope.
Notation "x <=? y" := (Qleb x y) (at level 70, no associativity) : float_scope.
Notation "x >? y" := (Qltb y x) (at level 70, no associativity) : float_scope.
Notation "x >=? y" := (Qleb y x) (at level 70, no associativity) : float_scope.
Open Scope float_scope.

(** ** Machine integers and conversions *)

Definition UINT_MAX : Z := 2 ^ 32 - 1.
Definition INT_MAX : Z := 2 ^ 31 - 1.
Definition INT_MIN : Z := - 2 ^ 31.

(** Unsigned arithmetic wraps modulo 2^32. *)
Definition uint (z : Z) : Z := (z mod 2 ^ 32)%Z.

(** An unsigned value stored in an [int]. *)
Definition int_of_uint (z : Z) : Z :=
  if (z <=? INT_MAX)%Z then z else (z - 2 ^ 32)%Z.

(** Signed addition: overflow is undefined. *)
Definition int_add (a b : Z) : result Z :=
  let s := (a + b)%Z in
  if ((INT_MIN <=? s) && (s <=? INT_MAX))%Z then Ok s else Undefined.

(** [a % b] on unsigned operands. *)
Definition umod (a b : Z) : result Z :=
  if (b =? 0)%Z then Undefined else Ok (a mod b)%Z.

(** [a % b] on [int] operands: the quotient truncates toward zero. *)
Definition imod (a b : Z) : result Z :=
  if (b =? 0)%Z then Undefined else Ok (Z.rem a b).

(** Truncation toward zero, the value of a float-to-integer conversion. *)
Definition Qtrunc (x : Q) : Z :=
  if x <? 0 then Qceiling x else Qfloor x.

(** [(unsigned int) x] *)
Definition float_to_uint (x : Q) : result Z :=
  let t := Qtrunc x in
  if ((0 <=? t) && (t <=? UINT_MAX))%Z then Ok t else Undefined.

(** [(int) x] *)
Definition float_to_int (x : Q) : result Z :=
  let t := Qtrunc x in
  if ((INT_MIN <=? t) && (t <=? INT_MAX))%Z then Ok t else Undefined.

(** [std::floor] *)
Definition floorf (x : Q) : Q := inject_Z (Qfloor x).

(** ** Rounding to [float] and [double] *)

(** The integer nearest to [x], a tie going to the even one. *)
Definition round_half_even (x : Q) : Z :=
  let f := Qfloor x in
  let r := x - inject_Z f in
  if r <? 1 # 2 then f
  else if r >? 1 # 2 then (f + 1)%Z
  else if Z.even f then f else (f + 1)%Z.

(** [floor (log2 x)] for a positive [x]. *)
Definition ilog2 (x : Q) : Z :=
  let k := (Z.log2 (Qnum x) - Z.log2 (Zpos (Qden x)))%Z in
  if x <? 2 ^ k then (k - 1)%Z else k.

(** Rounding to the nearest binary floating-point number with [prec]
    significant bits and least exponent [emin], ties to even: the
    magnitude [a] is rounded to a multiple of the unit in its last place,
    [2 ^ max (floor (log2 a) - (prec - 1)) emin], and keeps its sign.  The
    result is a reduced fraction.  There is no largest exponent: where the
    code's result would be an infinity the value here is 2^128 or more, out
    of the range of every conversion that follows a rounding in this
    file. *)
Definition fl_mag (prec emin : Z) (a : Q) : Q :=
  let e := Z.max (ilog2 a - (prec - 1)) emin in
  inject_Z (round_half_even (a / 2 ^ e)) * 2 ^ e.

Definition fl_round (prec emin : Z) (x : Q) : Q :=
  Qred (if x <? 0 then - fl_mag prec emin (Qabs x)
        else fl_mag prec emin (Qabs x)).

(** IEEE 754 binary32 and binary64. *)
Definition f32 : Q -> Q := fl_round 24 (-149).
Definition f64 : Q -> Q := fl_round 53 (-1074).

(** [(float) z] for an integer [z], also where an integer operand meets a
    [float] one.  (Which neighbour an integer that is not a [float] goes
    to is left to the implementation by C++; the platform's conversion
    rounds to nearest.) *)
Definition float_of_int (z : Z) : Q := f32 (inject_Z z).

(** ** [std::vector<float>] *)

Abbreviation vec := (list Q).

(** [v[i]], read. *)
Definition vec_get (v : vec) (i : Z) : result Q :=
  if (0 <=? i)%Z then
    match v !! Z.to_nat i with
    | Some x => Ok x
    | None => Undefined
    end
  else Undefined.

(** [v[i] = x] *)
Definition vec_set (v : vec) (i : Z) (x : Q) : result vec :=
  if ((0 <=? i) && (i <? Z.of_nat (length v)))%Z
  then Ok (<[Z.to_nat i := x]> v)
  else Undefined.

(** [v.resize(n, x)] on an empty vector, and [std::fill] with [x]. *)
Definition vec_fill (n : nat) (x : Q) : vec := replicate n x.

(** ** DelayEffect.h, DelayEffect.cpp *)

Definition clampValue (value minVal maxVal : Q) : Q :=
  if value <? minVal then minVal
  else if value >? maxVal then maxVal
  else value.

Record DelayEffect : Type := mkDelayEffect {
  sampleRate : Z;
  bufferSize : Z;
  writePointer : Z;
  currentDelayTimeInSamples : Q;
  targetDelayTimeInSamples : Q;
  timeSmoothingFactor : Q;
  feedback : Q;
  mix : Q;
  delayBuffer : vec
}.

Definition with_target (d : DelayEffect) (t : Q) : DelayEffect :=
  mkDelayEffect (sampleRate d) (bufferSize d) (writePointer d)
    (currentDelayTimeInSamples d) t (timeSmoothingFactor d)
    (feedback d) (mix d) (delayBuffer d).

Definition with_current (d : DelayEffect) (c : Q) : DelayEffect :=
  mkDelayEffect (sampleRate d) (bufferSize d) (writePointer d)
    c (targetDelayTimeInSamples d) (timeSmoothingFactor d)
    (feedback d) (mix d) (delayBuffer d).

Definition with_feedback (d : DelayEffect) (f : Q) : DelayEffect :=
  mkDelayEffect (sampleRate d) (bufferSize d) (writePointer d)
    (currentDelayTimeInSamples d) (targetDelayTimeInSamples d)
    (timeSmoothingFactor d) f (mix d) (delayBuffer d).

Definition with_mix (d : DelayEffect) (m : Q) : DelayEffect :=
  mkDelayEffect (sampleRate d) (bufferSize d) (writePointer d)
    (currentDelayTimeInSamples d) (targetDelayTimeInSamples d)
    (timeSmoothingFactor d) (feedback d) m (delayBuffer d).

Definition with_smoothing (d : DelayEffect) (f : Q) : DelayEffect :=
  mkDelayEffect (sampleRate d) (bufferSize d) (writePointer d)
    (currentDelayTimeInSamples d) (targetDelayTimeInSamples d)
    f (feedback d) (mix d) (delayBuffer d).

Definition with_buffer (d : DelayEffect) (buf : vec) : DelayEffect :=
  mkDelayEffect (sampleRate d) (bufferSize d) (writePointer d)
    (currentDelayTimeInSamples d) (targetDelayTimeInSamples d)
    (timeSmoothingFactor d) (feedback d) (mix d) buf.

(** The state [processSample] leaves: the smoothed delay, the buffer with
    the written slot, and the advanced write pointer. *)
Definition with_processed (d : DelayEffect) (c : Q) (buf : vec) (wp : Z)
  : DelayEffect :=
  mkDelayEffect (sampleRate d) (bufferSize d) wp
    c (targetDelayTimeInSamples d) (timeSmoothingFactor d)
    (feedback d) (mix d) buf.

(** [void DelayEffect::setDelayTime(float delayTimeSec)]: the unsigned
    sample rate is converted to [float], the product is a [float], and so
    is the count that is stored. *)
Definition setDelayTime (d : DelayEffect) (delayTimeSec : Q)
  : result DelayEffect :=
  do samples <-
    float_to_uint (f32 (delayTimeSec * float_of_int (sampleRate d)));
  let samples := Z.min samples (uint (bufferSize d - 1)) in
  Ok (with_target d (float_of_int samples)).

(** [void DelayEffect::setFeedback(float feedbackAmount)] *)
Definition setFeedback (d : DelayEffect) (feedbackAmount : Q) : DelayEffect :=
  with_feedback d (clampValue feedbackAmount 0 1).

(** [void DelayEffect::setMix(float mixAmount)] *)
Definition setMix (d : DelayEffect) (mixAmount : Q) : DelayEffect :=
  with_mix d (clampValue mixAmount 0 1).

(** [void setTimeSmoothingFactor(float factor)] *)
Definition setTimeSmoothingFactor (d : DelayEffect) (factor : Q)
  : DelayEffect :=
  with_smoothing d (clampValue factor 0 1).

(** The constructor
    [DelayEffect(unsigned sr, float delayTimeSec, float feedbackAmount,
                 unsigned bufSize)]. *)
Definition DelayEffect_new (sr : Z) (delayTimeSec feedbackAmount : Q)
    (bufSize : Z) : result DelayEffect :=
  let d := mkDelayEffect sr bufSize 0 0 0 0.01 0.5 0.5 [] in
  let d := with_buffer d (vec_fill (Z.to_nat bufSize) 0) in
  do d <- setDelayTime d delayTimeSec;
  let d := with_current d (targetDelayTimeInSamples d) in
  let d := setFeedback d feedbackAmount in
  let d := setMix d 0.5 in
  Ok d.

(** [while(desiredRead < 0.f) desiredRead += (float)bufferSize;] *)
Fixpoint wrap_below (fuel : nat) (desiredRead size : Q) : result Q :=
  if desiredRead <? 0 then
    match fuel with
    | O => OutOfFuel
    | S fuel' => wrap_below fuel' (desiredRead + size) size
    end
  else Ok desiredRead.

(** [while(desiredRead >= (float)bufferSize) desiredRead -= (float)bufferSize;] *)
Fixpoint wrap_above (fuel : nat) (desiredRead size : Q) : result Q :=
  if desiredRead >=? size then
    match fuel with
    | O => OutOfFuel
    | S fuel' => wrap_above fuel' (desiredRead - size) size
    end
  else Ok desiredRead.

(** The smoothing step at the head of [processSample]. *)
Definition smoothed_delay (d : DelayEffect) : Q :=
  let diff := targetDelayTimeInSamples d - currentDelayTimeInSamples d in
  currentDelayTimeInSamples d + timeSmoothingFactor d * diff.

(** The ring buffer read position of [processSample], after both loops. *)
Definition read_position (fuel : nat) (d : DelayEffect) : result Q :=
  let desiredRead := inject_Z (writePointer d) - smoothed_delay d in
  do desiredRead <- wrap_below fuel desiredRead (inject_Z (bufferSize d));
  wrap_above fuel desiredRead (inject_Z (bufferSize d)).

(** [int floorPos = (int)std::floor(desiredRead);] *)
Definition floor_pos (desiredRead : Q) : result Z :=
  float_to_int (floorf desiredRead).

(** [int nextPos = (floorPos + 1) % bufferSize;]: the sum is an [int], the
    remainder is taken on unsigned operands, the result is stored in an
    [int]. *)
Definition next_pos (floorPos size : Z) : result Z :=
  do s <- int_add floorPos 1;
  do r <- umod (uint s) size;
  Ok (int_of_uint r).

(** [float DelayEffect::processSample(float inputSample)] *)
Definition processSample (fuel : nat) (d : DelayEffect) (inputSample : Q)
  : result (Q * DelayEffect) :=
  let current := smoothed_delay d in
  do desiredRead <- read_position fuel d;
  do floorPos <- floor_pos desiredRead;
  let frac := desiredRead - inject_Z floorPos in
  do nextPos <- next_pos floorPos (bufferSize d);
  do a <- vec_get (delayBuffer d) floorPos;
  do b <- vec_get (delayBuffer d) nextPos;
  let delayedSample := (1 - frac) * a + frac * b in
  let output := (1 - mix d) * inputSample + mix d * delayedSample in
  do buf <- vec_set (delayBuffer d) (writePointer d)
              (inputSample + delayedSample * feedback d);
  do wp <- umod (uint (writePointer d + 1)) (bufferSize d);
  Ok (output, with_processed d current buf wp).

(** ** lfo.cpp *)

Module Lfo.

(** Modelled from the spec: [lfo.h], which declares the enum of LFO types
    and the struct [lfoparams], is not among the sources.  The enumerators
    are the labels of [run_lfo]'s switch, with [UNLISTED] for any other
    value of the [unsigned int] (the switch's [default]); the 0 that
    [init_lfo] stores is [INT_TRI], as its comment says; the struct is one
    state block per waveform variant, as the spec's data model has it, with
    the field names [lfo.cpp] uses. *)
Inductive lfo_kind : Type :=
| INT_TRI | TRI | SINE | SQUARE | EXP | RELAX | HYPER | HYPER_SINE
| UNLISTED.

(** Integrated triangle: the fields [run_integrated_triangle_lfo] uses. *)
Record int_tri_block : Type := mkIntTri {
  startup_delay : Z;
  k : Q; k_ : Q;
  nk : Q; nk_ : Q;
  psign : Q; psign_ : Q;
  nsign : Q; nsign_ : Q;
  sign : Q; sign_ : Q;
  lfo : Q;
  x : Q
}.

Record tri_block : Type := mkTri {
  ktri : Q;
  trisign : Q;
  trilfo : Q
}.

Record sine_block : Type := mkSine {
  ksin : Q;
  sin_part : Q;
  cos_part : Q
}.

Record rlx_block : Type := mkRlx {
  rlx_k : Q; rlx_ik : Q;
  rlx_sign : Q;
  rlx_max : Q; rlx_min : Q;
  rlx_lfo : Q
}.

Record exp_block : Type := mkExp {
  exp_ik : Q; exp_k : Q;
  exp_x : Q;
  exp_min : Q; exp_max : Q;
  exp_sv : Q
}.

Record lfoparams : Type := mkLfo {
  int_tri : int_tri_block;
  tri : tri_block;
  sine : sine_block;
  rlx : rlx_block;
  expo : exp_block;
  current_rate : Q;
  lfo_type : lfo_kind
}.

Definition with_int_tri (lp : lfoparams) (b : int_tri_block) : lfoparams :=
  mkLfo b (tri lp) (sine lp) (rlx lp) (expo lp) (current_rate lp) (lfo_type lp).
Definition with_tri (lp : lfoparams) (b : tri_block) : lfoparams :=
  mkLfo (int_tri lp) b (sine lp) (rlx lp) (expo lp) (current_rate lp) (lfo_type lp).
Definition with_sine (lp : lfoparams) (b : sine_block) : lfoparams :=
  mkLfo (int_tri lp) (tri lp) b (rlx lp) (expo lp) (current_rate lp) (lfo_type lp).
Definition with_rlx (lp : lfoparams) (b : rlx_block) : lfoparams :=
  mkLfo (int_tri lp) (tri lp) (sine lp) b (expo lp) (current_rate lp) (lfo_type lp).
Definition with_expo (lp : lfoparams) (b : exp_block) : lfoparams :=
  mkLfo (int_tri lp) (tri lp) (sine lp) (rlx lp) b (current_rate lp) (lfo_type lp).

Section Libm.

(** [<math.h>]: the constants and functions [lfo.cpp] takes from it. *)
Variables M_PI M_E : Q.
Variables sin cos expf : Q -> Q.

(** [lfoparams* init_lfo(lfoparams* lp, float fosc, float fs, float phase)];
    the [lp] passed in is overwritten by the fresh allocation at once.
    The start-up delay is computed as the code computes it: [phase / 180.0]
    is a [double] stored in a [float], and the quotient by [frq] and the
    product with [fs] are [float]s.  A [frq] of zero makes the quotient an
    infinity or a NaN, and so the product [p], whose conversion to [int] is
    undefined. *)
Definition init_lfo (fosc fs phase : Q) : result lfoparams :=
  let ts := 1 / fs in
  let frq := 2 * fosc in
  let t := 4 * frq * frq * ts * ts in
  let p := f32 (f64 (phase / 180)) in
  let p := if p <? 0 then - p else p in
  let p := f32 (p / frq) in
  let p := f32 (p * fs) in
  do phdly <- (if Qeq_bool frq 0 then Undefined else float_to_int p);
  let it := mkIntTri phdly
              (2 * ts * frq) (2 * ts * frq)
              (-2 * ts * frq) (-2 * ts * frq)
              t t (- t) (- t) t t
              0 0 in
  let p := frq * phase / (360 * fosc) in
  let '(p, s) := if p >=? 1 then (p - 1, -1) else (p, 1) in
  let '(p, s) := if p <? 0 then (0, 1) else (p, s) in
  let tr := mkTri (frq / fs) s p in
  let sn := mkSine (M_PI * frq / fs)
              (sin (2 * M_PI * phase / 360))
              (cos (2 * M_PI * phase / 360)) in
  let ie := 1 / (1 - 1 / M_E) in
  let k := expf (-2 * fosc / fs) in
  let rx := mkRlx k (1 - k) ie ie (1 - ie) 0 in
  let k := expf (-2 * 1.3133 * fosc / fs) in
  let ex := mkExp k (1 / k) k (1 / M_E) (1 + 1 / M_E) (1 / M_E) in
  Ok (mkLfo it tr sn rx ex fosc INT_TRI).

(** [void update_lfo(lfoparams* lp, float fosc, float fs)] *)
Definition update_lfo (lp : lfoparams) (fosc fs : Q) : lfoparams :=
  let ts := 1 / fs in
  let frq := 2 * fosc in
  let t := 4 * frq * frq * ts * ts in
  let i := int_tri lp in
  let it := mkIntTri (startup_delay i)
              (k i) (2 * ts * frq)
              (nk i) (-2 * ts * frq)
              (psign i) t (nsign i) (- t) (sign i) t
              (lfo i) (x i) in
  let tr := mkTri (frq / fs) (trisign (tri lp)) (trilfo (tri lp)) in
  let sn := mkSine (M_PI * frq / fs)
              (sin_part (sine lp)) (cos_part (sine lp)) in
  let r := rlx lp in
  let k := expf (-2 * fosc / fs) in
  let rx := mkRlx k (1 - k) (rlx_sign r) (rlx_max r) (rlx_min r) (rlx_lfo r) in
  let e := expo lp in
  let k := expf (-2 * 1.3133 * fosc / fs) in
  let ex_x := if exp_x e >=? 1 then 1 / k else k in
  let ex_min := 1 / M_E in
  let ex_max := 1 + 1 / M_E in
  let sv := exp_sv e in
  let sv := if sv <? ex_min then ex_min else sv in
  let sv := if sv >? ex_max then ex_max else sv in
  mkLfo it tr sn rx (mkExp k (1 / k) ex_x ex_min ex_max sv) fosc (lfo_type lp).

End Libm.

(** Updates of the integrated-triangle block. *)
Definition it_startup (i : int_tri_block) : int_tri_block :=
  {| startup_delay := startup_delay i - 1;
     k := k i; k_ := k_ i; nk := nk i; nk_ := nk_ i;
     psign := psign i; psign_ := psign_ i;
     nsign := nsign i; nsign_ := nsign_ i;
     sign := sign i; sign_ := sign_ i;
     lfo := 0;
     x := x i |}.

Definition it_turn (i : int_tri_block) (new_sign new_x : Q) : int_tri_block :=
  {| startup_delay := startup_delay i;
     k := k_ i; k_ := k_ i; nk := nk_ i; nk_ := nk_ i;
     psign := psign i; psign_ := psign_ i;
     nsign := nsign i; nsign_ := nsign_ i;
     sign := new_sign; sign_ := sign_ i;
     lfo := lfo i;
     x := new_x |}.

Definition it_move (i : int_tri_block) (new_x : Q) : int_tri_block :=
  {| startup_delay := startup_delay i;
     k := k i; k_ := k_ i; nk := nk i; nk_ := nk_ i;
     psign := psign i; psign_ := psign_ i;
     nsign := nsign i; nsign_ := nsign_ i;
     sign := sign i; sign_ := sign_ i;
     lfo := lfo i;
     x := new_x |}.

Definition it_out (i : int_tri_block) (new_lfo : Q) : int_tri_block :=
  {| startup_delay := startup_delay i;
     k := k i; k_ := k_ i; nk := nk i; nk_ := nk_ i;
     psign := psign i; psign_ := psign_ i;
     nsign := nsign i; nsign_ := nsign_ i;
     sign := sign i; sign_ := sign_ i;
     lfo := new_lfo;
     x := x i |}.

(** [float run_integrated_triangle_lfo(lfoparams* lp)] *)
Definition run_integrated_triangle_lfo (lp : lfoparams) : Q * lfoparams :=
  let i := int_tri lp in
  if (startup_delay i >? 0)%Z then
    (0, with_int_tri lp (it_startup i))
  else
    let x1 := x i + sign i in
    let i :=
      if x1 >=? k i then it_turn i (nsign_ i) (k_ i)
      else if x1 <=? nk i then it_turn i (psign_ i) (nk_ i)
      else it_move i x1 in
    let l := lfo i + x i in
    let l := if l >? 1 then 1 else l in
    let l := if l <? 0 then 0 else l in
    (l, with_int_tri lp (it_out i l)).

(** [float run_triangle_lfo(lfoparams* lp)] *)
Definition run_triangle_lfo (lp : lfoparams) : Q * lfoparams :=
  let t := tri lp in
  let v := trilfo t + ktri t * trisign t in
  let s := if v >=? 1 then -1 else trisign t in
  let s := if v <=? 0 then 1 else s in
  (v, with_tri lp (mkTri (ktri t) s v)).

(** [float run_sine_lfo(lfoparams* lp)] *)
Definition run_sine_lfo (lp : lfoparams) : Q * lfoparams :=
  let s := sine lp in
  let sp := sin_part s + cos_part s * ksin s in
  let cp := cos_part s - sp * ksin s in
  (0.5 * (1 + cp), with_sine lp (mkSine (ksin s) sp cp)).

(** [float run_rlx_lfo(lfoparams* lp)] *)
Definition run_rlx_lfo (lp : lfoparams) : Q * lfoparams :=
  let r := rlx lp in
  let v := rlx_sign r * rlx_ik r + rlx_k r * rlx_lfo r in
  let s := if v >=? 1 then rlx_min r
           else if v <=? 0 then rlx_max r
           else rlx_sign r in
  (v, with_rlx lp (mkRlx (rlx_k r) (rlx_ik r) s (rlx_max r) (rlx_min r) v)).

(** [float run_exp_lfo(lfoparams* lp)] *)
Definition run_exp_lfo (lp : lfoparams) : Q * lfoparams :=
  let e := expo lp in
  let sv := exp_sv e * exp_x e in
  let ex := if sv >=? exp_max e then exp_ik e
            else if sv <=? exp_min e then exp_k e
            else exp_x e in
  (sv - exp_min e,
   with_expo lp (mkExp (exp_ik e) (exp_k e) ex (exp_min e) (exp_max e) sv)).

(** [float run_lfo(lfoparams* lp)] *)
Definition run_lfo (lp : lfoparams) : Q * lfoparams :=
  match lfo_type lp with
  | INT_TRI => run_integrated_triangle_lfo lp
  | TRI => run_triangle_lfo lp
  | SINE => run_sine_lfo lp
  | SQUARE =>
      let '(v, lp) := run_sine_lfo lp in
      let lfo_out := v - 0.5 in
      let lfo_out :=
        if lfo_out >? 0 then lfo_out * (1 / (1 + 30 * lfo_out))
        else lfo_out * (1 / (1 - 30 * lfo_out)) in
      let lfo_out := lfo_out * 16 in
      let lfo_out := lfo_out + 0.5 in
      (lfo_out, lp)
  | EXP => run_exp_lfo lp
  | RELAX => run_rlx_lfo lp
  | HYPER =>
      let '(v, lp) := run_integrated_triangle_lfo lp in
      (1 - Qabs (v - 0.5), lp)
  | HYPER_SINE =>
      let '(v, lp) := run_sine_lfo lp in
      (1 - Qabs (v - 0.5), lp)
  | UNLISTED => run_integrated_triangle_lfo lp
  end.

(** [void set_lfo_type(lfoparams* lp, unsigned int type)] *)
Definition set_lfo_type (lp : lfoparams) (type : lfo_kind) : lfoparams :=
  mkLfo (int_tri lp) (tri lp) (sine lp) (rlx lp) (expo lp)
    (current_rate lp) type.

(** [n] calls of [run_lfo], with the values returned, first call first. *)
Fixpoint run_lfo_n (n : nat) (lp : lfoparams) : list Q * lfoparams :=
  match n with
  | O => ([], lp)
  | S n' =>
      let '(v, lp1) := run_lfo lp in
      let '(vs, lp2) := run_lfo_n n' lp1 in
      (v :: vs, lp2)
  end.

End Lfo.

(** ** render.cpp *)

(** The globals and function-local statics the per-sample loop reads or
    writes, and the level last written to the LED pin. *)
Record Session : Type := mkSession {
  gAudioBuffer : vec;
  gBufferSize : Z;
  gWritePointer : Z;
  gReadPointer : Z;
  gAudioFramesPerAnalogFrame : Z;
  readIndex : Q;
  gRecording : bool;
  gPlaying : bool;
  gClearedOnce : bool;
  gPlaybackSpeed : Q;
  delayEffect : DelayEffect;
  gLFO : Lfo.lfoparams;
  localLastButtonState : Z;
  localLastClearButtonState : Z;
  ledPin : Z
}.

Definition LOW : Z := 0.
Definition HIGH : Z := 1.

(** What the Bela context hands to one audio frame: [audioRead], the two
    [digitalRead]s, and the four [analogRead]s of its analog frame. *)
Record Frame : Type := mkFrame {
  audioIn : Q;
  buttonState : Z;
  clearButtonState : Z;
  analogMix : Q;
  analogFb : Q;
  speedVal : Q;
  lfoDepth : Q
}.

Definition with_control (s : Session) (speed : Q) (d : DelayEffect)
    (lp : Lfo.lfoparams) : Session :=
  mkSession (gAudioBuffer s) (gBufferSize s) (gWritePointer s)
    (gReadPointer s) (gAudioFramesPerAnalogFrame s) (readIndex s)
    (gRecording s) (gPlaying s) (gClearedOnce s) speed d lp
    (localLastButtonState s) (localLastClearButtonState s) (ledPin s).

Definition with_transport (s : Session) (rec play : bool) (led : Z)
  : Session :=
  mkSession (gAudioBuffer s) (gBufferSize s) (gWritePointer s)
    (gReadPointer s) (gAudioFramesPerAnalogFrame s) (readIndex s)
    rec play (gClearedOnce s) (gPlaybackSpeed s) (delayEffect s) (gLFO s)
    (localLastButtonState s) (localLastClearButtonState s) led.

Definition with_lastButton (s : Session) (b : Z) : Session :=
  mkSession (gAudioBuffer s) (gBufferSize s) (gWritePointer s)
    (gReadPointer s) (gAudioFramesPerAnalogFrame s) (readIndex s)
    (gRecording s) (gPlaying s) (gClearedOnce s) (gPlaybackSpeed s)
    (delayEffect s) (gLFO s) b (localLastClearButtonState s) (ledPin s).

Definition with_lastClearButton (s : Session) (b : Z) : Session :=
  mkSession (gAudioBuffer s) (gBufferSize s) (gWritePointer s)
    (gReadPointer s) (gAudioFramesPerAnalogFrame s) (readIndex s)
    (gRecording s) (gPlaying s) (gClearedOnce s) (gPlaybackSpeed s)
    (delayEffect s) (gLFO s) (localLastButtonState s) b (ledPin s).

Definition with_clearedOnce (s : Session) (b : bool) : Session :=
  mkSession (gAudioBuffer s) (gBufferSize s) (gWritePointer s)
    (gReadPointer s) (gAudioFramesPerAnalogFrame s) (readIndex s)
    (gRecording s) (gPlaying s) b (gPlaybackSpeed s)
    (delayEffect s) (gLFO s) (localLastButtonState s)
    (localLastClearButtonState s) (ledPin s).

Definition with_delayEffect (s : Session) (d : DelayEffect) : Session :=
  with_control s (gPlaybackSpeed s) d (gLFO s).

Definition with_written (s : Session) (buf : vec) (wp : Z) : Session :=
  mkSession buf (gBufferSize s) wp
    (gReadPointer s) (gAudioFramesPerAnalogFrame s) (readIndex s)
    (gRecording s) (gPlaying s) (gClearedOnce s) (gPlaybackSpeed s)
    (delayEffect s) (gLFO s) (localLastButtonState s)
    (localLastClearButtonState s) (ledPin s).

Definition with_readIndex (s : Session) (r : Q) : Session :=
  mkSession (gAudioBuffer s) (gBufferSize s) (gWritePointer s)
    (gReadPointer s) (gAudioFramesPerAnalogFrame s) r
    (gRecording s) (gPlaying s) (gClearedOnce s) (gPlaybackSpeed s)
    (delayEffect s) (gLFO s) (localLastButtonState s)
    (localLastClearButtonState s) (ledPin s).

(** The knob block, run when [n] is a multiple of the (non-zero) number of
    audio frames per analog frame. *)
Definition control_tick (n : Z) (f : Frame) (s : Session) : result Session :=
  let g := gAudioFramesPerAnalogFrame s in
  if negb (g =? 0)%Z && (n mod g =? 0)%Z then
    let d := setMix (delayEffect s) (analogMix f) in
    let d := setFeedback d (analogFb f) in
    let speed := -2 + speedVal f * 4 in
    let depth := lfoDepth f in
    let depth := if depth <? 0 then 0 else depth in
    let depth := if depth >? 1 then 1 else depth in
    let '(lfoVal, lp) := Lfo.run_lfo (gLFO s) in
    let mod_ := (lfoVal - 0.5) * 2 in
    let baseDelaySec := 0.1 in
    let maxDelta := 1.9 in
    let offset := mod_ * maxDelta * depth in
    let newDelayTime := baseDelaySec + offset in
    let newDelayTime := if newDelayTime <? 0.01 then 0.01 else newDelayTime in
    let newDelayTime := if newDelayTime >? 2 then 2 else newDelayTime in
    do d <- setDelayTime d newDelayTime;
    Ok (with_control s speed d lp)
  else Ok s.

(** (A) Record/Play toggle. *)
Definition record_play_toggle (f : Frame) (s : Session) : Session :=
  let s :=
    if (buttonState f =? 1)%Z && (localLastButtonState s =? 0)%Z then
      if gRecording s then with_transport s false true LOW
      else with_transport s true true HIGH
    else s in
  with_lastButton s (buttonState f).

(** The body of the clear branch: [std::fill] with zero, both cursors and
    the playback index back to 0, transport stopped, LED low, guard set. *)
Definition clear (s : Session) : Session :=
  mkSession (vec_fill (length (gAudioBuffer s)) 0) (gBufferSize s) 0
    0 (gAudioFramesPerAnalogFrame s) 0
    false false true (gPlaybackSpeed s)
    (delayEffect s) (gLFO s) (localLastButtonState s)
    (localLastClearButtonState s) LOW.

(** The two conditions under which the clear branch runs: a rising edge of
    the clear control, and the one-shot guard not set. *)
Definition clear_fires (s : Session) (f : Frame) : bool :=
  ((clearButtonState f =? 1)%Z && (localLastClearButtonState s =? 0)%Z)
  && negb (gClearedOnce s).

(** (B) Clear buffer. *)
Definition clear_buffer (f : Frame) (s : Session) : Session :=
  let s1 :=
    if (clearButtonState f =? 1)%Z && (localLastClearButtonState s =? 0)%Z then
      if negb (gClearedOnce s) then clear s else s
    else s in
  let s2 :=
    if (clearButtonState f =? 0)%Z && (localLastClearButtonState s =? 1)%Z
    then with_clearedOnce s1 false
    else s1 in
  with_lastClearButton s2 (clearButtonState f).

(** The overdub of the recording branch:
    [gAudioBuffer[gWritePointer] += sample * 0.75f;
     gWritePointer = (gWritePointer + 1) % gBufferSize;] *)
Definition recordAdd (sample : Q) (s : Session) : result Session :=
  do old <- vec_get (gAudioBuffer s) (gWritePointer s);
  do buf <- vec_set (gAudioBuffer s) (gWritePointer s) (old + sample * 0.75);
  do next <- int_add (gWritePointer s) 1;
  do wp <- imod next (gBufferSize s);
  Ok (with_written s buf wp).

(** The playing branch: the sample under the playback index, and the index
    moved by [gPlaybackSpeed] and folded back once.  [readIndex] is a
    [float]: each sum is rounded, and [gBufferSize] is converted to [float]
    where it meets it. *)
Definition playbackRead (s : Session) : result (Q * Session) :=
  do i <- float_to_int (readIndex s);
  do j <- imod i (gBufferSize s);
  do playSample <- vec_get (gAudioBuffer s) j;
  let r := f32 (readIndex s + gPlaybackSpeed s) in
  let r :=
    if r <? 0 then f32 (r + float_of_int (gBufferSize s))
    else if r >=? float_of_int (gBufferSize s)
    then f32 (r - float_of_int (gBufferSize s))
    else r in
  Ok (playSample, with_readIndex s r).

(** Processing: record through the delay effect, then play. *)
Definition process (fuel : nat) (f : Frame) (s : Session)
  : result (Q * Session) :=
  let out := 0 in
  do '(out, s) <-
    (if gRecording s then
       do '(processedIn, d) <- processSample fuel (delayEffect s) (audioIn f);
       let s := with_delayEffect s d in
       let out := out + processedIn in
       do s <- recordAdd processedIn s;
       Ok (out, s)
     else Ok (out, s));
  if gPlaying s then
    do '(playSample, s) <- playbackRead s;
    Ok (out + playSample, s)
  else Ok (out, s).

(** One turn of the loop over the audio frames: the sample written to every
    output channel, and the state after it. *)
Definition render_frame (fuel : nat) (n : Z) (f : Frame) (s : Session)
  : result (Q * Session) :=
  do s <- control_tick n f s;
  let s := record_play_toggle f s in
  let s := clear_buffer f s in
  process fuel f s.

(** [render], the loop over the audio frames of one block, from frame
    number [n] on. *)
Fixpoint render_from (fuel : nat) (n : Z) (frames : list Frame) (s : Session)
  : result (list Q * Session) :=
  match frames with
  | [] => Ok ([], s)
  | f :: rest =>
      do '(out, s) <- render_frame fuel n f s;
      do '(outs, s) <- render_from fuel (n + 1) rest s;
      Ok (out :: outs, s)
  end.

Definition render (fuel : nat) (frames : list Frame) (s : Session)
  : result (list Q * Session) :=
  render_from fuel 0 frames s.

Section Setup.

Variables M_PI M_E : Q.
Variables sin cos expf : Q -> Q.

(** The state [render] starts from: the globals as initialised, the delay
    line as constructed, and what [setup] does to them for a context with
    [audioFrames] audio and [analogFrames] analog frames per block at
    [audioSampleRate].  The LED pin is low until it is written. *)
Definition setup (audioFrames analogFrames : Z) (audioSampleRate : Q)
  : result Session :=
  do d <- DelayEffect_new 44100 0.5 0.7 44100;
  let gBufferSize := (44100 * 20)%Z in
  let g := if negb (analogFrames =? 0)%Z
           then uint (audioFrames / analogFrames) else 0%Z in
  let buf := vec_fill (Z.to_nat gBufferSize) 0 in
  let fs := audioSampleRate in
  do lp <- Lfo.init_lfo M_PI M_E sin cos expf 0.1 fs 0;
  let lp := Lfo.set_lfo_type lp Lfo.SINE in
  Ok (mkSession buf gBufferSize 0 0 g 0 false false false 1 d lp 0 0 LOW).

End Setup.

(** * Specification-level definitions *)

(** The class invariant of [DelayEffect]: a buffer of [bufferSize] slots,
    at least one and no more than an [int] can index, and a write pointer
    inside it. *)
Definition delay_wf (d : DelayEffect) : Prop :=
  (0 < bufferSize d <= INT_MAX)%Z /\
  length (delayBuffer d) = Z.to_nat (bufferSize d) /\
  (0 <= writePointer d < bufferSize d)%Z.

(** [x] wrapped into [[0, c)]. *)
Definition wrap_into (x c : Q) : Q := x - floorf (x / c) * c.

(** The six steps of the spec's [processSample], in its words. *)
Definition processSample_spec (d : DelayEffect) (input : Q)
  : Q * DelayEffect :=
  let capacity := bufferSize d in
  let buffer := delayBuffer d in
  let currentDelay :=
    currentDelayTimeInSamples d
    + timeSmoothingFactor d
      * (targetDelayTimeInSamples d - currentDelayTimeInSamples d) in
  let pos :=
    wrap_into (inject_Z (writePointer d) - currentDelay) (inject_Z capacity) in
  let i := Qfloor pos in
  let frac := pos - inject_Z i in
  let delayed :=
    (1 - frac) * nth (Z.to_nat i) buffer 0
    + frac * nth (Z.to_nat ((i + 1) mod capacity)) buffer 0 in
  let output := (1 - mix d) * input + mix d * delayed in
  let buffer' :=
    <[Z.to_nat (writePointer d) := input + delayed * feedback d]> buffer in
  let writeCursor' := ((writePointer d + 1) mod capacity)%Z in
  (output,
   mkDelayEffect (sampleRate d) capacity writeCursor'
     currentDelay (targetDelayTimeInSamples d) (timeSmoothingFactor d)
     (feedback d) (mix d) buffer').

(** Equality of delay-line states up to the representation of rationals. *)
Definition DelayEffect_equiv (a b : DelayEffect) : Prop :=
  sampleRate a = sampleRate b /\
  bufferSize a = bufferSize b /\
  writePointer a = writePointer b /\
  currentDelayTimeInSamples a == currentDelayTimeInSamples b /\
  targetDelayTimeInSamples a == targetDelayTimeInSamples b /\
  timeSmoothingFactor a == timeSmoothingFactor b /\
  feedback a == feedback b /\
  mix a == mix b /\
  Forall2 Qeq (delayBuffer a) (delayBuffer b).

(** Fuel that lets both loops of [processSample] finish. *)
Definition fuel_needed (d : DelayEffect) : nat :=
  Z.to_nat
    (Qceiling (Qabs (inject_Z (writePointer d) - smoothed_delay d)
               / inject_Z (bufferSize d))).

(** A delay line of four slots, half way through a change of its delay. *)
Definition delay_example : DelayEffect :=
  mkDelayEffect 8 4 1 1.5 2 0.5 0.5 0.5 [1; 2; 3; 4].

(** The one delay line the program constructs:
    [DelayEffect delayEffect(44100, 0.5f, 0.7f, 44100);]. *)
Definition delayEffect_initial : DelayEffect :=
  mkDelayEffect 44100 44100 0 22050 22050 0.01 0.7 0.5
    (vec_fill (Z.to_nat 44100) 0).

(** Calls on a delay line, and sequences of them. *)
Inductive call : Type :=
| SetDelayTime (delayTimeSec : Q)
| SetFeedback (feedbackAmount : Q)
| SetMix (mixAmount : Q)
| SetTimeSmoothingFactor (factor : Q)
| ProcessSample (inputSample : Q).

Definition run_call (fuel : nat) (d : DelayEffect) (c : call)
  : result DelayEffect :=
  match c with
  | SetDelayTime s => setDelayTime d s
  | SetFeedback g => Ok (setFeedback d g)
  | SetMix m => Ok (setMix d m)
  | SetTimeSmoothingFactor f => Ok (setTimeSmoothingFactor d f)
  | ProcessSample x => do '(_, d) <- processSample fuel d x; Ok d
  end.

Fixpoint run_calls (fuel : nat) (d : DelayEffect) (cs : list call)
  : result DelayEffect :=
  match cs with
  | [] => Ok d
  | c :: cs => do d <- run_call fuel d c; run_calls fuel d cs
  end.

(** A run of calls on [delay_example], and the state it ends in. *)
Definition delay_calls : list call :=
  [SetDelayTime 5; ProcessSample 1; SetDelayTime 0.3125; ProcessSample 1].

Definition delay_example_after : DelayEffect :=
  match run_calls 2 delay_example delay_calls with
  | Ok d => d
  | _ => delay_example
  end.

(** The five state blocks of the LFO bank, and the block whose recurrence
    each selectable type advances. *)
Inductive variant : Type :=
| IntegratedTriangle | Triangle | Sine | Exponential | Relaxation.

Definition block_of (t : Lfo.lfo_kind) : variant :=
  match t with
  | Lfo.INT_TRI | Lfo.HYPER | Lfo.UNLISTED => IntegratedTriangle
  | Lfo.TRI => Triangle
  | Lfo.SINE | Lfo.SQUARE | Lfo.HYPER_SINE => Sine
  | Lfo.EXP => Exponential
  | Lfo.RELAX => Relaxation
  end.

(** The state of variant [v] is the same in [a] and [b]. *)
Definition same_block (v : variant) (a b : Lfo.lfoparams) : Prop :=
  match v with
  | IntegratedTriangle => Lfo.int_tri a = Lfo.int_tri b
  | Triangle => Lfo.tri a = Lfo.tri b
  | Sine => Lfo.sine a = Lfo.sine b
  | Exponential => Lfo.expo a = Lfo.expo b
  | Relaxation => Lfo.rlx a = Lfo.rlx b
  end.

(** The rational clipping curve of the square variant, [x / (1 + 30 |x|)]. *)
Definition soft_clip (x : Q) : Q := x / (1 + 30 * Qabs x).

(** Rational stand-ins for [<math.h>], to run [init_lfo] on examples: the
    constants to nine decimals, the functions as the head of their power
    series.  Theorems about [init_lfo] hold for every choice of them. *)
Definition M_PI_q : Q := 3.141592654.
Definition M_E_q : Q := 2.718281828.
Definition sin_q (x : Q) : Q := x - x * x * x / 6.
Definition cos_q (x : Q) : Q := 1 - x * x / 2 + x * x * x * x / 24.
Definition expf_q (x : Q) : Q := 1 + x + x * x / 2 + x * x * x / 6.

Definition init_lfo_q : Q -> Q -> Q -> result Lfo.lfoparams :=
  Lfo.init_lfo M_PI_q M_E_q sin_q cos_q expf_q.

(** An LFO bank with the sine variant selected. *)
Definition lfo_example : Lfo.lfoparams :=
  Lfo.mkLfo
    (Lfo.mkIntTri 0 0.25 0.25 (-0.25) (-0.25) 0.0625 0.0625
       (-0.0625) (-0.0625) 0.0625 0.0625 0 0)
    (Lfo.mkTri 0.125 1 0)
    (Lfo.mkSine 0.5 0 1)
    (Lfo.mkRlx 0.5 0.5 1.5 1.5 (-0.5) 0)
    (Lfo.mkExp 0.5 2 0.5 0.375 1.375 0.375)
    0.5 Lfo.SINE.

(** The bank [init_lfo] builds for 1.5 Hz at 8 samples per second, phase 0,
    with the rational stand-ins. *)
Definition lfo_initial_q : Lfo.lfoparams :=
  match init_lfo_q 1.5 8 0 with
  | Ok lp => lp
  | _ => lfo_example
  end.

(** What the triangle recurrence maintains: the direction is 1 or -1, and
    the phase has left [[0, 1]] by at most the one step that makes the
    direction flip. *)
Definition tri_inv (t : Lfo.tri_block) : Prop :=
  0 <= Lfo.ktri t /\
  ((Lfo.trisign t = 1 /\ - Lfo.ktri t <= Lfo.trilfo t <= 1) \/
   (Lfo.trisign t = -1 /\ 0 <= Lfo.trilfo t <= 1 + Lfo.ktri t)).

(** The looper's invariant: a buffer of [gBufferSize] slots, at least one,
    and a write cursor inside it. *)
Definition looper_wf (s : Session) : Prop :=
  (0 < gBufferSize s <= INT_MAX)%Z /\
  length (gAudioBuffer s) = Z.to_nat (gBufferSize s) /\
  (0 <= gWritePointer s < gBufferSize s)%Z.

(** [recordAdd] for each sample of a list, in order. *)
Fixpoint recordAdds (samples : list Q) (s : Session) : result Session :=
  match samples with
  | [] => Ok s
  | x :: rest => do s <- recordAdd x s; recordAdds rest s
  end.

(** The looper as [clear] leaves it: every slot zero, both cursors and the
    playback index at 0. *)
Definition cleared (n : nat) (s : Session) : Prop :=
  gAudioBuffer s = vec_fill n 0 /\
  gWritePointer s = 0%Z /\
  gReadPointer s = 0%Z /\
  readIndex s = 0.

(** For each frame of a run, whether the clear branch ran in it. *)
Fixpoint clear_trace (fuel : nat) (n : Z) (frames : list Frame) (s : Session)
  : result (list bool) :=
  match frames with
  | [] => Ok []
  | f :: rest =>
      do '(_, s') <- render_frame fuel n f s;
      do fired <- clear_trace fuel (n + 1) rest s';
      Ok (clear_fires s f :: fired)
  end.

(** (B) with the body of the clear branch taken out: what is left is the
    reset of the guard and the memory of the control. *)
Definition clear_buffer_inert (f : Frame) (s : Session) : Session :=
  let s2 :=
    if (clearButtonState f =? 0)%Z && (localLastClearButtonState s =? 1)%Z
    then with_clearedOnce s false
    else s in
  with_lastClearButton s2 (clearButtonState f).

(** The loop over the audio frames with that (B) in place of the code's:
    a run in which the clear branch is never taken. *)
Definition render_frame_inert (fuel : nat) (n : Z) (f : Frame) (s : Session)
  : result (Q * Session) :=
  do s <- control_tick n f s;
  let s := record_play_toggle f s in
  let s := clear_buffer_inert f s in
  process fuel f s.

Fixpoint render_from_inert (fuel : nat) (n : Z) (frames : list Frame)
    (s : Session) : result (list Q * Session) :=
  match frames with
  | [] => Ok ([], s)
  | f :: rest =>
      do '(out, s) <- render_frame_inert fuel n f s;
      do '(outs, s) <- render_from_inert fuel (n + 1) rest s;
      Ok (out :: outs, s)
  end.

(** A looper of four slots holding one recorded pass, playing. *)
Definition session_example : Session :=
  mkSession [0.5; 0.25; 0; 1] 4 3 0 2 1.5 false true false (-0.5)
    delay_example lfo_example 0 0 LOW.


Definition session_slow : Session :=
  mkSession (vec_fill (Z.to_nat 882000) 0) 882000 0 0 0 600000 false true
    false (f32 0.02) delayEffect_initial lfo_example 0 0 LOW.

(** Frames with the clear control up and down, knobs at rest. *)
Definition frame_idle : Frame := mkFrame 0.25 0 0 0.5 0.5 0.5 0.
Definition frame_clear : Frame := mkFrame 0.25 0 1 0.5 0.5 0.5 0.
Definition frame_clear_and_record : Frame := mkFrame 0.25 1 1 0.5 0.5 0.5 0.

(** The clear control held down over three frames, in the second of which
    the record button goes down too. *)
Definition frames_held : list Frame :=
  [frame_clear; frame_clear_and_record; frame_clear_and_record].

(** The delay line between calls: the class invariant, a sample rate whose
    double still converts to [unsigned int], both delays within the buffer,
    and a smoothing factor in [[0, 1]]. *)
Definition delay_ok (d : DelayEffect) : Prop :=
  delay_wf d /\
  (0 <= sampleRate d < 2 ^ 31)%Z /\
  0 <= currentDelayTimeInSamples d <= inject_Z (bufferSize d - 1) /\
  0 <= targetDelayTimeInSamples d <= inject_Z (bufferSize d - 1) /\
  0 <= timeSmoothingFactor d <= 1.

(** The delay line between the calls of [setDelayTime] that the knob block
    makes, with delay times of up to two seconds: [delay_ok], a sample rate
    whose double still converts to [unsigned int] after the [float]
    arithmetic of [setDelayTime] (the floats below 2^31 end at 2^31 - 128,
    and 2^31 - 64 is the first integer that rounds up to 2^31), and a
    capacity such that a [float] holds every sample count exactly. *)
Definition delay_knob_ok (d : DelayEffect) : Prop :=
  delay_ok d /\
  (sampleRate d < 2 ^ 31 - 64)%Z /\
  (bufferSize d <= 2 ^ 24)%Z.

(** The session between frames.  The capacity and its sum with the largest
    step are integers a [float] holds exactly; the playback index can be
    the capacity itself, which a rounded sum reaches. *)
Definition session_ok (s : Session) : Prop :=
  delay_knob_ok (delayEffect s) /\
  looper_wf s /\
  (2 <= gBufferSize s <= 2 ^ 24 - 2)%Z /\
  0 <= readIndex s <= inject_Z (gBufferSize s) /\
  -2 <= gPlaybackSpeed s <= 2.

(** A frame whose speed knob reads within its range. *)
Definition frame_ok (f : Frame) : Prop := 0 <= speedVal f <= 1.

(** * The rest of the code, and the definitions its properties use *)

(** ** lfo.cpp: [get_lfo_name] *)

(** The caller's [char] buffer, as the list of its bytes. *)
Abbreviation chars := (list Ascii.ascii).

(** [outstring[i] = c]: a store past the end of the buffer is undefined. *)
Definition char_set (outstring : chars) (i : nat) (c : Ascii.ascii)
  : result chars :=
  if (i <? length outstring)%nat then Ok (<[i := c]> outstring)
  else Undefined.

(** [for(i = from; i < from + n; i++) outstring[i] = '\0';] *)
Fixpoint zero_chars (n from : nat) (outstring : chars) : result chars :=
  match n with
  | O => Ok outstring
  | S n' =>
      do b <- char_set outstring from Ascii.zero;
      zero_chars n' (S from) b
  end.

(** [sprintf(outstring, literal)] for a literal without conversion
    specifications: its characters from position [pos] on, then the
    terminating NUL. *)
Fixpoint sprintf_from (pos : nat) (literal : String.string)
    (outstring : chars) : result chars :=
  match literal with
  | String.EmptyString => char_set outstring pos Ascii.zero
  | String.String c rest =>
      do b <- char_set outstring pos c;
      sprintf_from (S pos) rest b
  end.

Open Scope string_scope.

(** The literal each label of [get_lfo_name]'s switch prints. *)
Definition lfo_label (type : Lfo.lfo_kind) : String.string :=
  match type with
  | Lfo.INT_TRI => "INTEGRATED TRIANGLE"
  | Lfo.TRI => "TRIANGLE"
  | Lfo.SINE => "SINE"
  | Lfo.SQUARE => "SQUARE"
  | Lfo.EXP => "EXPONENTIAL"
  | Lfo.RELAX => "RC RELAXATION"
  | Lfo.HYPER => "HYPER"
  | Lfo.HYPER_SINE => "HYPER_SINE"
  | Lfo.UNLISTED => "DEFAULT: INTEGRATED TRIANGLE"
  end.

Close Scope string_scope.

(** [void get_lfo_name(unsigned int type, char* outstring)] *)
Definition get_lfo_name (type : Lfo.lfo_kind) (outstring : chars)
  : result chars :=
  do b <- zero_chars 30 0 outstring;
  sprintf_from 0 (lfo_label type) b.

(** The C string a buffer holds: its bytes up to the first NUL, if there is
    one. *)
Fixpoint c_string (b : chars) : option String.string :=
  match b with
  | [] => None
  | c :: rest =>
      if Ascii.eqb c Ascii.zero then Some String.EmptyString
      else option_map (String.String c) (c_string rest)
  end.

(** A buffer of forty bytes, none of them NUL. *)
Definition chars_example : chars := replicate 40 (Ascii.ascii_of_nat 120).

(** ** The delay line over a block of samples *)

(** [processSample] on each sample of a list, in order, with the values
    returned. *)
Fixpoint processSamples (fuel : nat) (d : DelayEffect) (inputs : list Q)
  : result (list Q * DelayEffect) :=
  match inputs with
  | [] => Ok ([], d)
  | x :: rest =>
      do '(o, d) <- processSample fuel d x;
      do '(os, d) <- processSamples fuel d rest;
      Ok (o :: os, d)
  end.

(** The three parameters the setters clamp. *)
Definition delay_params_ok (d : DelayEffect) : Prop :=
  0 <= feedback d <= 1 /\ 0 <= mix d <= 1 /\ 0 <= timeSmoothingFactor d <= 1.

(** The number of calls after which a sample written by [processSample]
    is read back, for a settled delay of [D] whole samples in a buffer of
    [size] slots: a delay of zero reads the slot under the write pointer
    before it is overwritten, which is the sample of [size] calls ago. *)
Definition echo_lag (D size : Z) : Z := if (D =? 0)%Z then size else D.

(** A delay line of four slots, settled on a delay of two samples. *)
Definition delay_settled : DelayEffect :=
  mkDelayEffect 8 4 1 2 2 0.5 0.5 0.5 [1; 2; 3; 4].

(** A delay line as the constructor returns it, a run of calls on it with
    arguments outside the setters' ranges, and the state the run ends in. *)
Definition delay_fresh : DelayEffect :=
  match DelayEffect_new 8 0.25 1.5 4 with
  | Ok d => d
  | _ => delay_example
  end.

Definition delay_fresh_calls : list call :=
  [SetMix 7; ProcessSample 1; SetFeedback (-3); SetTimeSmoothingFactor 2;
   ProcessSample 1].

Definition delay_fresh_after : DelayEffect :=
  match run_calls 2 delay_fresh delay_fresh_calls with
  | Ok d => d
  | _ => delay_example
  end.

(** ** The LFO recurrences *)

(** The quadratic form the sine recurrence conserves. *)
Definition sine_energy (b : Lfo.sine_block) : Q :=
  Lfo.sin_part b * Lfo.sin_part b + Lfo.cos_part b * Lfo.cos_part b
  + Lfo.ksin b * Lfo.sin_part b * Lfo.cos_part b.

(** What the relaxation recurrence maintains: a filter coefficient inside
    (0, 1) with its complement, thresholds on either side of [[0, 1]], and
    a level that is below 1 while charging and above 0 while discharging,
    past the far threshold by no more than one step. *)
Definition rlx_inv (r : Lfo.rlx_block) : Prop :=
  0 < Lfo.rlx_k r < 1 /\
  Lfo.rlx_ik r == 1 - Lfo.rlx_k r /\
  Lfo.rlx_min r <= 0 /\ 1 <= Lfo.rlx_max r /\
  ((Lfo.rlx_sign r == Lfo.rlx_max r /\
    Lfo.rlx_ik r * Lfo.rlx_min r <= Lfo.rlx_lfo r < 1) \/
   (Lfo.rlx_sign r == Lfo.rlx_min r /\
    0 < Lfo.rlx_lfo r <= Lfo.rlx_k r + Lfo.rlx_ik r * Lfo.rlx_max r)).

(** What the exponential recurrence maintains: a decay factor inside (0, 1)
    with its inverse as growth factor, and a level that is at least
    [exp_min] while decaying and at most [exp_max] while growing, so past
    either bound by no more than one step. *)
Definition exp_inv (e : Lfo.exp_block) : Prop :=
  0 < Lfo.exp_ik e < 1 /\
  Lfo.exp_k e * Lfo.exp_ik e == 1 /\
  0 < Lfo.exp_min e <= Lfo.exp_max e /\
  Lfo.exp_min e * Lfo.exp_ik e <= Lfo.exp_sv e <= Lfo.exp_max e * Lfo.exp_k e /\
  ((Lfo.exp_x e == Lfo.exp_ik e /\ Lfo.exp_min e <= Lfo.exp_sv e) \/
   (Lfo.exp_x e == Lfo.exp_k e /\ Lfo.exp_sv e <= Lfo.exp_max e)).

(** ** The per-sample loop over several blocks *)

(** Successive calls of [render], one per block of audio frames. *)
Fixpoint render_blocks (fuel : nat) (blocks : list (list Frame)) (s : Session)
  : result (list (list Q) * Session) :=
  match blocks with
  | [] => Ok ([], s)
  | b :: rest =>
      do '(o, s) <- render fuel b s;
      do '(os, s) <- render_blocks fuel rest s;
      Ok (o :: os, s)
  end.

(** The transport as the loop keeps it: recording implies playing, and the
    LED is high exactly while recording. *)
Definition transport_inv (s : Session) : Prop :=
  (gRecording s = true -> gPlaying s = true) /\
  ledPin s = (if gRecording s then HIGH else LOW).

(** The rising edges of the record button over a run of frames, [last]
    being the level the loop saw before the first of them. *)
Fixpoint presses (last : Z) (frames : list Frame) : nat :=
  match frames with
  | [] => 0
  | f :: rest =>
      ((if (buttonState f =? 1)%Z && (last =? 0)%Z then 1 else 0)
       + presses (buttonState f) rest)%nat
  end.

(** The level of the record button after a run of frames. *)
Definition last_button (last : Z) (frames : list Frame) : Z :=
  foldl (fun _ f => buttonState f) last frames.

(** The delay time, in whole samples, that a delay line of sample rate [sr]
    and [size] slots takes from a time in seconds: the product, rounded to
    [float], without its fraction, and no more than [size - 1]. *)
Definition delay_samples (sr size : Z) (seconds : Q) : Z :=
  Z.min (Qtrunc (f32 (seconds * float_of_int sr))) (size - 1).

(** A looper of four slots, recording, with the playback index on the write
    cursor. *)
Definition session_recording : Session :=
  mkSession [0.5; 0.25; 0; 1] 4 3 0 2 3 true true false 1
    delay_example lfo_example 0 0 HIGH.

(** A looper of four slots, playing at normal speed from its first slot. *)
Definition session_playing : Session :=
  mkSession [0.5; 0.25; 0; 1] 4 3 0 2 0 false true false 1
    delay_example lfo_example 0 0 LOW.

(** Frames with both buttons up and the speed knob at three quarters, which
    is normal speed. *)
Definition frame_normal_speed : Frame := mkFrame 0.25 0 0 0.5 0.5 0.75 0.

(** * Proofs *)

(** ** Comparisons of floats *)

Lemma Qltb_reflect (x y : Q) : reflect (x < y) (x <? y).
Proof.
  unfold Qltb. destruct (Qlt_le_dec x y); constructor; [assumption|lra].
Qed.

Lemma Qleb_reflect (x y : Q) : reflect (x <= y) (x <=? y).
Proof.
  unfold Qleb. destruct (Qlt_le_dec y x); constructor; [lra|assumption].
Qed.

(** ** Rounding to [float] and [double] *)

Lemma pow2_pos (e : Z) : 0 < 2 ^ e.
Proof. apply Qpower_0_lt. reflexivity. Qed.

Lemma pow2_plus (a b : Z) : 2 ^ (a + b) == 2 ^ a * 2 ^ b.
Proof. apply Qpower_plus. discriminate. Qed.

Lemma pow2_succ (a : Z) : 2 ^ (a + 1) == 2 * 2 ^ a.
Proof. rewrite pow2_plus. change (2 ^ 1) with 2. ring. Qed.

Lemma pow2_le (a b : Z) : (a <= b)%Z -> 2 ^ a <= 2 ^ b.
Proof. intros H. apply Qpower_le_compat_l; [exact H | discriminate]. Qed.

Lemma pow2_lt_inv (a b : Z) : 2 ^ a < 2 ^ b -> (a < b)%Z.
Proof. intros H. apply (Qpower_lt_compat_l_inv 2); [exact H | reflexivity]. Qed.

Lemma pow2_inject (a : Z) : (0 <= a)%Z -> 2 ^ a == inject_Z (2 ^ a).
Proof. intros H. rewrite Zpower_Qpower by exact H. reflexivity. Qed.

Lemma Qltb_comp (x x' y y' : Q) : x == x' -> y == y' -> (x <? y) = (x' <? y').
Proof.
  intros Hx Hy.
  destruct (Qltb_reflect x y), (Qltb_reflect x' y'); try reflexivity; lra.
Qed.

(** The exponent. *)

Lemma ilog2_spec (x : Q) : 0 < x -> 2 ^ ilog2 x <= x < 2 ^ (ilog2 x + 1).
Proof.
  intros Hx. destruct x as [n d].
  assert (Hn : (0 < n)%Z).
  { unfold Qlt in Hx. cbn in Hx. lia. }
  unfold ilog2. cbn [Qnum Qden].
  set (a := Z.log2 n). set (b := Z.log2 (Z.pos d)).
  destruct (Z.log2_spec n Hn) as [Ha1 Ha2]. fold a in Ha1, Ha2.
  destruct (Z.log2_spec (Z.pos d) eq_refl) as [Hb1 Hb2]. fold b in Hb1, Hb2.
  assert (Ha0 : (0 <= a)%Z) by apply Z.log2_nonneg.
  assert (Hb0 : (0 <= b)%Z) by apply Z.log2_nonneg.
  assert (Ex : n # d == inject_Z n / inject_Z (Z.pos d)) by apply Qmake_Qdiv.
  assert (HA : 2 ^ a <= inject_Z n < 2 * 2 ^ a).
  { rewrite <- pow2_succ, !pow2_inject by lia.
    rewrite <- Zle_Qle, <- Zlt_Qlt. replace (a + 1)%Z with (Z.succ a) by lia.
    lia. }
  assert (HB : 2 ^ b <= inject_Z (Z.pos d) < 2 * 2 ^ b).
  { rewrite <- pow2_succ, !pow2_inject by lia.
    rewrite <- Zle_Qle, <- Zlt_Qlt. replace (b + 1)%Z with (Z.succ b) by lia.
    lia. }
  assert (Ek : 2 ^ (a - b) * 2 ^ b == 2 ^ a).
  { rewrite <- pow2_plus. replace (a - b + b)%Z with a by lia. reflexivity. }
  pose proof (pow2_pos a) as Pa. pose proof (pow2_pos b) as Pb.
  pose proof (pow2_pos (a - b)) as Pk.
  pose proof (pow2_succ (a - b)) as Ek1.
  assert (Ek0 : 2 ^ (a - b) == 2 * 2 ^ (a - b - 1)).
  { rewrite <- pow2_succ. replace (a - b - 1 + 1)%Z with (a - b)%Z by lia.
    reflexivity. }
  pose proof (pow2_pos (a - b - 1)) as Pk0.
  set (N := inject_Z n) in *. set (D := inject_Z (Z.pos d)) in *.
  set (A := 2 ^ a) in *. set (B := 2 ^ b) in *.
  set (K := 2 ^ (a - b)) in *. set (K0 := 2 ^ (a - b - 1)) in *.
  assert (HD : 0 < D) by lra.
  assert (Hx1 : (n # d) * D == N).
  { rewrite Ex. field. lra. }
  set (X := n # d) in *. clearbody X N D A B.
  assert (HK : K = 2 ^ (a - b)) by reflexivity.
  assert (HK0 : K0 = 2 ^ (a - b - 1)) by reflexivity.
  clearbody K K0.
  assert (Hlo : K0 < X).
  { assert (K0 * D < X * D); [|nra]. rewrite Hx1.
    assert (K0 * D < K0 * (2 * B)) by nra.
    assert (K0 * (2 * B) == A) by (rewrite <- Ek, Ek0; ring). lra. }
  assert (Hhi : X < 2 * K).
  { assert (X * D < 2 * K * D); [|nra]. rewrite Hx1.
    assert (2 * K * B <= 2 * K * D) by nra.
    assert (2 * K * B == 2 * A) by (rewrite <- Ek; ring). lra. }
  destruct (Qltb_reflect X K) as [Hlt|Hge].
  - replace (a - b - 1 + 1)%Z with (a - b)%Z by lia.
    rewrite <- HK, <- HK0. lra.
  - rewrite <- HK, Ek1. lra.
Qed.

Lemma ilog2_unique (x : Q) (k : Z) : 2 ^ k <= x < 2 ^ (k + 1) -> ilog2 x = k.
Proof.
  intros [H1 H2].
  assert (Hx : 0 < x) by (pose proof (pow2_pos k); lra).
  destruct (ilog2_spec x Hx) as [H3 H4].
  assert (ilog2 x < k + 1)%Z by (apply pow2_lt_inv; lra).
  assert (k < ilog2 x + 1)%Z by (apply pow2_lt_inv; lra).
  lia.
Qed.

Lemma ilog2_comp (x y : Q) : 0 < x -> x == y -> ilog2 x = ilog2 y.
Proof.
  intros Hx E. symmetry. apply ilog2_unique.
  rewrite <- E. apply ilog2_spec. exact Hx.
Qed.

Lemma ilog2_mono (x y : Q) : 0 < x -> x <= y -> (ilog2 x <= ilog2 y)%Z.
Proof.
  intros Hx Hxy.
  destruct (ilog2_spec x Hx) as [H1 _].
  destruct (ilog2_spec y) as [_ H2]; [lra|].
  assert (ilog2 x < ilog2 y + 1)%Z by (apply pow2_lt_inv; lra).
  lia.
Qed.

(** Rounding to an integer. *)

Lemma round_half_even_cases (x : Q) :
  round_half_even x = Qfloor x \/ round_half_even x = (Qfloor x + 1)%Z.
Proof.
  unfold round_half_even. cbv zeta.
  destruct (_ <? _); [left; reflexivity|].
  destruct (_ <? _); [right; reflexivity|].
  destruct (Z.even _); [left | right]; reflexivity.
Qed.

Lemma round_half_even_Z (z : Z) : round_half_even (inject_Z z) = z.
Proof.
  unfold round_half_even. cbv zeta. rewrite Qfloor_Z.
  destruct (Qltb_reflect (inject_Z z - inject_Z z) (1 # 2)); [reflexivity|lra].
Qed.

Lemma round_half_even_comp (x y : Q) :
  x == y -> round_half_even x = round_half_even y.
Proof.
  intros E. unfold round_half_even. cbv zeta.
  rewrite (Qfloor_comp x y E).
  rewrite (Qltb_comp (x - inject_Z (Qfloor y)) (y - inject_Z (Qfloor y))
             (1 # 2) (1 # 2)) by (rewrite ?E; reflexivity).
  rewrite (Qltb_comp (1 # 2) (1 # 2)
             (x - inject_Z (Qfloor y)) (y - inject_Z (Qfloor y)))
    by (rewrite ?E; reflexivity).
  reflexivity.
Qed.

Lemma round_half_even_mono (x y : Q) :
  x <= y -> (round_half_even x <= round_half_even y)%Z.
Proof.
  intros Hxy. pose proof (Qfloor_resp_le x y Hxy) as Hf.
  destruct (Z.eq_dec (Qfloor x) (Qfloor y)) as [E|N].
  - unfold round_half_even. cbv zeta. rewrite E.
    destruct (Qltb_reflect (x - inject_Z (Qfloor y)) (1 # 2));
      destruct (Qltb_reflect (y - inject_Z (Qfloor y)) (1 # 2));
      destruct (Qltb_reflect (1 # 2) (x - inject_Z (Qfloor y)));
      destruct (Qltb_reflect (1 # 2) (y - inject_Z (Qfloor y)));
      try lra; destruct (Z.even (Qfloor y)); lia.
  - destruct (round_half_even_cases x) as [-> | ->];
      [|assert (Qfloor x + 1 <= Qfloor y)%Z by lia].
    + destruct (round_half_even_cases y) as [-> | ->]; lia.
    + destruct (round_half_even_cases y) as [-> | ->]; lia.
Qed.

Lemma round_half_even_nonneg (x : Q) : 0 <= x -> (0 <= round_half_even x)%Z.
Proof.
  intros H. change 0%Z with (round_half_even (inject_Z 0)) at 1.
  - apply round_half_even_mono. exact H.
Qed.

(** The magnitude. *)

Lemma inject_Z_pow2_scale (m e e' : Z) :
  (e' <= e)%Z ->
  inject_Z m * 2 ^ e / 2 ^ e' == inject_Z (m * 2 ^ (e - e')).
Proof.
  intros H. rewrite inject_Z_mult, <- pow2_inject by lia.
  replace e with (e - e' + e')%Z at 1 by lia. rewrite pow2_plus.
  field. pose proof (pow2_pos e'). lra.
Qed.

Section Round.

Variables prec emin : Z.
Hypothesis prec_pos : (0 < prec)%Z.

Local Abbreviation mag := (fl_mag prec emin).

Lemma fl_round_mag (x : Q) :
  fl_round prec emin x == if x <? 0 then - mag (Qabs x) else mag (Qabs x).
Proof. unfold fl_round. rewrite Qred_correct. reflexivity. Qed.

Lemma mag_zero (a : Q) : a == 0 -> mag a == 0.
Proof.
  intros E. unfold mag.
  rewrite (round_half_even_comp _ (inject_Z 0)).
  - rewrite round_half_even_Z. change (inject_Z 0) with 0. ring.
  - set (p := 2 ^ _). clearbody p. rewrite E.
    change (inject_Z 0) with 0. unfold Qdiv. ring.
Qed.

Lemma mag_nonneg (a : Q) : 0 <= a -> 0 <= mag a.
Proof.
  intros H. unfold mag.
  set (e := Z.max _ _). pose proof (pow2_pos e) as P.
  assert (0 <= a / 2 ^ e).
  { apply Qle_shift_div_l; [exact P | lra]. }
  pose proof (round_half_even_nonneg _ H0) as Hr.
  rewrite Zle_Qle in Hr. change (inject_Z 0) with 0 in Hr.
  nra.
Qed.

Lemma mag_comp (a b : Q) : 0 <= a -> a == b -> mag a == mag b.
Proof.
  intros Ha E. destruct (Qlt_le_dec 0 a) as [Hpos|Hz].
  - unfold mag. rewrite (ilog2_comp a b Hpos E).
    rewrite (round_half_even_comp (a / _) (b / 2 ^ Z.max (ilog2 b - (prec - 1)) emin)).
    + reflexivity.
    + set (p := 2 ^ _). clearbody p. rewrite E. reflexivity.
  - rewrite !mag_zero; [reflexivity | lra | lra].
Qed.

(** A magnitude in the binade of exponent [k] rounds into its closure. *)
Lemma mag_binade (a : Q) :
  0 < a ->
  (emin <= ilog2 a - (prec - 1))%Z ->
  2 ^ ilog2 a <= mag a <= 2 ^ (ilog2 a + 1).
Proof.
  intros Ha He. unfold mag. rewrite Z.max_l by lia.
  set (k := ilog2 a). set (e := (k - (prec - 1))%Z).
  destruct (ilog2_spec a Ha) as [H1 H2]. fold k in H1, H2.
  pose proof (pow2_pos e) as P.
  assert (E1 : 2 ^ k == inject_Z (2 ^ (prec - 1)) * 2 ^ e).
  { rewrite <- pow2_inject, <- pow2_plus by lia.
    replace (prec - 1 + e)%Z with k by (unfold e; lia). reflexivity. }
  assert (E2 : 2 ^ (k + 1) == inject_Z (2 ^ prec) * 2 ^ e).
  { rewrite <- pow2_inject, <- pow2_plus by lia.
    replace (prec + e)%Z with (k + 1)%Z by (unfold e; lia). reflexivity. }
  assert (L1 : inject_Z (2 ^ (prec - 1)) <= a / 2 ^ e).
  { apply Qle_shift_div_l; [exact P | lra]. }
  assert (L2 : a / 2 ^ e <= inject_Z (2 ^ prec)).
  { apply Qle_shift_div_r; [exact P | lra]. }
  apply round_half_even_mono in L1, L2.
  rewrite round_half_even_Z in L1, L2.
  rewrite Zle_Qle in L1, L2.
  rewrite E1, E2.
  set (r := inject_Z (round_half_even (a / 2 ^ e))) in *.
  clearbody r. split; nra.
Qed.

(** Below the least normal binade the unit is [2 ^ emin]. *)
Lemma mag_mono (a b : Q) : 0 <= a -> a <= b -> mag a <= mag b.
Proof.
  intros Ha Hab.
  destruct (Qlt_le_dec 0 a) as [Hpos|Hz].
  2:{ rewrite (mag_zero a) by lra. apply mag_nonneg. lra. }
  pose proof (ilog2_mono a b Hpos Hab) as Hk.
  set (ea := Z.max (ilog2 a - (prec - 1)) emin).
  set (eb := Z.max (ilog2 b - (prec - 1)) emin).
  assert (Hb : 0 < b) by lra.
  destruct (Z.eq_dec ea eb) as [E|N].
  - unfold mag. fold ea eb. rewrite E.
    pose proof (pow2_pos eb) as P.
    assert (L : a / 2 ^ eb <= b / 2 ^ eb).
    { apply Qle_shift_div_l; [exact P|].
      assert (a / 2 ^ eb * 2 ^ eb == a) by (field; lra). lra. }
    apply round_half_even_mono in L. rewrite Zle_Qle in L.
    nra.
  - assert (Hlt : (ea < eb)%Z) by (unfold ea, eb in *; lia).
    assert (Heb : (emin <= ilog2 b - (prec - 1))%Z) by (unfold ea, eb in *; lia).
    destruct (mag_binade b Hb Heb) as [Hb1 _].
    (* a rounds to at most 2^(ea + prec) *)
    destruct (ilog2_spec a Hpos) as [_ Ha2].
    assert (Hle : 2 ^ (ilog2 a + 1) <= 2 ^ (ea + prec)).
    { apply pow2_le. unfold ea. lia. }
    pose proof (pow2_pos ea) as P.
    assert (E2 : 2 ^ (ea + prec) == inject_Z (2 ^ prec) * 2 ^ ea).
    { rewrite <- pow2_inject, <- pow2_plus by lia.
      replace (prec + ea)%Z with (ea + prec)%Z by lia. reflexivity. }
    assert (L2 : a / 2 ^ ea <= inject_Z (2 ^ prec)).
    { apply Qle_shift_div_r; [exact P | lra]. }
    apply round_half_even_mono in L2. rewrite round_half_even_Z in L2.
    rewrite Zle_Qle in L2.
    assert (Hma : mag a <= 2 ^ (ea + prec)).
    { unfold mag. fold ea. rewrite E2.
      set (r := inject_Z (round_half_even (a / 2 ^ ea))) in *.
      clearbody r. nra. }
    assert (2 ^ (ea + prec) <= 2 ^ ilog2 b).
    { apply pow2_le. unfold ea, eb in *. lia. }
    lra.
Qed.

(** A multiple of a unit no finer than the last place is kept. *)
Lemma mag_exact (m e : Z) :
  (0 <= m < 2 ^ prec)%Z -> (emin <= e)%Z ->
  mag (inject_Z m * 2 ^ e) == inject_Z m * 2 ^ e.
Proof.
  intros Hm He.
  destruct (Z.eq_dec m 0%Z) as [->|Hnz].
  { rewrite mag_zero; [|change (inject_Z 0) with 0; ring].
    change (inject_Z 0) with 0. ring. }
  set (a := inject_Z m * 2 ^ e).
  assert (Hpos : 0 < a).
  { unfold a. pose proof (pow2_pos e).
    assert (0 < inject_Z m).
    { change 0 with (inject_Z 0). rewrite <- Zlt_Qlt. lia. }
    nra. }
  assert (Hk : (ilog2 a < prec + e)%Z).
  { destruct (ilog2_spec a Hpos) as [H1 _].
    apply pow2_lt_inv.
    assert (a < 2 ^ (prec + e)); [|lra].
    rewrite pow2_plus, pow2_inject by lia. unfold a.
    pose proof (pow2_pos e).
    assert (inject_Z m < inject_Z (2 ^ prec)) by (rewrite <- Zlt_Qlt; lia).
    nra. }
  unfold mag. set (e' := Z.max (ilog2 a - (prec - 1)) emin).
  assert (He' : (e' <= e)%Z) by (unfold e'; lia).
  rewrite (round_half_even_comp _ (inject_Z (m * 2 ^ (e - e')))).
  2:{ unfold a. apply inject_Z_pow2_scale. exact He'. }
  rewrite round_half_even_Z.
  rewrite inject_Z_mult, <- pow2_inject by lia.
  unfold a. rewrite <- Qmult_assoc, <- pow2_plus.
  replace (e - e' + e')%Z with e by lia. reflexivity.
Qed.

Lemma fl_round_comp (x y : Q) : x == y -> fl_round prec emin x = fl_round prec emin y.
Proof.
  intros E. unfold fl_round. cbv zeta. apply Qred_complete.
  rewrite (Qltb_comp x y 0 0 E) by reflexivity.
  assert (Hm : mag (Qabs x) == mag (Qabs y)).
  { apply mag_comp; [apply Qabs_nonneg | rewrite E; reflexivity]. }
  unfold mag in Hm. destruct (y <? 0); rewrite Hm; reflexivity.
Qed.

Lemma fl_round_mono (x y : Q) :
  x <= y -> fl_round prec emin x <= fl_round prec emin y.
Proof.
  intros Hxy. rewrite !fl_round_mag.
  destruct (Qltb_reflect x 0) as [Hx|Hx];
    destruct (Qltb_reflect y 0) as [Hy|Hy].
  - assert (mag (Qabs y) <= mag (Qabs x)); [|lra].
    apply mag_mono; [apply Qabs_nonneg|].
    rewrite !Qabs_neg by lra. lra.
  - pose proof (mag_nonneg (Qabs x) (Qabs_nonneg x)).
    pose proof (mag_nonneg (Qabs y) (Qabs_nonneg y)). lra.
  - lra.
  - apply mag_mono; [apply Qabs_nonneg|].
    rewrite !Qabs_pos by lra. lra.
Qed.

Lemma fl_round_exact (m e : Z) :
  (Z.abs m < 2 ^ prec)%Z -> (emin <= e)%Z ->
  fl_round prec emin (inject_Z m * 2 ^ e) == inject_Z m * 2 ^ e.
Proof.
  intros Hm He. rewrite fl_round_mag.
  pose proof (pow2_pos e) as P.
  assert (Ea : Qabs (inject_Z m * 2 ^ e) == inject_Z (Z.abs m) * 2 ^ e).
  { rewrite Qabs_Qmult, (Qabs_pos (2 ^ e)) by lra.
    unfold inject_Z. rewrite <- Zabs_Qabs. reflexivity. }
  pose proof (mag_comp _ _ (Qabs_nonneg _) Ea) as Em.
  rewrite mag_exact in Em by lia.
  destruct (Qltb_reflect (inject_Z m * 2 ^ e) 0) as [Hneg|Hpos]; rewrite Em.
  - assert (inject_Z m < 0) by nra.
    change 0 with (inject_Z 0) in H. rewrite <- Zlt_Qlt in H.
    rewrite Z.abs_neq by lia. rewrite inject_Z_opp. ring.
  - assert (0 <= inject_Z m) by nra.
    change 0 with (inject_Z 0) in H. rewrite <- Zle_Qle in H.
    rewrite Z.abs_eq by lia. reflexivity.
Qed.

(** The significand the rounding keeps has at most [prec] bits, or is
    [2 ^ prec] itself. *)
Lemma fl_mag_mantissa (a : Q) :
  0 <= a ->
  (0 <= round_half_even (a / 2 ^ Z.max (ilog2 a - (prec - 1)) emin)
     <= 2 ^ prec)%Z.
Proof.
  intros Ha. set (e := Z.max _ _). pose proof (pow2_pos e) as P. split.
  - apply round_half_even_nonneg. apply Qle_shift_div_l; [exact P | lra].
  - destruct (Qlt_le_dec 0 a) as [Hpos|Hz].
    + destruct (ilog2_spec a Hpos) as [_ H2].
      assert (Hle : 2 ^ (ilog2 a + 1) <= 2 ^ (e + prec)).
      { apply pow2_le. unfold e. lia. }
      assert (E2 : 2 ^ (e + prec) == inject_Z (2 ^ prec) * 2 ^ e).
      { rewrite <- pow2_inject, <- pow2_plus by lia.
        replace (prec + e)%Z with (e + prec)%Z by lia. reflexivity. }
      assert (L2 : a / 2 ^ e <= inject_Z (2 ^ prec)).
      { apply Qle_shift_div_r; [exact P | lra]. }
      apply round_half_even_mono in L2. rewrite round_half_even_Z in L2.
      exact L2.
    + rewrite (round_half_even_comp _ (inject_Z 0)).
      * rewrite round_half_even_Z. apply Z.pow_nonneg. lia.
      * set (p := 2 ^ e). clearbody p.
        assert (E : a == 0) by lra. rewrite E.
        change (inject_Z 0) with 0. unfold Qdiv. ring.
Qed.

Lemma fl_round_exact_le (m e : Z) :
  (Z.abs m <= 2 ^ prec)%Z -> (emin <= e)%Z ->
  fl_round prec emin (inject_Z m * 2 ^ e) == inject_Z m * 2 ^ e.
Proof.
  intros Hm He.
  destruct (Z.eq_dec (Z.abs m) (2 ^ prec)%Z) as [Ez|Nz];
    [|apply fl_round_exact; lia].
  assert (Hpow : (2 ^ prec = 2 * 2 ^ (prec - 1))%Z).
  { rewrite <- Z.pow_succ_r by lia. f_equal. lia. }
  assert (Hpos : (0 < 2 ^ (prec - 1))%Z) by (apply Z.pow_pos_nonneg; lia).
  assert (Hm2 : (m = m / 2 * 2)%Z).
  { assert (m = 2 * 2 ^ (prec - 1) \/ m = - (2 * 2 ^ (prec - 1)))%Z by lia.
    destruct H as [-> | ->].
    - rewrite Z.mul_comm, Z.div_mul by lia. lia.
    - rewrite <- Z.mul_opp_r, Z.mul_comm, Z.div_mul by lia. lia. }
  assert (Eq : inject_Z m * 2 ^ e == inject_Z (m / 2) * 2 ^ (e + 1)).
  { rewrite Hm2 at 1. rewrite inject_Z_mult, pow2_succ.
    change (inject_Z 2) with 2. ring. }
  rewrite (fl_round_comp _ _ Eq).
  rewrite fl_round_exact; [symmetry; exact Eq | | lia].
  assert (Z.abs (m / 2) = 2 ^ (prec - 1))%Z; [|lia].
  assert (m = 2 * 2 ^ (prec - 1) \/ m = - (2 * 2 ^ (prec - 1)))%Z by lia.
  destruct H as [-> | ->].
  - rewrite Z.mul_comm, Z.div_mul by lia. lia.
  - rewrite <- Z.mul_opp_r, Z.mul_comm, Z.div_mul by lia. lia.
Qed.

End Round.

Lemma Qred_inject_Z (z : Z) : Qred (inject_Z z) = inject_Z z.
Proof.
  pose proof (Qred_correct (inject_Z z)) as E.
  pose proof (gcd_Qred (inject_Z z)) as G.
  destruct (Qred (inject_Z z)) as [n d].
  unfold Qeq, inject_Z in E. cbn [Qnum Qden] in E, G.
  assert (Z.pos d = 1)%Z.
  { assert (Hd : (Z.pos d | n)%Z).
    { exists z. lia. }
    assert (Hg : (Z.pos d | Z.gcd n (Z.pos d))%Z).
    { apply Z.gcd_greatest; [exact Hd | reflexivity]. }
    rewrite G in Hg. apply Z.divide_1_r_nonneg in Hg; lia. }
  assert (d = 1%positive) by lia. subst d.
  unfold inject_Z. f_equal. lia.
Qed.

(** A rounded value that is an integer is that integer's fraction. *)
Lemma fl_round_eq_Z (prec emin : Z) (x : Q) (z : Z) :
  fl_round prec emin x == inject_Z z -> fl_round prec emin x = inject_Z z.
Proof.
  intros E. rewrite <- (Qred_inject_Z z). unfold fl_round in *.
  apply Qred_complete. rewrite Qred_correct in E. exact E.
Qed.

(** An integer of magnitude up to [2 ^ prec] is kept, as the same
    fraction. *)
Lemma fl_round_Z (prec emin z : Z) :
  (0 < prec)%Z -> (emin <= 0)%Z -> (Z.abs z <= 2 ^ prec)%Z ->
  fl_round prec emin (inject_Z z) = inject_Z z.
Proof.
  intros Hp He Hz. apply fl_round_eq_Z.
  assert (Eq : inject_Z z == inject_Z z * 2 ^ 0).
  { change (2 ^ 0) with 1. ring. }
  rewrite (fl_round_comp prec emin _ _ Eq).
  rewrite fl_round_exact_le; [symmetry; exact Eq | exact Hp | exact Hz | lia].
Qed.

(** [float] and [double]. *)

Lemma f32_comp (x y : Q) : x == y -> f32 x = f32 y.
Proof. apply fl_round_comp. Qed.

Lemma f64_comp (x y : Q) : x == y -> f64 x = f64 y.
Proof. apply fl_round_comp. Qed.

#[global] Instance f32_proper : Proper (Qeq ==> eq) f32.
Proof. intros x y E. apply f32_comp. exact E. Qed.

#[global] Instance f64_proper : Proper (Qeq ==> eq) f64.
Proof. intros x y E. apply f64_comp. exact E. Qed.

Lemma f32_mono (x y : Q) : x <= y -> f32 x <= f32 y.
Proof. apply fl_round_mono. reflexivity. Qed.

Lemma f64_mono (x y : Q) : x <= y -> f64 x <= f64 y.
Proof. apply fl_round_mono. reflexivity. Qed.

Lemma f32_Z (z : Z) : (Z.abs z <= 2 ^ 24)%Z -> f32 (inject_Z z) = inject_Z z.
Proof. apply fl_round_Z; lia. Qed.

Lemma float_of_int_exact (z : Z) :
  (Z.abs z <= 2 ^ 24)%Z -> float_of_int z = inject_Z z.
Proof. apply f32_Z. Qed.

(** Rounding keeps a value between two floats between them. *)
Lemma f32_between (x : Q) (lo hi : Z) :
  (Z.abs lo <= 2 ^ 24)%Z -> (Z.abs hi <= 2 ^ 24)%Z ->
  inject_Z lo <= x <= inject_Z hi ->
  inject_Z lo <= f32 x <= inject_Z hi.
Proof.
  intros Hlo Hhi [H1 H2].
  apply f32_mono in H1, H2. rewrite f32_Z in H1, H2 by assumption.
  split; assumption.
Qed.

Lemma f32_nonneg (x : Q) : 0 <= x -> 0 <= f32 x.
Proof.
  intros H. apply f32_mono in H. change (f32 0) with (f32 (inject_Z 0)) in H.
  rewrite f32_Z in H by lia. exact H.
Qed.

Lemma float_of_int_nonneg (z : Z) : (0 <= z)%Z -> 0 <= float_of_int z.
Proof.
  intros H. apply f32_nonneg. change 0 with (inject_Z 0).
  rewrite <- Zle_Qle. exact H.
Qed.

(** The product of [setDelayTime] for a delay time of up to two seconds:
    a sample rate below 2^31 - 64 is a [float] of at most 2^31 - 128, and
    the product stays below 2^32. *)
Lemma delay_product_range (sr : Z) (t : Q) :
  (0 <= sr < 2 ^ 31 - 64)%Z -> 0 <= t <= 2 ->
  0 <= f32 (t * float_of_int sr) <= inject_Z (2 ^ 32 - 256).
Proof.
  intros Hsr Ht.
  pose proof (float_of_int_nonneg sr (proj1 Hsr)) as H0.
  assert (H1 : float_of_int sr <= inject_Z (2 ^ 31 - 128)).
  { assert (E : f32 (inject_Z (2 ^ 31 - 65)) = inject_Z (2 ^ 31 - 128))
      by (vm_compute; reflexivity).
    rewrite <- E. apply f32_mono. rewrite <- Zle_Qle. lia. }
  assert (E2 : inject_Z (2 ^ 32 - 256) == 2 * inject_Z (2 ^ 31 - 128))
    by reflexivity.
  assert (E3 : f32 (inject_Z (2 ^ 32 - 256)) = inject_Z (2 ^ 32 - 256))
    by (vm_compute; reflexivity).
  split.
  - apply f32_nonneg. set (F := float_of_int sr) in *. clearbody F. nra.
  - rewrite <- E3. apply f32_mono. rewrite E2.
    set (F := float_of_int sr) in *. set (m := inject_Z (2 ^ 31 - 128)) in *.
    clearbody F m. nra.
Qed.

(** * The delay line *)

Lemma inject_Z_succ (n : nat) :
  inject_Z (Z.of_nat (S n)) == inject_Z (Z.of_nat n) + 1.
Proof.
  rewrite Nat2Z.inj_succ. unfold Z.succ. rewrite inject_Z_plus. reflexivity.
Qed.

Lemma Qfloor_unique (y : Q) (n : Z) :
  inject_Z n <= y -> y < inject_Z (n + 1) -> Qfloor y = n.
Proof.
  intros Hlo Hhi.
  pose proof (Qfloor_le y) as H1. pose proof (Qlt_floor y) as H2.
  assert (n < Qfloor y + 1)%Z by (rewrite Zlt_Qlt; lra).
  assert (Qfloor y < n + 1)%Z by (rewrite Zlt_Qlt; lra).
  lia.
Qed.

Lemma Qfloor_range (y : Q) (lo hi : Z) :
  inject_Z lo <= y -> y < inject_Z hi -> (lo <= Qfloor y < hi)%Z.
Proof.
  intros Hlo Hhi.
  pose proof (Qfloor_le y) as H1. pose proof (Qlt_floor y) as H2.
  assert (lo < Qfloor y + 1)%Z by (rewrite Zlt_Qlt; lra).
  assert (Qfloor y < hi)%Z by (rewrite Zlt_Qlt; lra).
  lia.
Qed.

Lemma Qtrunc_nonneg (x : Q) : 0 <= x -> Qtrunc x = Qfloor x.
Proof.
  intros H. unfold Qtrunc. destruct (Qltb_reflect x 0); [lra | reflexivity].
Qed.

Lemma Qtrunc_inject_Z (z : Z) : Qtrunc (inject_Z z) = z.
Proof.
  unfold Qtrunc. destruct (Qltb_reflect (inject_Z z) 0).
  - apply Qceiling_Z.
  - apply Qfloor_Z.
Qed.

(** ** The wrap loops of [processSample] *)

Section Wrap.

Variable size : Q.

Lemma wrap_below_ok (fuel : nat) : forall d : Q,
  - d <= inject_Z (Z.of_nat fuel) * size ->
  exists r, wrap_below fuel d size = Ok r /\
    0 <= r /\ (d < 0 -> r < size) /\ (0 <= d -> r = d) /\
    exists j : Z, r == d + inject_Z j * size.
Proof.
  induction fuel as [|fuel IH]; intros d Hd; cbn [wrap_below];
    destruct (Qltb_reflect d 0) as [Hneg|Hpos].
  - change (inject_Z (Z.of_nat 0)) with 0 in Hd. exfalso. lra.
  - exists d. repeat split; try lra. exists 0%Z. change (inject_Z 0) with 0. lra.
  - rewrite inject_Z_succ in Hd.
    destruct (IH (d + size)) as (r & Hr & H0 & Hlt & Heq & j & Hj); [nra|].
    exists r. repeat split; try assumption; try lra.
    + intros _. destruct (Qlt_le_dec (d + size) 0) as [H|H].
      * auto.
      * rewrite (Heq H). lra.
    + exists (j + 1)%Z. rewrite inject_Z_plus. rewrite Hj. ring.
  - exists d. repeat split; try lra. exists 0%Z. change (inject_Z 0) with 0. lra.
Qed.

Lemma wrap_above_ok (fuel : nat) : forall d : Q,
  0 <= d -> d < (inject_Z (Z.of_nat fuel) + 1) * size ->
  exists r, wrap_above fuel d size = Ok r /\
    0 <= r < size /\ (d < size -> r = d) /\
    exists j : Z, r == d + inject_Z j * size.
Proof.
  induction fuel as [|fuel IH]; intros d H0 Hd; cbn [wrap_above];
    destruct (Qleb_reflect size d) as [Hge|Hlt].
  - change (inject_Z (Z.of_nat 0)) with 0 in Hd. exfalso. lra.
  - exists d. repeat split; try lra. exists 0%Z. change (inject_Z 0) with 0. lra.
  - rewrite inject_Z_succ in Hd.
    destruct (IH (d - size)) as (r & Hr & Hrange & Heq & j & Hj); [lra|nra|].
    exists r. repeat split; try tauto; try lra.
    exists (j - 1)%Z. unfold Zminus. rewrite inject_Z_plus, inject_Z_opp.
    rewrite Hj. ring.
  - exists d. repeat split; try lra. exists 0%Z. change (inject_Z 0) with 0. lra.
Qed.

(** With a positive size the wrapped value is the usual remainder. *)
Lemma wrap_into_unique (x p : Q) (j : Z) :
  0 < size -> 0 <= p < size -> p == x + inject_Z j * size -> p == wrap_into x size.
Proof.
  intros size_pos Hp Hj. unfold wrap_into, floorf.
  assert (Hx : x / size == p / size - inject_Z j).
  { rewrite Hj. field. lra. }
  assert (Hfl : Qfloor (x / size) = (- j)%Z).
  { apply Qfloor_unique; rewrite Hx.
    - rewrite inject_Z_opp.
      assert (0 <= p / size) by (apply Qle_shift_div_l; lra). lra.
    - rewrite inject_Z_plus, inject_Z_opp.
      assert (p / size < 1) by (apply Qlt_shift_div_r; lra).
      change (inject_Z 1) with 1. lra. }
  rewrite Hfl, inject_Z_opp, Hj. ring.
Qed.

End Wrap.

(** ** Vectors and machine integers *)

Lemma vec_get_ok (v : vec) (i : Z) :
  (0 <= i < Z.of_nat (length v))%Z ->
  vec_get v i = Ok (nth (Z.to_nat i) v 0).
Proof.
  intros Hi. unfold vec_get.
  destruct (Z.leb_spec 0 i); [|lia].
  destruct (nth_lookup_or_length v (Z.to_nat i) 0) as [->|]; [reflexivity|lia].
Qed.

Lemma vec_set_ok (v : vec) (i : Z) (x : Q) :
  (0 <= i < Z.of_nat (length v))%Z ->
  vec_set v i x = Ok (<[Z.to_nat i := x]> v).
Proof.
  intros Hi. unfold vec_set.
  destruct (Z.leb_spec 0 i); [|lia].
  destruct (Z.ltb_spec i (Z.of_nat (length v))); [reflexivity|lia].
Qed.

Lemma Forall2_Qeq_refl (v : vec) : Forall2 Qeq v v.
Proof. induction v; constructor; [reflexivity | assumption]. Qed.

Lemma uint_small (z : Z) : (0 <= z <= INT_MAX)%Z -> uint z = z.
Proof.
  unfold uint, INT_MAX. intros H. apply Z.mod_small. lia.
Qed.

Lemma int_of_uint_small (z : Z) : (z <= INT_MAX)%Z -> int_of_uint z = z.
Proof.
  unfold int_of_uint. intros H. destruct (Z.leb_spec z INT_MAX); [reflexivity|lia].
Qed.

Lemma int_add_ok (a b : Z) :
  (INT_MIN <= a + b <= INT_MAX)%Z -> int_add a b = Ok (a + b)%Z.
Proof.
  intros H. unfold int_add. cbv zeta.
  destruct (Z.leb_spec INT_MIN (a + b)); [|lia].
  destruct (Z.leb_spec (a + b) INT_MAX); [reflexivity|lia].
Qed.

Lemma umod_ok (a b : Z) : b <> 0%Z -> umod a b = Ok (a mod b)%Z.
Proof.
  intros H. unfold umod. destruct (Z.eqb_spec b 0); [contradiction|reflexivity].
Qed.

Lemma float_to_int_floor (x : Q) (hi : Z) :
  0 <= x < inject_Z hi -> (hi <= INT_MAX)%Z ->
  float_to_int (floorf x) = Ok (Qfloor x) /\ (0 <= Qfloor x < hi)%Z.
Proof.
  intros Hx Hhi.
  assert (Hr : (0 <= Qfloor x < hi)%Z) by (apply Qfloor_range; tauto).
  split; [|assumption].
  unfold float_to_int, floorf. rewrite Qtrunc_inject_Z. unfold INT_MIN.
  destruct (Z.leb_spec (- 2 ^ 31) (Qfloor x)); [|lia].
  destruct (Z.leb_spec (Qfloor x) INT_MAX); [reflexivity|lia].
Qed.

Lemma next_pos_ok (i size : Z) :
  (0 <= i < size)%Z -> (size <= INT_MAX)%Z ->
  next_pos i size = Ok ((i + 1) mod size)%Z /\
  (0 <= (i + 1) mod size < size)%Z.
Proof.
  intros Hi Hs.
  assert (Hm : (0 <= (i + 1) mod size < size)%Z) by (apply Z.mod_pos_bound; lia).
  split; [|assumption].
  unfold next_pos.
  rewrite int_add_ok by (unfold INT_MIN; lia). cbn [bind].
  rewrite uint_small by lia.
  rewrite umod_ok by lia. cbn [bind].
  rewrite int_of_uint_small by lia. reflexivity.
Qed.

(** ** [processSample] *)

Lemma fuel_needed_enough (d : DelayEffect) (fuel : nat) :
  delay_wf d -> (fuel_needed d <= fuel)%nat ->
  Qabs (inject_Z (writePointer d) - smoothed_delay d)
  <= inject_Z (Z.of_nat fuel) * inject_Z (bufferSize d).
Proof.
  intros (Hcap & _ & _) Hfuel. unfold fuel_needed in Hfuel.
  set (a := Qabs (inject_Z (writePointer d) - smoothed_delay d)) in *.
  set (c := inject_Z (bufferSize d)) in *.
  assert (Hc : 0 < c).
  { unfold c. change 0 with (inject_Z 0). rewrite <- Zlt_Qlt. lia. }
  pose proof (Qle_ceiling (a / c)) as Hceil.
  assert (Hn : inject_Z (Qceiling (a / c)) <= inject_Z (Z.of_nat fuel)).
  { rewrite <- Zle_Qle. lia. }
  assert (Ha : a == a / c * c) by (field; lra).
  rewrite Ha. apply Qmult_le_compat_r; lra.
Qed.

Lemma read_position_ok (d : DelayEffect) (fuel : nat) :
  delay_wf d -> (fuel_needed d <= fuel)%nat ->
  exists pos, read_position fuel d = Ok pos /\
    0 <= pos < inject_Z (bufferSize d) /\
    pos == wrap_into (inject_Z (writePointer d) - smoothed_delay d)
             (inject_Z (bufferSize d)).
Proof.
  intros Hwf Hfuel.
  pose proof (fuel_needed_enough d fuel Hwf Hfuel) as Habs.
  destruct Hwf as (Hcap & _ & _).
  unfold read_position.
  set (x := inject_Z (writePointer d) - smoothed_delay d) in *.
  set (c := inject_Z (bufferSize d)) in *.
  assert (Hc : 0 < c).
  { unfold c. change 0 with (inject_Z 0). rewrite <- Zlt_Qlt. lia. }
  apply Qabs_Qle_condition in Habs.
  destruct (wrap_below_ok c fuel x) as (r1 & -> & H0 & Hlt & Heq & j1 & Hj1);
    [lra|].
  cbn [bind].
  destruct (wrap_above_ok c fuel r1) as (r2 & -> & Hr & _ & j2 & Hj2);
    [lra | |].
  - destruct (Qlt_le_dec x 0) as [Hx|Hx].
    + specialize (Hlt Hx). nra.
    + rewrite (Heq Hx). nra.
  - exists r2. split; [reflexivity|]. split; [exact Hr|].
    apply (wrap_into_unique c x r2 (j1 + j2)); [exact Hc|exact Hr|].
    rewrite inject_Z_plus, Hj2, Hj1. ring.
Qed.

(** What [processSample] computes, in terms of the read position its loops
    reach. *)
Lemma processSample_ok (d : DelayEffect) (input : Q) (fuel : nat) :
  delay_wf d -> (fuel_needed d <= fuel)%nat ->
  exists pos,
    read_position fuel d = Ok pos /\
    0 <= pos < inject_Z (bufferSize d) /\
    pos == wrap_into (inject_Z (writePointer d) - smoothed_delay d)
             (inject_Z (bufferSize d)) /\
    (0 <= Qfloor pos < bufferSize d)%Z /\
    let frac := pos - inject_Z (Qfloor pos) in
    let delayed :=
      (1 - frac) * nth (Z.to_nat (Qfloor pos)) (delayBuffer d) 0
      + frac * nth (Z.to_nat ((Qfloor pos + 1) mod bufferSize d))
                 (delayBuffer d) 0 in
    processSample fuel d input =
      Ok ((1 - mix d) * input + mix d * delayed,
          with_processed d (smoothed_delay d)
            (<[Z.to_nat (writePointer d) := input + delayed * feedback d]>
               (delayBuffer d))
            ((writePointer d + 1) mod bufferSize d)%Z).
Proof.
  intros Hwf Hfuel.
  destruct (read_position_ok d fuel Hwf Hfuel) as (pos & Hpos & Hrange & Hwrap).
  destruct Hwf as (Hcap & Hlen & Hwp).
  destruct (float_to_int_floor pos (bufferSize d) Hrange) as [Hfl Hi]; [lia|].
  destruct (next_pos_ok (Qfloor pos) (bufferSize d) Hi) as [Hnx Hn]; [lia|].
  exists pos. repeat split; try tauto.
  cbv zeta. unfold processSample, floor_pos.
  rewrite Hpos. cbn [bind]. rewrite Hfl. cbn [bind]. rewrite Hnx. cbn [bind].
  rewrite !vec_get_ok by lia. cbn [bind].
  rewrite vec_set_ok by lia. cbn [bind].
  rewrite uint_small by lia. rewrite umod_ok by lia. reflexivity.
Qed.

(** C1.  On every state that satisfies the class invariant [delay_wf] (a
    buffer of capacity slots, 0 < capacity <= INT_MAX, the write pointer
    inside it) and for every input sample, [processSample] returns, once
    the fuel covers its two wrap loops, and what it returns is what the six
    steps of the spec give: the smoothed delay, the read position wrapped
    into [[0, capacity)], the linear interpolation of the two bracketing
    slots, the dry/wet mix as output, the write of input plus fed-back
    delayed sample at the write cursor, and the cursor advanced modulo
    capacity; every other field is as before. *)
Theorem processSample_meets_spec (d : DelayEffect) (input : Q) (fuel : nat) :
  delay_wf d -> (fuel_needed d <= fuel)%nat ->
  exists out d',
    processSample fuel d input = Ok (out, d') /\
    out == fst (processSample_spec d input) /\
    DelayEffect_equiv d' (snd (processSample_spec d input)).
Proof.
  intros Hwf Hfuel.
  destruct (processSample_ok d input fuel Hwf Hfuel)
    as (pos & _ & _ & Hwrap & _ & Hrun).
  cbv zeta in Hrun. rewrite Hrun. clear Hrun.
  eexists _, _. split; [reflexivity|].
  unfold processSample_spec. cbv zeta. cbn [fst snd].
  change (currentDelayTimeInSamples d
          + timeSmoothingFactor d
            * (targetDelayTimeInSamples d - currentDelayTimeInSamples d))
    with (smoothed_delay d).
  set (ps := wrap_into (inject_Z (writePointer d) - smoothed_delay d)
               (inject_Z (bufferSize d))) in *.
  assert (Hfl : Qfloor pos = Qfloor ps) by (apply Qfloor_comp; exact Hwrap).
  rewrite Hfl.
  set (a := nth (Z.to_nat (Qfloor ps)) (delayBuffer d) 0).
  set (b := nth (Z.to_nat ((Qfloor ps + 1) mod bufferSize d)) (delayBuffer d) 0).
  clearbody ps a b.
  assert (Hdel : (1 - (pos - inject_Z (Qfloor ps))) * a
                 + (pos - inject_Z (Qfloor ps)) * b
                 == (1 - (ps - inject_Z (Qfloor ps))) * a
                    + (ps - inject_Z (Qfloor ps)) * b)
    by (rewrite Hwrap; reflexivity).
  split.
  - rewrite Hdel. reflexivity.
  - unfold DelayEffect_equiv, with_processed. cbn.
    repeat split; try reflexivity.
    apply Forall2_insert; [apply Forall2_Qeq_refl|].
    rewrite Hdel. reflexivity.
Qed.

Lemma processSample_meets_spec_witness :
  exists out d',
    processSample 1 delay_example 1 = Ok (out, d') /\
    out == fst (processSample_spec delay_example 1) /\
    DelayEffect_equiv d' (snd (processSample_spec delay_example 1)).
Proof.
  apply (processSample_meets_spec delay_example 1 1).
  - unfold delay_wf, INT_MAX. cbn. lia.
  - vm_compute. lia.
Defined.

(** ** [setDelayTime] *)

Lemma inject_Z_pred (z : Z) : inject_Z (z - 1) == inject_Z z - 1.
Proof.
  unfold Z.sub. rewrite inject_Z_plus, inject_Z_opp. reflexivity.
Qed.

Lemma Qtrunc_range (x : Q) (lo hi : Z) :
  (lo <= 0 < hi)%Z -> inject_Z lo - 1 < x < inject_Z hi ->
  (lo <= Qtrunc x < hi)%Z.
Proof.
  intros Hz Hx. unfold Qtrunc. destruct (Qltb_reflect x 0) as [Hneg|Hpos].
  - pose proof (Qle_ceiling x) as H1.
    pose proof (Qceiling_lt x) as H2.
    rewrite inject_Z_pred in H2.
    assert (lo - 1 < Qceiling x)%Z.
    { rewrite Zlt_Qlt, inject_Z_pred. lra. }
    assert (Qceiling x - 1 < 0)%Z.
    { rewrite Zlt_Qlt, inject_Z_pred. change (inject_Z 0) with 0. lra. }
    lia.
  - assert (lo <= Qfloor x < hi)%Z; [|lia].
    apply Qfloor_range; [|tauto].
    assert (inject_Z lo <= 0); [|lra].
    change 0 with (inject_Z 0). rewrite <- Zle_Qle. lia.
Qed.

Lemma float_to_uint_ok (x : Q) :
  -1 < x < inject_Z (2 ^ 32) ->
  float_to_uint x = Ok (Qtrunc x) /\ (0 <= Qtrunc x <= UINT_MAX)%Z.
Proof.
  intros Hx.
  assert (H : (0 <= Qtrunc x < 2 ^ 32)%Z).
  { apply Qtrunc_range; [lia|]. change (inject_Z 0) with 0. lra. }
  unfold float_to_uint, UINT_MAX. cbv zeta.
  destruct (Z.leb_spec 0 (Qtrunc x)); [|lia].
  destruct (Z.leb_spec (Qtrunc x) (2 ^ 32 - 1)); [|lia].
  split; [reflexivity | lia].
Qed.

Lemma Qtrunc_comp (a b : Q) : a == b -> Qtrunc a = Qtrunc b.
Proof.
  intros H. unfold Qtrunc.
  destruct (Qltb_reflect a 0); destruct (Qltb_reflect b 0); try lra.
  - apply Qceiling_comp. exact H.
  - apply Qfloor_comp. exact H.
Qed.

(** The whole part of a [float] is a [float]: the conversion of the count
    back to [float] in [setDelayTime] is exact when the count is the one
    the product gave. *)
Lemma float_of_int_trunc (x : Q) :
  float_of_int (Qtrunc (f32 x)) = inject_Z (Qtrunc (f32 x)).
Proof.
  pose proof (fl_round_mag 24 (-149) x) as Ey. fold (f32 x) in Ey.
  pose proof (fl_mag_mantissa 24 (-149) eq_refl (Qabs x) (Qabs_nonneg x))
    as Hm.
  unfold fl_mag in Ey.
  set (e := Z.max (ilog2 (Qabs x) - (24 - 1)) (-149)) in *.
  set (m := round_half_even (Qabs x / 2 ^ e)) in *.
  assert (He : (-149 <= e)%Z) by (unfold e; lia).
  clearbody m e. pose proof (pow2_pos e) as P.
  unfold float_of_int, f32 at 1.
  destruct (Z_le_gt_dec 0 e) as [Hge|Hlt].
  - set (s := if x <? 0 then (- m)%Z else m).
    assert (Es : f32 x == inject_Z s * 2 ^ e).
    { rewrite Ey. unfold s. destruct (x <? 0); [|reflexivity].
      rewrite inject_Z_opp. ring. }
    assert (En : inject_Z s * 2 ^ e == inject_Z (s * 2 ^ e)).
    { rewrite inject_Z_mult, <- pow2_inject by lia. reflexivity. }
    assert (Et : Qtrunc (f32 x) = (s * 2 ^ e)%Z).
    { rewrite (Qtrunc_comp _ (inject_Z (s * 2 ^ e)))
        by (rewrite Es; exact En).
      apply Qtrunc_inject_Z. }
    rewrite Et. apply fl_round_eq_Z.
    rewrite (fl_round_comp 24 (-149) _ _ (Qeq_sym _ _ En)).
    rewrite fl_round_exact_le; [exact En | reflexivity | | lia].
    unfold s. destruct (x <? 0); lia.
  - assert (Hhalf : 2 ^ e <= 1 # 2).
    { change (1 # 2) with (2 ^ (-1)). apply pow2_le. lia. }
    assert (Hmq : 0 <= inject_Z m <= inject_Z (2 ^ 24)).
    { change 0 with (inject_Z 0). rewrite <- !Zle_Qle. exact Hm. }
    change (inject_Z (2 ^ 24)) with 16777216 in Hmq.
    assert (Hmag : 0 <= inject_Z m * 2 ^ e <= 8388608).
    { set (q := inject_Z m) in *. set (u := 2 ^ e) in *. clearbody q u.
      split; nra. }
    assert (Hy : -8388608 <= f32 x <= 8388608).
    { rewrite Ey. set (g := inject_Z m * 2 ^ e) in *. clearbody g.
      destruct (x <? 0); split; lra. }
    assert (Ht : (- 2 ^ 23 <= Qtrunc (f32 x) < 2 ^ 23 + 1)%Z).
    { apply Qtrunc_range; [lia|].
      change (inject_Z (- 2 ^ 23)) with (-8388608).
      change (inject_Z (2 ^ 23 + 1)) with 8388609. split; lra. }
    apply fl_round_Z; lia.
Qed.

Lemma setDelayTime_ok (d : DelayEffect) (seconds : Q) :
  (0 < bufferSize d <= INT_MAX)%Z ->
  -1 < f32 (seconds * float_of_int (sampleRate d)) < inject_Z (2 ^ 32) ->
  setDelayTime d seconds =
    Ok (with_target d
          (float_of_int
             (Z.min (Qtrunc (f32 (seconds * float_of_int (sampleRate d))))
                (bufferSize d - 1)))) /\
  (0 <= Z.min (Qtrunc (f32 (seconds * float_of_int (sampleRate d))))
          (bufferSize d - 1)
     <= bufferSize d - 1)%Z.
Proof.
  intros Hcap Hx. destruct (float_to_uint_ok _ Hx) as [Hc Hr].
  unfold setDelayTime. rewrite Hc. cbn [bind].
  rewrite uint_small by lia. split; [reflexivity | lia].
Qed.

(** ** The class invariant is kept *)

Lemma setDelayTime_wf (d d' : DelayEffect) (seconds : Q) :
  delay_wf d -> setDelayTime d seconds = Ok d' ->
  delay_wf d' /\ bufferSize d' = bufferSize d.
Proof.
  unfold setDelayTime. intros Hwf H.
  destruct (float_to_uint _) as [t| |]; cbn [bind] in H; try discriminate.
  injection H as <-. split; [exact Hwf | reflexivity].
Qed.

Lemma processSample_wf (fuel : nat) (d d' : DelayEffect) (input out : Q) :
  delay_wf d -> processSample fuel d input = Ok (out, d') ->
  delay_wf d' /\ bufferSize d' = bufferSize d.
Proof.
  intros Hwf H. pose proof Hwf as (Hcap & Hlen & Hwp).
  unfold processSample in H.
  repeat match type of H with
    | bind ?c _ = Ok _ =>
        let E := fresh "E" in
        destruct c eqn:E; cbn [bind] in H; try discriminate
    end.
  injection H as _ <-.
  unfold vec_set in E4. destruct (_ && _)%bool in E4; try discriminate.
  injection E4 as <-.
  rewrite umod_ok in E5 by lia. injection E5 as <-.
  split; [|reflexivity].
  unfold delay_wf, with_processed; cbn.
  rewrite length_insert.
  repeat split; try tauto; try lia; apply Z.mod_pos_bound; lia.
Qed.

Lemma run_call_wf (fuel : nat) (d d' : DelayEffect) (c : call) :
  delay_wf d -> run_call fuel d c = Ok d' ->
  delay_wf d' /\ bufferSize d' = bufferSize d.
Proof.
  intros Hwf H. destruct c; cbn [run_call] in H.
  - eapply setDelayTime_wf; eassumption.
  - injection H as <-. split; [exact Hwf | reflexivity].
  - injection H as <-. split; [exact Hwf | reflexivity].
  - injection H as <-. split; [exact Hwf | reflexivity].
  - destruct (processSample fuel d inputSample) as [[o d1]| |] eqn:E;
      cbn [bind] in H; try discriminate.
    injection H as <-. eapply processSample_wf; eassumption.
Qed.

Lemma run_calls_wf (fuel : nat) (cs : list call) : forall d d' : DelayEffect,
  delay_wf d -> run_calls fuel d cs = Ok d' ->
  delay_wf d' /\ bufferSize d' = bufferSize d.
Proof.
  induction cs as [|c cs IH]; intros d d' Hwf H; cbn [run_calls] in H.
  - injection H as <-. split; [exact Hwf | reflexivity].
  - destruct (run_call fuel d c) as [d1| |] eqn:E; cbn [bind] in H;
      try discriminate.
    destruct (run_call_wf fuel d d1 c Hwf E) as [Hwf1 Hb1].
    destruct (IH d1 d' Hwf1 H) as [Hwf' Hb']. split; [exact Hwf' | congruence].
Qed.

Lemma delayEffect_constructed :
  DelayEffect_new 44100 0.5 0.7 44100 = Ok delayEffect_initial.
Proof.
  unfold DelayEffect_new, delayEffect_initial.
  generalize (vec_fill (Z.to_nat 44100) 0). intros buf.
  vm_compute. reflexivity.
Qed.

Lemma delayEffect_initial_wf : delay_wf delayEffect_initial.
Proof.
  unfold delay_wf, delayEffect_initial, INT_MAX, vec_fill.
  cbn [bufferSize delayBuffer writePointer].
  rewrite length_replicate. lia.
Qed.

(** C2, as the code has it.  [setDelayTime] multiplies the delay time by
    the sample rate in [float] arithmetic (the rate converted to [float],
    the product rounded to [float]), converts the product to an unsigned
    integer, which drops its fraction, takes the minimum with
    [capacity - 1], and stores that count as a [float]: the count is a whole
    number of samples in [[0, capacity - 1]], the target is that number
    itself whenever the capacity is at most 2^24 or the count is below the
    capacity (a [float] then holds it exactly), and the smoothed delay is
    untouched.  (The conversion is defined for a product above -1
    and below 2^32.)  After any sequence of calls on the delay line that
    ran, the two slots [processSample] reads from lie in
    [[0, capacity)]. *)
Theorem setDelayTime_target_and_read_index
    (d d' : DelayEffect) (seconds : Q) (calls : list call) (fuel fuel' : nat) :
  delay_wf d ->
  -1 < f32 (seconds * float_of_int (sampleRate d)) < inject_Z (2 ^ 32) ->
  run_calls fuel d calls = Ok d' ->
  (fuel_needed d' <= fuel')%nat ->
  let samples := Qtrunc (f32 (seconds * float_of_int (sampleRate d))) in
  (exists d1,
     setDelayTime d seconds = Ok d1 /\
     targetDelayTimeInSamples d1
     = float_of_int (Z.min samples (bufferSize d - 1)) /\
     (0 <= Z.min samples (bufferSize d - 1) <= bufferSize d - 1)%Z /\
     ((bufferSize d <= 2 ^ 24 \/ samples <= bufferSize d - 1)%Z ->
      targetDelayTimeInSamples d1
      = inject_Z (Z.min samples (bufferSize d - 1))) /\
     currentDelayTimeInSamples d1 = currentDelayTimeInSamples d /\
     d1 = with_target d (targetDelayTimeInSamples d1)) /\
  (bufferSize d' = bufferSize d /\
   exists pos,
     read_position fuel' d' = Ok pos /\
     (0 <= Qfloor pos < bufferSize d')%Z /\
     (0 <= (Qfloor pos + 1) mod bufferSize d' < bufferSize d')%Z).
Proof.
  intros Hwf Hx Hrun Hfuel samples. split.
  - destruct (setDelayTime_ok d seconds) as [Hset Hmin];
      [apply Hwf | exact Hx |].
    eexists. split; [exact Hset|].
    cbn [targetDelayTimeInSamples with_target currentDelayTimeInSamples].
    split; [reflexivity|]. split; [exact Hmin|].
    split; [|split; reflexivity].
    fold samples in Hmin. intros [Hsmall | Hunclamped].
    + apply float_of_int_exact. lia.
    + fold samples. rewrite !Z.min_l by exact Hunclamped.
      apply float_of_int_trunc.
  - destruct (run_calls_wf fuel calls d d' Hwf Hrun) as [Hwf' Hb].
    split; [exact Hb|].
    destruct (read_position_ok d' fuel' Hwf' Hfuel) as (pos & Hpos & Hr & _).
    destruct Hwf' as (Hcap & _ & _).
    exists pos. split; [exact Hpos|].
    assert (Hi : (0 <= Qfloor pos < bufferSize d')%Z).
    { apply Qfloor_range; [|tauto]. change (inject_Z 0) with 0. tauto. }
    split; [exact Hi | apply Z.mod_pos_bound; lia].
Qed.

Lemma setDelayTime_target_and_read_index_witness :
  let samples :=
    Qtrunc (f32 (0.3125 * float_of_int (sampleRate delay_example))) in
  (exists d1,
     setDelayTime delay_example 0.3125 = Ok d1 /\
     targetDelayTimeInSamples d1
     = float_of_int (Z.min samples (bufferSize delay_example - 1)) /\
     (0 <= Z.min samples (bufferSize delay_example - 1)
        <= bufferSize delay_example - 1)%Z /\
     ((bufferSize delay_example <= 2 ^ 24
       \/ samples <= bufferSize delay_example - 1)%Z ->
      targetDelayTimeInSamples d1
      = inject_Z (Z.min samples (bufferSize delay_example - 1))) /\
     currentDelayTimeInSamples d1 = currentDelayTimeInSamples delay_example /\
     d1 = with_target delay_example (targetDelayTimeInSamples d1)) /\
  (bufferSize delay_example_after = bufferSize delay_example /\
   exists pos,
     read_position 2 delay_example_after = Ok pos /\
     (0 <= Qfloor pos < bufferSize delay_example_after)%Z /\
     (0 <= (Qfloor pos + 1) mod bufferSize delay_example_after
        < bufferSize delay_example_after)%Z).
Proof.
  apply (setDelayTime_target_and_read_index
           delay_example delay_example_after 0.3125 delay_calls 2 2).
  - unfold delay_wf, INT_MAX. cbn. lia.
  - vm_compute. split; reflexivity.
  - vm_compute. reflexivity.
  - vm_compute. lia.
Defined.

(** C2 as stated fails: a delay of 1/16 s at 44100 Hz is 2756.25 samples,
    inside the clamp's range, and the target becomes 2756. *)
Lemma setDelayTime_drops_fraction :
  exists d',
    setDelayTime delayEffect_initial 0.0625 = Ok d' /\
    targetDelayTimeInSamples d' == 2756 /\
    clampValue (0.0625 * inject_Z (sampleRate delayEffect_initial)) 0
      (inject_Z (bufferSize delayEffect_initial - 1)) == 2756.25 /\
    ~ targetDelayTimeInSamples d'
      == clampValue (0.0625 * inject_Z (sampleRate delayEffect_initial)) 0
           (inject_Z (bufferSize delayEffect_initial - 1)).
Proof.
  exists (with_target delayEffect_initial 2756). split.
  - unfold setDelayTime, with_target, delayEffect_initial.
    cbn [sampleRate bufferSize].
    generalize (vec_fill (Z.to_nat 44100) 0). intros buf.
    vm_compute. reflexivity.
  - cbn [targetDelayTimeInSamples sampleRate bufferSize delayEffect_initial].
    repeat split; vm_compute; congruence.
Qed.

(** The product is rounded before its fraction is dropped: the [float]
    nearest to 0.01, the least delay time [render] passes, is below 0.01,
    and its exact product with 44100 is below 441; the rounded product is
    441, and so is the target. *)
Lemma setDelayTime_rounds_product :
  f32 0.01 < 0.01 /\
  Qtrunc (f32 0.01 * 44100) = 440%Z /\
  exists d',
    setDelayTime delayEffect_initial (f32 0.01) = Ok d' /\
    targetDelayTimeInSamples d' = 441.
Proof.
  split; [reflexivity|]. split; [reflexivity|].
  exists (with_target delayEffect_initial 441). split; [|reflexivity].
  unfold setDelayTime, with_target, delayEffect_initial.
  cbn [sampleRate bufferSize].
  generalize (vec_fill (Z.to_nat 44100) 0). intros buf.
  vm_compute. reflexivity.
Qed.

(** ** The constructor *)

Lemma wrap_zero_diverges (fuel : nat) (x : Q) :
  (do r <- wrap_below fuel x 0; wrap_above fuel r 0) = OutOfFuel.
Proof.
  assert (Habove : forall n y, 0 <= y -> wrap_above n y 0 = OutOfFuel).
  { induction n as [|n IH]; intros y Hy; cbn [wrap_above];
      destruct (Qleb_reflect 0 y); try lra; [reflexivity|].
    apply IH. lra. }
  assert (Hbelow : forall n y, y < 0 -> wrap_below n y 0 = OutOfFuel).
  { induction n as [|n IH]; intros y Hy; cbn [wrap_below];
      destruct (Qltb_reflect y 0); try lra; [reflexivity|].
    apply IH. lra. }
  destruct (Qlt_le_dec x 0) as [Hneg|Hpos].
  - rewrite Hbelow by exact Hneg. reflexivity.
  - assert (E : wrap_below fuel x 0 = Ok x).
    { destruct fuel; cbn [wrap_below]; destruct (Qltb_reflect x 0);
        try lra; reflexivity. }
    rewrite E. cbn [bind]. apply Habove. exact Hpos.
Qed.

(** C4, as the code has it.  The constructor checks nothing: with a
    capacity of zero it returns a delay line all the same, with an empty
    buffer, and with the target delay left at the whole unclamped sample
    count (the [float] product of delay time and sample rate without its
    fraction), since [bufferSize - 1] wraps to 2^32 - 1.  A [processSample]
    on that object never leaves its wrap loops, whatever the fuel. *)
Theorem constructor_accepts_zero_capacity
    (sr : Z) (delayTimeSec feedbackAmount : Q) :
  -1 < f32 (delayTimeSec * float_of_int sr) < inject_Z (2 ^ 32) ->
  exists d,
    DelayEffect_new sr delayTimeSec feedbackAmount 0 = Ok d /\
    bufferSize d = 0%Z /\
    delayBuffer d = [] /\
    writePointer d = 0%Z /\
    targetDelayTimeInSamples d
    = inject_Z (Qtrunc (f32 (delayTimeSec * float_of_int sr))) /\
    currentDelayTimeInSamples d = targetDelayTimeInSamples d /\
    forall (fuel : nat) (input : Q), processSample fuel d input = OutOfFuel.
Proof.
  intros Hx. destruct (float_to_uint_ok _ Hx) as [Hc Hr].
  unfold DelayEffect_new. cbv zeta. unfold setDelayTime.
  cbn [sampleRate bufferSize with_buffer]. rewrite Hc. cbn [bind].
  eexists. split; [reflexivity|].
  assert (Hmin : Z.min (Qtrunc (f32 (delayTimeSec * float_of_int sr)))
                   (uint (0 - 1))
                 = Qtrunc (f32 (delayTimeSec * float_of_int sr))).
  { change (uint (0 - 1)) with UINT_MAX. lia. }
  rewrite Hmin, float_of_int_trunc. cbn. repeat split.
  intros fuel input. unfold processSample, read_position.
  cbn [bufferSize writePointer]. change (inject_Z 0) with 0.
  rewrite wrap_zero_diverges. reflexivity.
Qed.

Lemma constructor_accepts_zero_capacity_witness :
  exists d,
    DelayEffect_new 44100 0.5 0.7 0 = Ok d /\
    bufferSize d = 0%Z /\
    delayBuffer d = [] /\
    writePointer d = 0%Z /\
    targetDelayTimeInSamples d
    = inject_Z (Qtrunc (f32 (0.5 * float_of_int 44100))) /\
    currentDelayTimeInSamples d = targetDelayTimeInSamples d /\
    forall (fuel : nat) (input : Q), processSample fuel d input = OutOfFuel.
Proof.
  apply (constructor_accepts_zero_capacity 44100 0.5 0.7).
  vm_compute. split; reflexivity.
Defined.

(** C4 as stated fails: the program's own constructor call, with the
    capacity replaced by zero, yields a delay line; nothing is rejected. *)
Lemma zero_capacity_not_rejected :
  DelayEffect_new 44100 0.5 0.7 0
  = Ok (mkDelayEffect 44100 0 0 22050 22050 0.01 0.7 0.5 []).
Proof. vm_compute. reflexivity. Qed.

(** ** The LFO bank *)

Section LfoFrame.

Import Lfo.

(** One step touches nothing but the block of the selected type. *)
Lemma run_lfo_frame (lp : lfoparams) (v : variant) :
  v <> block_of (lfo_type lp) ->
  same_block v lp (snd (run_lfo lp)) /\
  lfo_type (snd (run_lfo lp)) = lfo_type lp /\
  current_rate (snd (run_lfo lp)) = current_rate lp.
Proof.
  intros Hv. unfold run_lfo, run_integrated_triangle_lfo, run_triangle_lfo,
    run_sine_lfo, run_rlx_lfo, run_exp_lfo.
  destruct (lfo_type lp) eqn:Et; cbn [block_of] in Hv;
    repeat match goal with
      | |- context [if ?c then _ else _] => destruct c
      end;
    destruct v; try contradiction; cbn; repeat split;
    first [reflexivity | exact Et].
Qed.

Lemma run_lfo_n_frame (n : nat) : forall (lp : lfoparams) (v : variant),
  v <> block_of (lfo_type lp) ->
  same_block v lp (snd (run_lfo_n n lp)) /\
  lfo_type (snd (run_lfo_n n lp)) = lfo_type lp /\
  current_rate (snd (run_lfo_n n lp)) = current_rate lp.
Proof.
  induction n as [|n IH]; intros lp v Hv; cbn [run_lfo_n].
  - cbn. destruct v; repeat split; reflexivity.
  - destruct (run_lfo_frame lp v Hv) as (Hb & Ht & Hr).
    destruct (run_lfo lp) as [o lp1]. cbn [snd] in *.
    assert (Hv1 : v <> block_of (lfo_type lp1)) by (rewrite Ht; exact Hv).
    destruct (IH lp1 v Hv1) as (Hb' & Ht' & Hr').
    destruct (run_lfo_n n lp1) as [os lp2]. cbn [snd] in *.
    repeat split; try congruence.
    destruct v; cbn [same_block] in *; congruence.
Qed.

Lemma set_lfo_type_same_block (lp : lfoparams) (t : lfo_kind) (v : variant) :
  same_block v lp (set_lfo_type lp t).
Proof. destruct v; reflexivity. Qed.

End LfoFrame.

(** C3, as the code has it.  With type [t] selected, any number of calls
    of [run_lfo] mutates the state block that [t]'s recurrence uses and
    nothing else: every other variant's block, the rate and the selection
    are as before.  The square and hyper-sine types step the sine block,
    the hyper type the integrated-triangle block; so selecting a type that
    uses another block, stepping, and selecting the previous type back
    leaves the previously active variant's block exactly as it was. *)
Theorem unselected_variants_frozen
    (lp : Lfo.lfoparams) (t : Lfo.lfo_kind) (n : nat) (v : variant) :
  v <> block_of t ->
  let stepped := snd (Lfo.run_lfo_n n (Lfo.set_lfo_type lp t)) in
  let back := Lfo.set_lfo_type stepped (Lfo.lfo_type lp) in
  same_block v lp stepped /\
  Lfo.lfo_type stepped = t /\
  Lfo.current_rate stepped = Lfo.current_rate lp /\
  same_block v lp back /\
  Lfo.lfo_type back = Lfo.lfo_type lp.
Proof.
  intros Hv stepped back.
  destruct (run_lfo_n_frame n (Lfo.set_lfo_type lp t) v Hv) as (Hb & Ht & Hr).
  fold stepped in Hb, Ht, Hr.
  assert (Hs : same_block v lp stepped).
  { pose proof (set_lfo_type_same_block lp t v) as H0.
    destruct v; cbn [same_block] in *; congruence. }
  repeat split; assumption.
Qed.

Lemma unselected_variants_frozen_witness :
  let stepped :=
    snd (Lfo.run_lfo_n 5 (Lfo.set_lfo_type lfo_example Lfo.TRI)) in
  let back := Lfo.set_lfo_type stepped (Lfo.lfo_type lfo_example) in
  same_block Sine lfo_example stepped /\
  Lfo.lfo_type stepped = Lfo.TRI /\
  Lfo.current_rate stepped = Lfo.current_rate lfo_example /\
  same_block Sine lfo_example back /\
  Lfo.lfo_type back = Lfo.lfo_type lfo_example.
Proof.
  apply (unselected_variants_frozen lfo_example Lfo.TRI 5 Sine).
  cbn. discriminate.
Defined.

(** C3 as stated fails: with the sine variant active, selecting the square
    type, stepping once and selecting the sine type back has moved the sine
    oscillator. *)
Lemma square_steps_the_sine_state :
  let stepped :=
    snd (Lfo.run_lfo_n 1 (Lfo.set_lfo_type lfo_example Lfo.SQUARE)) in
  let back := Lfo.set_lfo_type stepped (Lfo.lfo_type lfo_example) in
  Lfo.lfo_type lfo_example = Lfo.SINE /\
  Lfo.lfo_type back = Lfo.SINE /\
  Lfo.sine lfo_example = Lfo.mkSine 0.5 0 1 /\
  Lfo.sin_part (Lfo.sine back) == 0.5 /\
  Lfo.cos_part (Lfo.sine back) == 0.75 /\
  Lfo.sine back <> Lfo.sine lfo_example.
Proof.
  cbv zeta. repeat split; try reflexivity.
  vm_compute. discriminate.
Qed.

(** C9.  With the square type selected, [run_lfo] steps the sine
    oscillator and builds its value from the oscillator's raw output
    [cos_part], not from the value remapped into [[0, 1]]: the raw output,
    halved, goes through the rational clipping curve [x / (1 + 30 |x|)], is
    scaled by 16 and offset by 1/2; that is [8 c / (1 + 15 |c|) + 1/2] for
    the raw output [c]. *)
Theorem square_from_raw_sine (lp : Lfo.lfoparams) :
  Lfo.lfo_type lp = Lfo.SQUARE ->
  let lp' := snd (Lfo.run_lfo lp) in
  let raw := Lfo.cos_part (Lfo.sine lp') in
  lp' = snd (Lfo.run_sine_lfo lp) /\
  fst (Lfo.run_lfo lp) == soft_clip (raw / 2) * 16 + 0.5 /\
  fst (Lfo.run_lfo lp) == 8 * raw / (1 + 15 * Qabs raw) + 0.5.
Proof.
  intros Ht. unfold Lfo.run_lfo. rewrite Ht.
  unfold Lfo.run_sine_lfo, soft_clip. cbn [fst snd Lfo.sine Lfo.with_sine Lfo.cos_part].
  set (c := Lfo.cos_part (Lfo.sine lp)
            - (Lfo.sin_part (Lfo.sine lp)
               + Lfo.cos_part (Lfo.sine lp) * Lfo.ksin (Lfo.sine lp))
              * Lfo.ksin (Lfo.sine lp)).
  clearbody c.
  split; [reflexivity|].
  destruct (Qltb_reflect 0 (0.5 * (1 + c) - 0.5)) as [Hpos|Hneg].
  - assert (Hc : 0 < c) by lra.
    assert (Ha : Qabs c == c) by (apply Qabs_pos; lra).
    assert (Ha2 : Qabs (c / 2) == c / 2).
    { apply Qabs_pos. apply Qle_shift_div_l; lra. }
    rewrite Ha, Ha2. split; field; lra.
  - assert (Hc : c <= 0) by lra.
    assert (Ha : Qabs c == - c) by (apply Qabs_neg; lra).
    assert (Ha2 : Qabs (c / 2) == - (c / 2)).
    { apply Qabs_neg. apply Qle_shift_div_r; lra. }
    rewrite Ha, Ha2. split; field; lra.
Qed.

Lemma square_from_raw_sine_witness :
  let lp := Lfo.set_lfo_type lfo_example Lfo.SQUARE in
  let lp' := snd (Lfo.run_lfo lp) in
  let raw := Lfo.cos_part (Lfo.sine lp') in
  lp' = snd (Lfo.run_sine_lfo lp) /\
  fst (Lfo.run_lfo lp) == soft_clip (raw / 2) * 16 + 0.5 /\
  fst (Lfo.run_lfo lp) == 8 * raw / (1 + 15 * Qabs raw) + 0.5.
Proof.
  apply (square_from_raw_sine (Lfo.set_lfo_type lfo_example Lfo.SQUARE)).
  reflexivity.
Defined.

Section LfoBounds.

Import Lfo.

Lemma run_lfo_type (lp : lfoparams) :
  lfo_type (snd (run_lfo lp)) = lfo_type lp.
Proof.
  unfold run_lfo, run_integrated_triangle_lfo, run_triangle_lfo,
    run_sine_lfo, run_rlx_lfo, run_exp_lfo.
  destruct (lfo_type lp) eqn:Et;
    repeat match goal with
      | |- context [if ?c then _ else _] => destruct c
      end; cbn; exact Et.
Qed.

(** The integrated triangle returns its clamped accumulator. *)
Lemma integrated_triangle_in_unit (lp : lfoparams) :
  0 <= fst (run_integrated_triangle_lfo lp) <= 1.
Proof.
  unfold run_integrated_triangle_lfo.
  destruct (startup_delay (int_tri lp) >? 0)%Z; cbn [fst]; [lra|].
  cbv zeta.
  match goal with
  | |- context [if (?l >? 1) then _ else _] => destruct (Qltb_reflect 1 l)
  end;
  match goal with
  | |- context [if (?l <? 0) then _ else _] => destruct (Qltb_reflect l 0)
  end; lra.
Qed.

Lemma int_tri_types_in_unit (lp : lfoparams) :
  block_of (lfo_type lp) = IntegratedTriangle ->
  0 <= fst (run_lfo lp) <= 1.
Proof.
  intros Hb. pose proof (integrated_triangle_in_unit lp) as Hv.
  unfold run_lfo. destruct (lfo_type lp); try discriminate; try exact Hv.
  destruct (run_integrated_triangle_lfo lp) as [v lp']. cbn [fst] in *.
  apply (Qabs_case (v - 0.5)); intros; lra.
Qed.

Lemma int_tri_types_run_in_unit (n : nat) : forall lp : lfoparams,
  block_of (lfo_type lp) = IntegratedTriangle ->
  Forall (fun v => 0 <= v <= 1) (fst (run_lfo_n n lp)).
Proof.
  induction n as [|n IH]; intros lp Hb; cbn [run_lfo_n].
  - constructor.
  - pose proof (int_tri_types_in_unit lp Hb) as Hv.
    pose proof (run_lfo_type lp) as Ht.
    destruct (run_lfo lp) as [v lp1]. cbn [fst snd] in *.
    assert (Hb1 : block_of (lfo_type lp1) = IntegratedTriangle)
      by (rewrite Ht; exact Hb).
    specialize (IH lp1 Hb1).
    destruct (run_lfo_n n lp1) as [vs lp2]. cbn [fst] in *.
    constructor; assumption.
Qed.

(** One step of the triangle keeps [tri_inv]; its value overshoots by at
    most the step. *)
Lemma triangle_step (lp : lfoparams) :
  tri_inv (tri lp) ->
  - ktri (tri lp) <= fst (run_triangle_lfo lp) <= 1 + ktri (tri lp) /\
  tri_inv (tri (snd (run_triangle_lfo lp))) /\
  ktri (tri (snd (run_triangle_lfo lp))) = ktri (tri lp).
Proof.
  intros (Hk & Hcase). unfold run_triangle_lfo, tri_inv.
  cbn [fst snd tri with_tri ktri trisign trilfo].
  set (kt := ktri (tri lp)) in *. set (tl := trilfo (tri lp)) in *.
  destruct Hcase as [(Hs & Hr) | (Hs & Hr)]; rewrite Hs;
    destruct (Qleb_reflect 1 (tl + kt * 1));
    destruct (Qleb_reflect 1 (tl + kt * -1));
    destruct (Qleb_reflect (tl + kt * 1) 0);
    destruct (Qleb_reflect (tl + kt * -1) 0);
    repeat split; try lra;
    first [ left; split; [reflexivity | lra]
          | right; split; [reflexivity | lra] ].
Qed.

Lemma triangle_run (n : nat) : forall lp : lfoparams,
  lfo_type lp = TRI -> tri_inv (tri lp) ->
  Forall (fun v => - ktri (tri lp) <= v <= 1 + ktri (tri lp))
    (fst (run_lfo_n n lp)).
Proof.
  induction n as [|n IH]; intros lp Ht Hinv; cbn [run_lfo_n].
  - constructor.
  - pose proof (run_lfo_type lp) as Ht1.
    assert (Hrun : run_lfo lp = run_triangle_lfo lp)
      by (unfold run_lfo; rewrite Ht; reflexivity).
    destruct (triangle_step lp Hinv) as (Hv & Hinv1 & Hk).
    rewrite Hrun in *.
    destruct (run_triangle_lfo lp) as [v lp1]. cbn [fst snd] in *.
    assert (Ht' : lfo_type lp1 = TRI) by congruence.
    specialize (IH lp1 Ht' Hinv1). rewrite Hk in IH.
    destruct (run_lfo_n n lp1) as [vs lp2]. cbn [fst] in *.
    constructor; assumption.
Qed.

Section Init.

Variables M_PI M_E : Q.
Variables sin cos expf : Q -> Q.

(** The triangle block [init_lfo] leaves, for a phase within one period. *)
Lemma init_lfo_triangle (fosc fs phase : Q) (lp : lfoparams) :
  0 < fosc -> 0 < fs -> 0 <= phase < 360 ->
  init_lfo M_PI M_E sin cos expf fosc fs phase = Ok lp ->
  tri_inv (tri lp) /\ ktri (tri lp) = 2 * fosc / fs /\ lfo_type lp = INT_TRI.
Proof.
  intros Hfosc Hfs Hphase Hinit. unfold init_lfo in Hinit. cbv zeta in Hinit.
  destruct (Qeq_bool _ _); cbn [bind] in Hinit; try discriminate.
  destruct (float_to_int _) as [phdly| |]; cbn [bind] in Hinit;
    try discriminate.
  set (p := 2 * fosc * phase / (360 * fosc)) in *.
  assert (Hp : p * 180 == phase) by (unfold p; field; lra).
  assert (Hk : 0 <= 2 * fosc / fs) by (apply Qle_shift_div_l; lra).
  set (kt := 2 * fosc / fs) in *. clearbody p kt.
  destruct (Qleb_reflect 1 p) as [Hge|Hlt].
  - destruct (Qltb_reflect (p - 1) 0) as [Hneg|Hnn]; [lra|].
    injection Hinit as <-. unfold tri_inv.
    cbn [tri ktri trisign trilfo lfo_type]. repeat split; try exact Hk.
    right. split; [reflexivity|]. lra.
  - destruct (Qltb_reflect p 0) as [Hneg|Hnn];
      injection Hinit as <-; unfold tri_inv;
      cbn [tri ktri trisign trilfo lfo_type]; repeat split; try exact Hk;
      left; (split; [reflexivity|]); lra.
Qed.

(** The exponential variant starts at its lower bound with the decaying
    coefficient selected, so its first value is below zero. *)
Lemma exponential_first_value_negative (fosc fs phase : Q) (lp : lfoparams) :
  0 < M_E ->
  0 < expf (-2 * 1.3133 * fosc / fs) < 1 ->
  init_lfo M_PI M_E sin cos expf fosc fs phase = Ok lp ->
  fst (run_lfo (set_lfo_type lp EXP)) < 0.
Proof.
  intros He Hk Hinit. unfold init_lfo in Hinit. cbv zeta in Hinit.
  destruct (Qeq_bool _ _); cbn [bind] in Hinit; try discriminate.
  destruct (float_to_int _) as [phdly| |]; cbn [bind] in Hinit;
    try discriminate.
  set (kx := expf (-2 * 1.3133 * fosc / fs)) in *.
  assert (Hmin : 0 < 1 / M_E) by (apply Qlt_shift_div_l; lra).
  destruct (_ >=? _); destruct (_ <? _); injection Hinit as <-;
    unfold run_lfo, run_exp_lfo;
    cbn [set_lfo_type lfo_type expo fst exp_sv exp_x exp_min];
    set (m := 1 / M_E) in *; clearbody m kx; nra.
Qed.

End Init.

End LfoBounds.

(** C8, as the code has it.  From every state that [init_lfo] produces
    (positive rate and sample rate, phase within one period) and for every
    number of steps: the types that step the integrated triangle (itself,
    hyper, and the switch's default) return values within [[0, 1]], because
    that accumulator is clamped; the triangle returns values within
    [[-s, 1 + s]] for its step [s = 2 fosc / fs], because it turns around
    only after its phase has crossed 0 or 1. *)
Theorem lfo_output_bounds
    (M_PI M_E : Q) (sin cos expf : Q -> Q)
    (fosc fs phase : Q) (lp : Lfo.lfoparams) (n : nat) :
  0 < fosc -> 0 < fs -> 0 <= phase < 360 ->
  Lfo.init_lfo M_PI M_E sin cos expf fosc fs phase = Ok lp ->
  (forall t : Lfo.lfo_kind, block_of t = IntegratedTriangle ->
     Forall (fun v => 0 <= v <= 1)
       (fst (Lfo.run_lfo_n n (Lfo.set_lfo_type lp t)))) /\
  Forall (fun v => - (2 * fosc / fs) <= v <= 1 + 2 * fosc / fs)
    (fst (Lfo.run_lfo_n n (Lfo.set_lfo_type lp Lfo.TRI))).
Proof.
  intros Hfosc Hfs Hphase Hinit. split.
  - intros t Ht. apply int_tri_types_run_in_unit. exact Ht.
  - destruct (init_lfo_triangle M_PI M_E sin cos expf fosc fs phase lp
                Hfosc Hfs Hphase Hinit) as (Hinv & Hk & _).
    rewrite <- Hk.
    apply (triangle_run n (Lfo.set_lfo_type lp Lfo.TRI));
      [reflexivity | exact Hinv].
Qed.

Lemma lfo_output_bounds_witness :
  (forall t : Lfo.lfo_kind, block_of t = IntegratedTriangle ->
     Forall (fun v => 0 <= v <= 1)
       (fst (Lfo.run_lfo_n 10 (Lfo.set_lfo_type lfo_initial_q t)))) /\
  Forall (fun v => - (2 * 1.5 / 8) <= v <= 1 + 2 * 1.5 / 8)
    (fst (Lfo.run_lfo_n 10 (Lfo.set_lfo_type lfo_initial_q Lfo.TRI))).
Proof.
  apply (lfo_output_bounds M_PI_q M_E_q sin_q cos_q expf_q 1.5 8 0
           lfo_initial_q 10).
  - reflexivity.
  - reflexivity.
  - split; [discriminate | reflexivity].
  - vm_compute. reflexivity.
Defined.

(** C8 as stated fails: initialised for 1.5 Hz at 8 samples per second and
    phase 0, the triangle variant steps by 3/8 and returns 3/8, 3/4 and then
    9/8, above 1. *)
Lemma triangle_overshoots :
  exists lp,
    init_lfo_q 1.5 8 0 = Ok lp /\
    Forall2 Qeq (fst (Lfo.run_lfo_n 3 (Lfo.set_lfo_type lp Lfo.TRI)))
      [0.375; 0.75; 1.125] /\
    1 < nth 2 (fst (Lfo.run_lfo_n 3 (Lfo.set_lfo_type lp Lfo.TRI))) 0.
Proof.
  exists lfo_initial_q. split; [vm_compute; reflexivity|]. split.
  - vm_compute. repeat constructor.
  - vm_compute. reflexivity.
Qed.

(** The same values whatever [<math.h>] provides: the triangle block that
    [init_lfo] builds does not use it. *)
Lemma triangle_overshoots_any_libm (M_PI M_E : Q) (sin cos expf : Q -> Q) :
  exists lp,
    Lfo.init_lfo M_PI M_E sin cos expf 1.5 8 0 = Ok lp /\
    Forall2 Qeq (fst (Lfo.run_lfo_n 3 (Lfo.set_lfo_type lp Lfo.TRI)))
      [0.375; 0.75; 1.125].
Proof.
  eexists. split.
  - unfold Lfo.init_lfo. cbv zeta.
    replace (Qeq_bool _ _) with false by reflexivity. cbn [bind].
    replace (float_to_int _) with (Ok 0%Z : result Z) by reflexivity.
    cbn [bind].
    replace (2 * 1.5 * 0 / (360 * 1.5) >=? 1) with false by reflexivity.
    replace (2 * 1.5 * 0 / (360 * 1.5) <? 0) with false by reflexivity.
    reflexivity.
  - cbn [Lfo.run_lfo_n Lfo.run_lfo Lfo.set_lfo_type Lfo.lfo_type].
    unfold Lfo.run_triangle_lfo.
    cbn [Lfo.tri Lfo.with_tri Lfo.ktri Lfo.trisign Lfo.trilfo fst snd].
    repeat constructor; vm_compute; reflexivity.
Qed.

(** The other recurrences are not clamped either.  On the same bank (with
    the rational stand-ins for [<math.h>]) the sine variant's second value
    is below 0 and the relaxation variant's third value is above 1. *)
Lemma sine_and_relaxation_leave_unit :
  nth 1 (fst (Lfo.run_lfo_n 2 (Lfo.set_lfo_type lfo_initial_q Lfo.SINE))) 0 < 0
  /\
  1 < nth 2 (fst (Lfo.run_lfo_n 3 (Lfo.set_lfo_type lfo_initial_q Lfo.RELAX))) 0.
Proof. split; vm_compute; reflexivity. Qed.

(** At the rate the program initialises its bank with, 0.1 Hz at 44100
    samples per second, the exponential variant's first value is below 0
    as well. *)
Lemma exponential_negative_at_program_rate :
  exists lp,
    init_lfo_q 0.1 44100 0 = Ok lp /\
    fst (Lfo.run_lfo (Lfo.set_lfo_type lp Lfo.EXP)) < 0.
Proof.
  destruct (init_lfo_q 0.1 44100 0) as [lp| |] eqn:E;
    [|vm_compute in E; discriminate..].
  exists lp. split; [reflexivity|].
  apply (exponential_first_value_negative M_PI_q M_E_q sin_q cos_q expf_q
           0.1 44100 0 lp).
  - reflexivity.
  - vm_compute. split; reflexivity.
  - exact E.
Qed.

(** ** The looper: [recordAdd], [playbackRead] *)

Lemma imod_nonneg (a b : Z) :
  (0 <= a)%Z -> (0 < b)%Z -> imod a b = Ok (a mod b)%Z.
Proof.
  intros Ha Hb. unfold imod.
  destruct (Z.eqb_spec b 0); [lia|].
  rewrite Z.rem_mod_nonneg by lia. reflexivity.
Qed.

Lemma recordAdd_ok (sample : Q) (s : Session) :
  looper_wf s ->
  recordAdd sample s =
    Ok (with_written s
          (<[Z.to_nat (gWritePointer s) :=
               nth (Z.to_nat (gWritePointer s)) (gAudioBuffer s) 0
               + sample * 0.75]> (gAudioBuffer s))
          ((gWritePointer s + 1) mod gBufferSize s)%Z).
Proof.
  intros (Hcap & Hlen & Hwp). unfold recordAdd.
  rewrite vec_get_ok by lia. cbn [bind].
  rewrite vec_set_ok by lia. cbn [bind].
  rewrite int_add_ok by (unfold INT_MIN; lia). cbn [bind].
  rewrite imod_nonneg by lia. reflexivity.
Qed.

Lemma recordAdd_wf (sample : Q) (s s' : Session) :
  looper_wf s -> recordAdd sample s = Ok s' ->
  looper_wf s' /\ gBufferSize s' = gBufferSize s.
Proof.
  intros Hwf H. rewrite recordAdd_ok in H by exact Hwf. injection H as <-.
  destruct Hwf as (Hcap & Hlen & Hwp).
  unfold looper_wf, with_written. cbn. rewrite length_insert.
  repeat split; try tauto; try lia; apply Z.mod_pos_bound; lia.
Qed.

(** Writes that stop short of slot [j] leave it alone. *)
Lemma recordAdds_keeps_slot (samples : list Q) :
  forall (s : Session) (j : Z),
  looper_wf s ->
  (0 <= j < gBufferSize s)%Z ->
  (Z.of_nat (length samples) <= (j - gWritePointer s) mod gBufferSize s)%Z ->
  exists s',
    recordAdds samples s = Ok s' /\
    looper_wf s' /\
    gBufferSize s' = gBufferSize s /\
    gWritePointer s'
    = ((gWritePointer s + Z.of_nat (length samples)) mod gBufferSize s)%Z /\
    nth (Z.to_nat j) (gAudioBuffer s') 0 = nth (Z.to_nat j) (gAudioBuffer s) 0.
Proof.
  induction samples as [|x rest IH]; intros s j Hwf Hj Hd;
    cbn [recordAdds length] in *.
  - exists s. destruct Hwf as (Hcap & Hlen & Hwp).
    repeat split; try tauto.
    rewrite Z.add_0_r, Z.mod_small by lia. reflexivity.
  - pose proof Hwf as (Hcap & Hlen & Hwp).
    rewrite recordAdd_ok by exact Hwf. cbn [bind].
    set (s1 := with_written s _ _).
    assert (Hwf1 : looper_wf s1 /\ gBufferSize s1 = gBufferSize s).
    { apply (recordAdd_wf x s s1 Hwf). apply recordAdd_ok. exact Hwf. }
    destruct Hwf1 as [Hwf1 Hb1].
    rewrite Nat2Z.inj_succ in Hd.
    assert (Hne : j <> gWritePointer s).
    { intros ->. rewrite Z.sub_diag, Z.mod_0_l in Hd by lia. lia. }
    assert (Hd1 : ((j - gWritePointer s1) mod gBufferSize s1
                   = (j - gWritePointer s) mod gBufferSize s - 1)%Z).
    { rewrite Hb1. unfold s1, with_written. cbn [gWritePointer].
      rewrite Zminus_mod_idemp_r.
      replace (j - (gWritePointer s + 1))%Z
        with ((j - gWritePointer s) - 1)%Z by lia.
      rewrite <- Zminus_mod_idemp_l.
      apply Z.mod_small.
      pose proof (Z.mod_pos_bound (j - gWritePointer s) (gBufferSize s)).
      lia. }
    destruct (IH s1 j Hwf1) as (s' & Hrun & Hwf' & Hb' & Hp' & Hslot);
      [lia | lia |].
    exists s'. split; [exact Hrun|]. split; [exact Hwf'|].
    split; [congruence|]. split.
    + rewrite Hp', Hb1. unfold s1, with_written. cbn [gWritePointer].
      rewrite Zplus_mod_idemp_l, Nat2Z.inj_succ. f_equal. lia.
    + rewrite Hslot. unfold s1, with_written. cbn [gAudioBuffer].
      rewrite !nth_lookup.
      rewrite list_lookup_insert_ne by lia. reflexivity.
Qed.

(** C7.  [recordAdd] stores, in the slot at the write cursor, what the slot
    held plus [sample * 0.75], advances the cursor by 1 modulo the capacity
    and changes nothing else.  Two calls with the same sample [c] that land
    on the same slot, with the [capacity - 1] writes of a full wrap between
    them, leave the slot's old value plus [2 * 0.75 * c] there: exactly
    [2 * 0.75 * c] when the slot was zero. *)
Theorem overdub_is_additive (s : Session) (c : Q) (between : list Q) :
  looper_wf s ->
  Z.of_nat (length between) = (gBufferSize s - 1)%Z ->
  let slot := Z.to_nat (gWritePointer s) in
  recordAdd c s =
    Ok (with_written s
          (<[slot := nth slot (gAudioBuffer s) 0 + c * 0.75]> (gAudioBuffer s))
          ((gWritePointer s + 1) mod gBufferSize s)%Z) /\
  exists s',
    (do s1 <- recordAdd c s;
     do s2 <- recordAdds between s1;
     recordAdd c s2) = Ok s' /\
    gWritePointer s' = ((gWritePointer s + 1) mod gBufferSize s)%Z /\
    nth slot (gAudioBuffer s') 0
    == nth slot (gAudioBuffer s) 0 + 2 * 0.75 * c /\
    (nth slot (gAudioBuffer s) 0 == 0 ->
     nth slot (gAudioBuffer s') 0 == 2 * 0.75 * c).
Proof.
  intros Hwf Hlen slot. pose proof Hwf as (Hcap & Hbuf & Hwp).
  split; [apply recordAdd_ok; exact Hwf|].
  rewrite recordAdd_ok by exact Hwf. cbn [bind].
  set (s1 := with_written s _ _).
  assert (H1 : looper_wf s1 /\ gBufferSize s1 = gBufferSize s).
  { apply (recordAdd_wf c s s1 Hwf). apply recordAdd_ok. exact Hwf. }
  destruct H1 as [Hwf1 Hb1].
  assert (Hp1 : gWritePointer s1 = ((gWritePointer s + 1) mod gBufferSize s)%Z)
    by reflexivity.
  destruct (recordAdds_keeps_slot between s1 (gWritePointer s) Hwf1)
    as (s2 & Hrun & Hwf2 & Hb2 & Hp2 & Hslot).
  { lia. }
  { rewrite Hb1, Hp1, Zminus_mod_idemp_r.
    replace (gWritePointer s - (gWritePointer s + 1))%Z with (-1)%Z by lia.
    destruct (Z.eq_dec (gBufferSize s) 1%Z) as [E|E].
    - rewrite E in *. change ((-1) mod 1)%Z with 0%Z. lia.
    - rewrite <- (Z.mod_unique (-1) (gBufferSize s) (-1) (gBufferSize s - 1))
        by lia.
      lia. }
  rewrite Hrun. cbn [bind].
  assert (Hback : gWritePointer s2 = gWritePointer s).
  { rewrite Hp2, Hb1, Hp1, Hlen, Zplus_mod_idemp_l.
    replace (gWritePointer s + 1 + (gBufferSize s - 1))%Z
      with (gWritePointer s + 1 * gBufferSize s)%Z by lia.
    rewrite Z.mod_add by lia. apply Z.mod_small. lia. }
  rewrite recordAdd_ok by exact Hwf2. eexists. split; [reflexivity|].
  destruct Hwf2 as (Hcap2 & Hbuf2 & Hwp2).
  unfold with_written. cbn [gWritePointer gAudioBuffer].
  rewrite Hback, Hb2, Hb1. split; [reflexivity|].
  fold slot in Hslot |- *.
  assert (Hval : nth slot (<[slot := nth slot (gAudioBuffer s2) 0 + c * 0.75]>
                             (gAudioBuffer s2)) 0
                 = nth slot (gAudioBuffer s) 0 + c * 0.75 + c * 0.75).
  { rewrite nth_lookup, list_lookup_insert_eq by (unfold slot; lia).
    cbn [default]. rewrite Hslot. unfold s1, with_written. cbn [gAudioBuffer].
    fold slot. rewrite nth_lookup, list_lookup_insert_eq by (unfold slot; lia).
    reflexivity. }
  rewrite Hval. split; [|intros H0; rewrite H0]; ring.
Qed.

Lemma overdub_is_additive_witness :
  let s := session_example in
  let slot := Z.to_nat (gWritePointer s) in
  recordAdd 1 s =
    Ok (with_written s
          (<[slot := nth slot (gAudioBuffer s) 0 + 1 * 0.75]> (gAudioBuffer s))
          ((gWritePointer s + 1) mod gBufferSize s)%Z) /\
  exists s',
    (do s1 <- recordAdd 1 s;
     do s2 <- recordAdds [0.5; 0.5; 0.5] s1;
     recordAdd 1 s2) = Ok s' /\
    gWritePointer s' = ((gWritePointer s + 1) mod gBufferSize s)%Z /\
    nth slot (gAudioBuffer s') 0
    == nth slot (gAudioBuffer s) 0 + 2 * 0.75 * 1 /\
    (nth slot (gAudioBuffer s) 0 == 0 ->
     nth slot (gAudioBuffer s') 0 == 2 * 0.75 * 1).
Proof.
  apply (overdub_is_additive session_example 1 [0.5; 0.5; 0.5]).
  - unfold looper_wf, INT_MAX. cbn. lia.
  - reflexivity.
Defined.

(** [playbackRead] on an index inside the buffer or at its end, at a speed
    of at most two slots per sample, for a capacity that a [float] holds
    exactly. *)
Lemma playbackRead_ok (s : Session) :
  looper_wf s ->
  (2 <= gBufferSize s <= 2 ^ 24 - 2)%Z ->
  0 <= readIndex s <= inject_Z (gBufferSize s) ->
  -2 <= gPlaybackSpeed s <= 2 ->
  let c := inject_Z (gBufferSize s) in
  let r1 := f32 (readIndex s + gPlaybackSpeed s) in
  exists r,
    playbackRead s =
      Ok (nth (Z.to_nat (Qfloor (readIndex s) mod gBufferSize s))
            (gAudioBuffer s) 0,
          with_readIndex s r) /\
    0 <= r <= c /\
    ((r1 < 0 /\ r = f32 (r1 + c)) \/
     (c <= r1 /\ r = f32 (r1 - c)) \/
     (0 <= r1 < c /\ r = r1)).
Proof.
  intros (Hcap & Hlen & Hwp) Hcap2 Hr Hspeed c r1.
  assert (Hc2 : 2 <= c).
  { unfold c. change 2 with (inject_Z 2). rewrite <- Zle_Qle. lia. }
  assert (Hi : (0 <= Qfloor (readIndex s) <= gBufferSize s)%Z).
  { split.
    - change 0%Z with (Qfloor (inject_Z 0)). apply Qfloor_resp_le. tauto.
    - rewrite <- (Qfloor_Z (gBufferSize s)). apply Qfloor_resp_le. tauto. }
  fold c in Hr.
  unfold playbackRead, float_to_int.
  rewrite Qtrunc_nonneg by tauto. unfold INT_MIN.
  destruct (Z.leb_spec (- 2 ^ 31) (Qfloor (readIndex s))); [|lia].
  destruct (Z.leb_spec (Qfloor (readIndex s)) INT_MAX); [|lia].
  cbn [andb bind]. rewrite imod_nonneg by lia. cbn [bind].
  assert (Hm : (0 <= Qfloor (readIndex s) mod gBufferSize s
                   < gBufferSize s)%Z) by (apply Z.mod_pos_bound; lia).
  rewrite vec_get_ok by lia. cbn [bind]. cbv zeta.
  rewrite float_of_int_exact by lia. fold c. fold r1.
  eexists. split; [reflexivity|].
  assert (E2 : inject_Z (gBufferSize s + 2) == c + 2).
  { rewrite inject_Z_plus. reflexivity. }
  assert (E3 : inject_Z (gBufferSize s - 2) == c - 2).
  { unfold Z.sub. rewrite inject_Z_plus. reflexivity. }
  assert (H1 : inject_Z (-2) <= r1 <= inject_Z (gBufferSize s + 2)).
  { apply f32_between; [lia | lia |].
    rewrite E2. change (inject_Z (-2)) with (-2). split; lra. }
  rewrite E2 in H1. change (inject_Z (-2)) with (-2) in H1.
  destruct (Qltb_reflect r1 0) as [Hneg|Hnn];
    [|destruct (Qleb_reflect c r1) as [Hge|Hlt]].
  - assert (H2 : inject_Z (gBufferSize s - 2) <= f32 (r1 + c)
                 <= inject_Z (gBufferSize s)).
    { apply f32_between; [lia | lia |]. rewrite E3. fold c. split; lra. }
    rewrite E3 in H2. fold c in H2.
    split; [split; lra|]. left. split; [exact Hneg | reflexivity].
  - assert (H2 : inject_Z 0 <= f32 (r1 - c) <= inject_Z 2).
    { apply f32_between; [lia | lia |].
      change (inject_Z 0) with 0. change (inject_Z 2) with 2. split; lra. }
    change (inject_Z 0) with 0 in H2. change (inject_Z 2) with 2 in H2.
    split; [split; lra|]. right. left. split; [exact Hge | reflexivity].
  - split; [split; lra|]. right. right. split; [split; lra | reflexivity].
Qed.




(** Nor is the index always moved by the speed: from slot 600000 on that
    buffer, playing forwards at the [float] nearest to 0.02 slots per
    sample, the sum rounds back to 600000, and the index stays where it
    was, frame after frame. *)
Lemma slow_playback_stays_put :
  let s := session_slow in
  0 < gPlaybackSpeed s <= 2 /\
  exists v s',
    playbackRead s = Ok (v, s') /\
    readIndex s' = readIndex s.
Proof.
  cbv zeta.
  assert (Hsp : 0 < gPlaybackSpeed session_slow <= 2).
  { unfold session_slow. cbn [gPlaybackSpeed]. vm_compute.
    split; [reflexivity | discriminate]. }
  split; [exact Hsp|].
  assert (Hwf : looper_wf session_slow).
  { unfold looper_wf, session_slow, vec_fill, INT_MAX.
    cbn [gBufferSize gAudioBuffer gWritePointer].
    rewrite length_replicate. lia. }
  destruct (playbackRead_ok session_slow Hwf) as (r & Hrun & _ & Hcase);
    [cbn; lia | split; discriminate | split; [|apply Hsp] |].
  { apply Qle_trans with 0; [discriminate | apply Qlt_le_weak, Hsp]. }
  assert (E1 : f32 (readIndex session_slow + gPlaybackSpeed session_slow)
               = inject_Z 600000).
  { unfold session_slow. cbn [readIndex gPlaybackSpeed].
    vm_compute. reflexivity. }
  rewrite E1 in Hcase.
  assert (Hr : r = inject_Z 600000).
  { unfold session_slow in Hcase. cbn [gBufferSize] in Hcase.
    destruct Hcase as [[H _] | [[H _] | [_ ->]]].
    - vm_compute in H. discriminate H.
    - vm_compute in H. exfalso. apply H. reflexivity.
    - reflexivity. }
  subst r. eexists _, _. split; [exact Hrun|]. reflexivity.
Qed.

(** ** The per-sample loop: the clear control *)

(** Inversion of a successful bind. *)
Lemma bind_Ok {A B : Type} (c : result A) (k : A -> result B) (b : B) :
  bind c k = Ok b -> exists a, c = Ok a /\ k a = Ok b.
Proof.
  destruct c as [a| |]; cbn [bind]; intros H; try discriminate.
  exists a. split; [reflexivity | exact H].
Qed.

(** The knob block leaves the looper, the transport and the buttons'
    memory alone. *)
Lemma control_tick_frame (n : Z) (f : Frame) (s s1 : Session) :
  control_tick n f s = Ok s1 ->
  gAudioBuffer s1 = gAudioBuffer s /\
  gBufferSize s1 = gBufferSize s /\
  gWritePointer s1 = gWritePointer s /\
  gReadPointer s1 = gReadPointer s /\
  readIndex s1 = readIndex s /\
  gRecording s1 = gRecording s /\
  gPlaying s1 = gPlaying s /\
  gClearedOnce s1 = gClearedOnce s /\
  localLastButtonState s1 = localLastButtonState s /\
  localLastClearButtonState s1 = localLastClearButtonState s /\
  ledPin s1 = ledPin s.
Proof.
  unfold control_tick. cbv zeta.
  destruct (negb _ && _)%bool.
  - destruct (Lfo.run_lfo (gLFO s)) as [lfoVal lp].
    intros H. apply bind_Ok in H as (d & _ & H). injection H as <-.
    repeat split.
  - intros H. injection H as <-. repeat split.
Qed.

(** (A) leaves the looper, the guard and the clear control's memory alone. *)
Lemma record_play_toggle_frame (f : Frame) (s : Session) :
  let s1 := record_play_toggle f s in
  gAudioBuffer s1 = gAudioBuffer s /\
  gBufferSize s1 = gBufferSize s /\
  gWritePointer s1 = gWritePointer s /\
  gReadPointer s1 = gReadPointer s /\
  readIndex s1 = readIndex s /\
  gClearedOnce s1 = gClearedOnce s /\
  localLastClearButtonState s1 = localLastClearButtonState s.
Proof.
  unfold record_play_toggle.
  destruct (_ && _)%bool; [destruct (gRecording s)|]; repeat split.
Qed.

(** (B) when the clear branch runs. *)
Lemma clear_buffer_fires (f : Frame) (s : Session) :
  clear_fires s f = true ->
  clear_buffer f s = with_lastClearButton (clear s) 1.
Proof.
  unfold clear_fires, clear_buffer. intros H.
  apply andb_prop in H as [H Hg]. rewrite H, Hg.
  apply andb_prop in H as [Hc Hl].
  apply Z.eqb_eq in Hc. rewrite Hc. reflexivity.
Qed.

(** (B) when it does not: the looper and the transport are untouched, and
    the guard is reset exactly when the control is seen released after
    having been down. *)
Lemma clear_buffer_quiet (f : Frame) (s : Session) :
  clear_fires s f = false ->
  let s1 := clear_buffer f s in
  gAudioBuffer s1 = gAudioBuffer s /\
  gBufferSize s1 = gBufferSize s /\
  gWritePointer s1 = gWritePointer s /\
  gReadPointer s1 = gReadPointer s /\
  readIndex s1 = readIndex s /\
  gRecording s1 = gRecording s /\
  gPlaying s1 = gPlaying s /\
  ledPin s1 = ledPin s /\
  localLastClearButtonState s1 = clearButtonState f /\
  gClearedOnce s1 =
    (if (clearButtonState f =? 0)%Z && (localLastClearButtonState s =? 1)%Z
     then false else gClearedOnce s).
Proof.
  unfold clear_fires, clear_buffer. intros H. cbv zeta.
  destruct ((clearButtonState f =? 1)%Z && (localLastClearButtonState s =? 0)%Z)
    eqn:E1; cbn [andb] in H.
  - rewrite H.
    destruct ((clearButtonState f =? 0)%Z && (localLastClearButtonState s =? 1)%Z);
      repeat split.
  - destruct ((clearButtonState f =? 0)%Z && (localLastClearButtonState s =? 1)%Z);
      repeat split.
Qed.

(** Processing leaves the transport, the guard, the LED and the buttons'
    memory alone. *)
Lemma process_frame (fuel : nat) (f : Frame) (s s' : Session) (out : Q) :
  process fuel f s = Ok (out, s') ->
  gBufferSize s' = gBufferSize s /\
  gReadPointer s' = gReadPointer s /\
  gRecording s' = gRecording s /\
  gPlaying s' = gPlaying s /\
  gClearedOnce s' = gClearedOnce s /\
  localLastButtonState s' = localLastButtonState s /\
  localLastClearButtonState s' = localLastClearButtonState s /\
  ledPin s' = ledPin s.
Proof.
  unfold process. cbv zeta. intros H.
  apply bind_Ok in H as ([o1 s1] & H1 & H2).
  assert (F1 : gBufferSize s1 = gBufferSize s /\
               gReadPointer s1 = gReadPointer s /\
               gRecording s1 = gRecording s /\
               gPlaying s1 = gPlaying s /\
               gClearedOnce s1 = gClearedOnce s /\
               localLastButtonState s1 = localLastButtonState s /\
               localLastClearButtonState s1 = localLastClearButtonState s /\
               ledPin s1 = ledPin s).
  { destruct (gRecording s) eqn:Er.
    - apply bind_Ok in H1 as ([p d] & _ & H1).
      apply bind_Ok in H1 as (s2 & H1 & H3). injection H3 as _ <-.
      unfold recordAdd in H1.
      repeat (apply bind_Ok in H1 as (? & _ & H1)).
      injection H1 as <-. cbn. rewrite Er. repeat split.
    - injection H1 as _ <-. rewrite Er. repeat split. }
  destruct (gPlaying s1) eqn:Ep.
  - apply bind_Ok in H2 as ([p s2] & H2 & H3). injection H3 as _ <-.
    unfold playbackRead in H2.
    repeat (apply bind_Ok in H2 as (? & _ & H2)).
    injection H2 as _ <-. unfold with_readIndex. cbn.
    intuition congruence.
  - injection H2 as _ <-. intuition congruence.
Qed.

(** With the transport stopped, processing is silent and changes nothing. *)
Lemma process_stopped (fuel : nat) (f : Frame) (s : Session) :
  gRecording s = false -> gPlaying s = false ->
  process fuel f s = Ok (0, s).
Proof.
  intros Hr Hp. unfold process. rewrite Hr. cbn [bind]. rewrite Hp.
  reflexivity.
Qed.

Lemma render_frame_stages (fuel : nat) (n : Z) (f : Frame) (s s' : Session)
    (out : Q) :
  render_frame fuel n f s = Ok (out, s') ->
  exists s1,
    control_tick n f s = Ok s1 /\
    process fuel f (clear_buffer f (record_play_toggle f s1)) = Ok (out, s').
Proof.
  unfold render_frame. intros H. apply bind_Ok in H as (s1 & H1 & H2).
  exists s1. split; assumption.
Qed.

(** Whether the clear branch runs is decided by the state the frame starts
    in: the stages before it do not touch what it tests. *)
Lemma clear_fires_stages (n : Z) (f : Frame) (s s1 : Session) :
  control_tick n f s = Ok s1 ->
  clear_fires (record_play_toggle f s1) f = clear_fires s f.
Proof.
  intros H. apply control_tick_frame in H.
  pose proof (record_play_toggle_frame f s1) as H1. cbv zeta in H1.
  unfold clear_fires.
  replace (localLastClearButtonState (record_play_toggle f s1))
    with (localLastClearButtonState s) by (symmetry; intuition congruence).
  replace (gClearedOnce (record_play_toggle f s1))
    with (gClearedOnce s) by (symmetry; intuition congruence).
  reflexivity.
Qed.

(** A frame in which the clear branch runs. *)
Lemma render_frame_clears (fuel : nat) (n : Z) (f : Frame) (s s1 : Session) :
  clear_fires s f = true ->
  control_tick n f s = Ok s1 ->
  render_frame fuel n f s =
    Ok (0, with_lastClearButton (clear (record_play_toggle f s1)) 1).
Proof.
  intros Hf Hc. unfold render_frame. rewrite Hc. cbn [bind].
  rewrite clear_buffer_fires
    by (rewrite (clear_fires_stages n f s s1 Hc); exact Hf).
  apply process_stopped; reflexivity.
Qed.

(** The guard and the control's memory after a frame in which the clear
    branch does not run. *)
Lemma render_frame_quiet (fuel : nat) (n : Z) (f : Frame) (s s' : Session)
    (out : Q) :
  clear_fires s f = false ->
  render_frame fuel n f s = Ok (out, s') ->
  localLastClearButtonState s' = clearButtonState f /\
  gClearedOnce s' =
    (if (clearButtonState f =? 0)%Z && (localLastClearButtonState s =? 1)%Z
     then false else gClearedOnce s).
Proof.
  intros Hf H. apply render_frame_stages in H as (s1 & Hc & Hp).
  pose proof (clear_fires_stages n f s s1 Hc) as Hst. rewrite Hf in Hst.
  pose proof (clear_buffer_quiet f _ Hst) as Hq. cbv zeta in Hq.
  apply process_frame in Hp.
  apply control_tick_frame in Hc.
  pose proof (record_play_toggle_frame f s1) as Ht. cbv zeta in Ht.
  split; [intuition congruence|].
  replace (gClearedOnce s')
    with (gClearedOnce (clear_buffer f (record_play_toggle f s1)))
    by (symmetry; intuition congruence).
  replace (localLastClearButtonState s)
    with (localLastClearButtonState (record_play_toggle f s1))
    by intuition congruence.
  replace (gClearedOnce s) with (gClearedOnce (record_play_toggle f s1))
    by intuition congruence.
  tauto.
Qed.

Lemma setDelayTime_defined (d : DelayEffect) (t : Q) :
  (0 <= sampleRate d < 2 ^ 31 - 64)%Z -> 0 <= t <= 2 ->
  exists d', setDelayTime d t = Ok d'.
Proof.
  intros Hsr Ht. unfold setDelayTime.
  pose proof (delay_product_range (sampleRate d) t Hsr Ht) as [H0 H1].
  assert (H2 : inject_Z (2 ^ 32 - 256) < inject_Z (2 ^ 32)) by reflexivity.
  destruct (float_to_uint_ok (f32 (t * float_of_int (sampleRate d))))
    as [-> _]; [split; lra|].
  cbn [bind]. eexists. reflexivity.
Qed.

(** The knob block runs whatever the knobs read, for any sample rate below
    2^31 - 64: the delay time it hands to [setDelayTime] is between 0.01
    and 2 seconds, and the product with the rate, as a [float], stays below
    2^32. *)
Lemma control_tick_defined (n : Z) (f : Frame) (s : Session) :
  (0 <= sampleRate (delayEffect s) < 2 ^ 31 - 64)%Z ->
  exists s1, control_tick n f s = Ok s1.
Proof.
  intros Hsr. unfold control_tick. cbv zeta.
  destruct (negb _ && _)%bool; [|eexists; reflexivity].
  destruct (Lfo.run_lfo (gLFO s)) as [lfoVal lp].
  match goal with
  | |- context [setDelayTime ?d ?t] =>
      destruct (setDelayTime_defined d t) as [d' ->]
  end.
  - exact Hsr.
  - match goal with
    | |- context [if ?t <? 0.01 then _ else _] =>
        destruct (Qltb_reflect t 0.01)
    end;
    match goal with
    | |- context [if ?t >? 2 then _ else _] => destruct (Qltb_reflect 2 t)
    end; lra.
  - cbn [bind]. eexists. reflexivity.
Qed.

(** C10.  In a frame where the clear control's rising edge fires with the
    guard not set, the handler zeroes the looper buffer and resets both
    cursors and the playback index, and it also sets the recording and
    playing flags to false and drives the LED low; the frame then processes
    nothing and puts out silence. *)
Theorem clear_stops_transport (fuel : nat) (n : Z) (f : Frame) (s : Session) :
  clear_fires s f = true ->
  (0 <= sampleRate (delayEffect s) < 2 ^ 31 - 64)%Z ->
  exists s',
    render_frame fuel n f s = Ok (0, s') /\
    gRecording s' = false /\
    gPlaying s' = false /\
    ledPin s' = LOW /\
    cleared (length (gAudioBuffer s)) s' /\
    gClearedOnce s' = true.
Proof.
  intros Hf Hsr. destruct (control_tick_defined n f s Hsr) as [s1 Hc].
  rewrite (render_frame_clears fuel n f s s1 Hf Hc).
  eexists. split; [reflexivity|].
  pose proof (control_tick_frame n f s s1 Hc) as Hk.
  pose proof (record_play_toggle_frame f s1) as Ht. cbv zeta in Ht.
  assert (Hb : gAudioBuffer (record_play_toggle f s1) = gAudioBuffer s)
    by intuition congruence.
  unfold cleared, clear, with_lastClearButton.
  cbn [gRecording gPlaying ledPin gAudioBuffer gWritePointer gReadPointer
       readIndex gClearedOnce].
  rewrite Hb. repeat split.
Qed.

Lemma clear_stops_transport_witness :
  exists s',
    render_frame 1 0 frame_clear_and_record session_example = Ok (0, s') /\
    gRecording s' = false /\
    gPlaying s' = false /\
    ledPin s' = LOW /\
    cleared (length (gAudioBuffer session_example)) s' /\
    gClearedOnce s' = true.
Proof.
  apply (clear_stops_transport 1 0 frame_clear_and_record session_example).
  - reflexivity.
  - cbn. lia.
Defined.

(** Runs over a list of frames split in two. *)
Lemma render_from_app (fuel : nat) (a b : list Frame) :
  forall (n : Z) (s s' : Session) (outs : list Q),
  render_from fuel n (a ++ b) s = Ok (outs, s') ->
  exists oa sa ob,
    render_from fuel n a s = Ok (oa, sa) /\
    render_from fuel (n + Z.of_nat (length a)) b sa = Ok (ob, s') /\
    outs = oa ++ ob.
Proof.
  induction a as [|f a IH]; intros n s s' outs H.
  - cbn [app length render_from] in *. exists [], s, outs.
    rewrite Z.add_0_r. repeat split. exact H.
  - cbn [app render_from] in H.
    apply bind_Ok in H as ([o s1] & Hf & H).
    apply bind_Ok in H as ([os s2] & Hr & H). injection H as <- <-.
    destruct (IH _ _ _ _ Hr) as (oa & sa & ob & Ha & Hb & ->).
    exists (o :: oa), sa, ob. cbn [render_from length].
    rewrite Hf. cbn [bind]. rewrite Ha. cbn [bind].
    rewrite Nat2Z.inj_succ.
    replace (n + Z.succ (Z.of_nat (length a)))%Z
      with (n + 1 + Z.of_nat (length a))%Z by lia.
    repeat split. exact Hb.
Qed.

Lemma clear_trace_app (fuel : nat) (a b : list Frame) :
  forall (n : Z) (s sa : Session) (oa : list Q) (ta tb : list bool),
  render_from fuel n a s = Ok (oa, sa) ->
  clear_trace fuel n a s = Ok ta ->
  clear_trace fuel (n + Z.of_nat (length a)) b sa = Ok tb ->
  clear_trace fuel n (a ++ b) s = Ok (ta ++ tb).
Proof.
  induction a as [|f a IH]; intros n s sa oa ta tb Hr Ha Hb.
  - cbn [app length render_from clear_trace] in *.
    injection Hr as _ <-. injection Ha as <-.
    rewrite Z.add_0_r in Hb. exact Hb.
  - cbn [app render_from clear_trace length] in *.
    apply bind_Ok in Hr as ([o s1] & Hf & Hr).
    apply bind_Ok in Hr as ([os s2] & Hr & Hs). injection Hs as _ <-.
    rewrite Hf in *. cbn [bind] in *.
    apply bind_Ok in Ha as (t1 & Ha & Ht). injection Ht as <-.
    rewrite Nat2Z.inj_succ in Hb.
    replace (n + Z.succ (Z.of_nat (length a)))%Z
      with (n + 1 + Z.of_nat (length a))%Z in Hb by lia.
    rewrite (IH _ _ _ _ _ _ Hr Ha Hb). reflexivity.
Qed.

(** While the control stays down after a clear, the clear branch does not
    run and the guard stays set. *)
Lemma hold_never_clears (fuel : nat) (hold : list Frame) :
  forall (n : Z) (s s' : Session) (outs : list Q),
  Forall (fun f => clearButtonState f = 1%Z) hold ->
  localLastClearButtonState s = 1%Z ->
  gClearedOnce s = true ->
  render_from fuel n hold s = Ok (outs, s') ->
  clear_trace fuel n hold s = Ok (replicate (length hold) false) /\
  localLastClearButtonState s' = 1%Z /\
  gClearedOnce s' = true.
Proof.
  induction hold as [|f hold IH]; intros n s s' outs Hheld Hlast Hguard Hrun.
  - cbn [render_from clear_trace length replicate] in *.
    injection Hrun as _ <-. repeat split; assumption.
  - apply Forall_cons in Hheld as [Hf Hheld].
    cbn [render_from clear_trace length replicate] in *.
    apply bind_Ok in Hrun as ([o s1] & Hframe & Hrun).
    apply bind_Ok in Hrun as ([os s2] & Hrun & Hs). injection Hs as _ <-.
    assert (Hquiet : clear_fires s f = false).
    { unfold clear_fires. rewrite Hlast, Hguard. apply andb_false_r. }
    destruct (render_frame_quiet fuel n f s s1 o Hquiet Hframe) as [Hl1 Hg1].
    rewrite Hf in Hl1, Hg1. cbn in Hg1.
    destruct (IH (n + 1)%Z s1 s2 os Hheld Hl1 (eq_trans Hg1 Hguard) Hrun)
      as (Ht & Hl2 & Hg2).
    rewrite Hframe. cbn [bind]. rewrite Ht. cbn [bind]. rewrite Hquiet.
    repeat split; assumption.
Qed.

(** Where the clear branch does not run, (B) does what is left of it with
    the branch taken out, and so does the frame. *)
Lemma clear_buffer_inert_eq (f : Frame) (s : Session) :
  clear_fires s f = false -> clear_buffer f s = clear_buffer_inert f s.
Proof.
  unfold clear_fires, clear_buffer, clear_buffer_inert. intros H. cbv zeta.
  destruct ((clearButtonState f =? 1)%Z && (localLastClearButtonState s =? 0)%Z);
    [|reflexivity].
  cbn [andb] in H. rewrite H. reflexivity.
Qed.

Lemma render_frame_inert_eq (fuel : nat) (n : Z) (f : Frame) (s : Session) :
  clear_fires s f = false ->
  render_frame fuel n f s = render_frame_inert fuel n f s.
Proof.
  intros Hq. unfold render_frame, render_frame_inert.
  destruct (control_tick n f s) as [s1| |] eqn:Hc; cbn [bind];
    try reflexivity.
  rewrite clear_buffer_inert_eq; [reflexivity|].
  rewrite (clear_fires_stages n f s s1 Hc). exact Hq.
Qed.

(** While the control stays down, the loop runs as it would with the clear
    branch taken out: same samples, same state. *)
Lemma hold_runs_inert (fuel : nat) (hold : list Frame) :
  forall (n : Z) (s s' : Session) (outs : list Q),
  Forall (fun f => clearButtonState f = 1%Z) hold ->
  localLastClearButtonState s = 1%Z ->
  render_from fuel n hold s = Ok (outs, s') ->
  render_from_inert fuel n hold s = Ok (outs, s').
Proof.
  induction hold as [|f hold IH]; intros n s s' outs Hheld Hlast Hrun.
  - exact Hrun.
  - apply Forall_cons in Hheld as [Hf Hheld].
    cbn [render_from render_from_inert] in *.
    apply bind_Ok in Hrun as ([o s1] & Hframe & Hrun).
    apply bind_Ok in Hrun as ([os s2] & Hrun & Hs). injection Hs as <- <-.
    assert (Hquiet : clear_fires s f = false).
    { unfold clear_fires. rewrite Hlast. cbn. rewrite andb_false_r.
      reflexivity. }
    destruct (render_frame_quiet fuel n f s s1 o Hquiet Hframe) as [Hl1 _].
    rewrite Hf in Hl1.
    rewrite <- (render_frame_inert_eq fuel n f s Hquiet), Hframe. cbn [bind].
    rewrite (IH (n + 1)%Z s1 s2 os Hheld Hl1 Hrun). reflexivity.
Qed.

(** A frame that starts with the control up and the guard not set, and
    finds the control down, clears. *)
Lemma press_clears (fuel : nat) (n : Z) (f : Frame) (s s' : Session) (out : Q) :
  localLastClearButtonState s = 0%Z ->
  gClearedOnce s = false ->
  clearButtonState f = 1%Z ->
  render_frame fuel n f s = Ok (out, s') ->
  clear_fires s f = true /\
  cleared (length (gAudioBuffer s)) s' /\
  length (gAudioBuffer s') = length (gAudioBuffer s) /\
  localLastClearButtonState s' = 1%Z /\
  gClearedOnce s' = true.
Proof.
  intros Hlast Hguard Hf Hframe.
  assert (Hfire : clear_fires s f = true).
  { unfold clear_fires. rewrite Hlast, Hguard, Hf. reflexivity. }
  split; [exact Hfire|].
  pose proof Hframe as Hst. apply render_frame_stages in Hst as (s1 & Hc & _).
  rewrite (render_frame_clears fuel n f s s1 Hfire Hc) in Hframe.
  injection Hframe as _ <-.
  pose proof (control_tick_frame n f s s1 Hc) as Hk.
  pose proof (record_play_toggle_frame f s1) as Ht. cbv zeta in Ht.
  assert (Hb : gAudioBuffer (record_play_toggle f s1) = gAudioBuffer s)
    by intuition congruence.
  unfold cleared, clear, with_lastClearButton.
  cbn [gAudioBuffer gWritePointer gReadPointer readIndex gClearedOnce
       localLastClearButtonState].
  rewrite Hb. unfold vec_fill. rewrite length_replicate. repeat split.
Qed.

(** A press of the clear control, frames with it held down, its release and
    a new press, in a run that starts with the control up and the guard not
    set. *)
Lemma press_hold_release_press
    (fuel : nat) (n : Z) (s s_end : Session)
    (press release press2 : Frame) (hold : list Frame) (outs : list Q) :
  localLastClearButtonState s = 0%Z ->
  gClearedOnce s = false ->
  clearButtonState press = 1%Z ->
  Forall (fun f => clearButtonState f = 1%Z) hold ->
  clearButtonState release = 0%Z ->
  clearButtonState press2 = 1%Z ->
  render_from fuel n (press :: hold ++ [release; press2]) s = Ok (outs, s_end) ->
  clear_trace fuel n (press :: hold ++ [release; press2]) s
  = Ok (true :: replicate (length hold) false ++ [false; true]) /\
  (exists o1 s1 os s2 o3 s3 o4,
     render_frame fuel n press s = Ok (o1, s1) /\
     cleared (length (gAudioBuffer s)) s1 /\
     gClearedOnce s1 = true /\
     render_from fuel (n + 1) hold s1 = Ok (os, s2) /\
     render_from_inert fuel (n + 1) hold s1 = Ok (os, s2) /\
     gClearedOnce s2 = true /\
     render_frame fuel (n + 1 + Z.of_nat (length hold)) release s2
     = Ok (o3, s3) /\
     gClearedOnce s3 = false /\
     render_frame fuel (n + 1 + Z.of_nat (length hold) + 1) press2 s3
     = Ok (o4, s_end) /\
     clear_fires s3 press2 = true) /\
  cleared (length (gAudioBuffer s_end)) s_end /\
  gClearedOnce s_end = true.
Proof.
  intros Hlast Hguard Hpress Hheld Hrel Hpress2 Hrun.
  cbn [render_from] in Hrun.
  apply bind_Ok in Hrun as ([o1 s1] & Hf1 & Hrun).
  apply bind_Ok in Hrun as ([os' s'] & Hrest & Hs). injection Hs as _ ->.
  destruct (press_clears fuel n press s s1 o1 Hlast Hguard Hpress Hf1)
    as (Hfire1 & Hcl1 & Hlen1 & Hl1 & Hg1).
  apply render_from_app in Hrest as (os & s2 & otail & Hhold & Htail & _).
  destruct (hold_never_clears fuel hold (n + 1)%Z s1 s2 os Hheld Hl1 Hg1 Hhold)
    as (Htr2 & Hl2 & Hg2).
  cbn [render_from] in Htail.
  apply bind_Ok in Htail as ([o3 s3] & Hf3 & Htail).
  apply bind_Ok in Htail as ([o4s s4] & Hf4 & Hs). injection Hs as _ ->.
  apply bind_Ok in Hf4 as ([o4 s5] & Hf4 & Hs). injection Hs as _ ->.
  assert (Hquiet3 : clear_fires s2 release = false).
  { unfold clear_fires. rewrite Hrel. reflexivity. }
  destruct (render_frame_quiet fuel _ release s2 s3 o3 Hquiet3 Hf3)
    as [Hl3 Hg3].
  rewrite Hrel, Hl2 in Hg3. cbn in Hg3. rewrite Hrel in Hl3.
  destruct (press_clears fuel _ press2 s3 s_end o4 Hl3 Hg3 Hpress2 Hf4)
    as (Hfire4 & Hcl4 & Hlen4 & Hl4 & Hg4).
  split; [|split].
  - cbn [clear_trace]. rewrite Hf1. cbn [bind].
    rewrite (clear_trace_app fuel hold [release; press2] (n + 1)%Z s1 s2 os
               (replicate (length hold) false) [false; true] Hhold Htr2).
    + cbn [bind]. rewrite Hfire1. reflexivity.
    + cbn [clear_trace]. rewrite Hf3. cbn [bind]. rewrite Hf4. cbn [bind].
      rewrite Hquiet3, Hfire4. reflexivity.
  - pose proof (hold_runs_inert fuel hold (n + 1)%Z s1 s2 os Hheld Hl1 Hhold)
      as Hinert.
    exists o1, s1, os, s2, o3, s3, o4.
    repeat (split; [assumption|]). assumption.
  - rewrite <- Hlen4 in Hcl4. split; assumption.
Qed.


(** ** The per-sample loop never leaves defined behaviour *)

Lemma setMix_ok (d : DelayEffect) (m : Q) : delay_ok d -> delay_ok (setMix d m).
Proof. intros H. exact H. Qed.

Lemma setFeedback_ok (d : DelayEffect) (g : Q) :
  delay_ok d -> delay_ok (setFeedback d g).
Proof. intros H. exact H. Qed.

Lemma setDelayTime_keeps_ok (d : DelayEffect) (t : Q) :
  delay_knob_ok d -> 0 <= t <= 2 ->
  exists d', setDelayTime d t = Ok d' /\ delay_knob_ok d'.
Proof.
  intros ((Hwf & Hsr & Hc & Ht & Hf) & Hsr' & Hsz) Hrange.
  assert (Hsr2 : (0 <= sampleRate d < 2 ^ 31 - 64)%Z) by lia.
  pose proof (delay_product_range (sampleRate d) t Hsr2 Hrange) as [H0 H1].
  assert (H2 : inject_Z (2 ^ 32 - 256) < inject_Z (2 ^ 32)) by reflexivity.
  destruct (setDelayTime_ok d t) as [Hset Hmin].
  { apply Hwf. }
  { split; lra. }
  eexists. split; [exact Hset|].
  rewrite float_of_int_exact by lia.
  unfold delay_knob_ok, delay_ok, with_target, delay_wf in *. cbn.
  repeat split; try tauto; try lia.
  - change 0 with (inject_Z 0). rewrite <- Zle_Qle. lia.
  - rewrite <- Zle_Qle. lia.
Qed.

Lemma setMix_knob_ok (d : DelayEffect) (m : Q) :
  delay_knob_ok d -> delay_knob_ok (setMix d m).
Proof. intros H. exact H. Qed.

Lemma setFeedback_knob_ok (d : DelayEffect) (g : Q) :
  delay_knob_ok d -> delay_knob_ok (setFeedback d g).
Proof. intros H. exact H. Qed.

(** Within [delay_ok] one unit of fuel is enough for the wrap loops. *)
Lemma delay_ok_fuel (d : DelayEffect) : delay_ok d -> (fuel_needed d <= 1)%nat.
Proof.
  intros (Hwf & _ & Hc & Ht & Hf). destruct Hwf as (Hcap & _ & Hwp).
  unfold fuel_needed, smoothed_delay.
  set (c := currentDelayTimeInSamples d) in *.
  set (t := targetDelayTimeInSamples d) in *.
  set (k := timeSmoothingFactor d) in *.
  assert (Hm : inject_Z (bufferSize d - 1) == inject_Z (bufferSize d) - 1)
    by apply inject_Z_pred.
  assert (Hw0 : 0 <= inject_Z (writePointer d)).
  { change 0 with (inject_Z 0). rewrite <- Zle_Qle. lia. }
  assert (Hw1 : inject_Z (writePointer d) <= inject_Z (bufferSize d - 1)).
  { rewrite <- Zle_Qle. lia. }
  assert (Hb : 1 <= inject_Z (bufferSize d)).
  { change 1 with (inject_Z 1). rewrite <- Zle_Qle. lia. }
  set (w := inject_Z (writePointer d)) in *.
  set (b := inject_Z (bufferSize d)) in *.
  set (m := inject_Z (bufferSize d - 1)) in *.
  clearbody c t k w b m.
  assert (Hs : 0 <= c + k * (t - c) <= m) by (split; nra).
  assert (Habs : Qabs (w - (c + k * (t - c))) <= b).
  { apply Qabs_Qle_condition. split; lra. }
  assert (Hq : Qabs (w - (c + k * (t - c))) / b <= 1).
  { apply Qle_shift_div_r; lra. }
  apply Qceiling_resp_le in Hq. change (Qceiling 1) with 1%Z in Hq. lia.
Qed.

Lemma processSample_keeps_ok (fuel : nat) (d : DelayEffect) (input : Q) :
  delay_ok d -> (1 <= fuel)%nat ->
  exists out d', processSample fuel d input = Ok (out, d') /\ delay_ok d'.
Proof.
  intros Hok Hfuel. pose proof (delay_ok_fuel d Hok) as Hn.
  destruct Hok as (Hwf & Hsr & Hc & Ht & Hf).
  destruct (processSample_ok d input fuel Hwf) as (pos & _ & _ & _ & _ & Hrun);
    [lia|].
  cbv zeta in Hrun. eexists _, _. split; [exact Hrun|].
  destruct (processSample_wf fuel d _ input _ Hwf Hrun) as [Hwf' Hb'].
  unfold delay_ok. split; [exact Hwf'|].
  unfold with_processed in *. cbn in *. unfold smoothed_delay.
  set (c := currentDelayTimeInSamples d) in *.
  set (t := targetDelayTimeInSamples d) in *.
  set (k := timeSmoothingFactor d) in *.
  set (m := inject_Z (bufferSize d - 1)) in *.
  clearbody c t k m.
  repeat split; try tauto; nra.
Qed.

Lemma processSample_keeps_knob_ok (fuel : nat) (d : DelayEffect) (input : Q) :
  delay_knob_ok d -> (1 <= fuel)%nat ->
  exists out d', processSample fuel d input = Ok (out, d') /\ delay_knob_ok d'.
Proof.
  intros (Hok & Hsr & Hsz) Hfuel.
  destruct (processSample_keeps_ok fuel d input Hok Hfuel)
    as (out & d' & Hrun & Hok').
  exists out, d'. split; [exact Hrun|].
  destruct (processSample_wf fuel d d' input out (proj1 Hok) Hrun) as [_ Hb].
  assert (Hs : sampleRate d' = sampleRate d).
  { unfold processSample in Hrun. cbv zeta in Hrun.
    repeat (apply bind_Ok in Hrun as (? & _ & Hrun)).
    injection Hrun as _ <-. reflexivity. }
  unfold delay_knob_ok. rewrite Hs, Hb. tauto.
Qed.

Lemma control_tick_keeps_ok (n : Z) (f : Frame) (s : Session) :
  session_ok s -> frame_ok f ->
  exists s1, control_tick n f s = Ok s1 /\ session_ok s1.
Proof.
  intros Hok Hf. pose proof Hok as (Hd & Hl & Hc2 & Hr & Hsp).
  unfold control_tick. cbv zeta.
  destruct (negb _ && _)%bool.
  2:{ exists s. split; [reflexivity | exact Hok]. }
  destruct (Lfo.run_lfo (gLFO s)) as [lfoVal lp].
  match goal with
  | |- context [setDelayTime ?d ?t] =>
      destruct (setDelayTime_keeps_ok d t) as (d' & -> & Hd')
  end.
  - apply setFeedback_knob_ok, setMix_knob_ok. exact Hd.
  - match goal with
    | |- context [if ?t <? 0.01 then _ else _] =>
        destruct (Qltb_reflect t 0.01)
    end;
    match goal with
    | |- context [if ?t >? 2 then _ else _] => destruct (Qltb_reflect 2 t)
    end; lra.
  - cbn [bind]. eexists. split; [reflexivity|].
    unfold session_ok, looper_wf, with_control in *.
    cbn [delayEffect gAudioBuffer gBufferSize gWritePointer readIndex
         gPlaybackSpeed].
    unfold frame_ok in Hf. split; [exact Hd'|].
    repeat split; try tauto; lra.
Qed.

Lemma record_play_toggle_keeps_ok (f : Frame) (s : Session) :
  session_ok s -> session_ok (record_play_toggle f s).
Proof.
  intros H. unfold record_play_toggle.
  destruct (_ && _)%bool; [destruct (gRecording s)|]; exact H.
Qed.

Lemma clear_keeps_ok (s : Session) : session_ok s -> session_ok (clear s).
Proof.
  intros (Hd & (Hcap & Hlen & Hwp) & Hc2 & Hr & Hsp).
  unfold session_ok, looper_wf, clear, vec_fill.
  cbn [delayEffect gAudioBuffer gBufferSize gWritePointer readIndex
       gPlaybackSpeed].
  rewrite length_replicate.
  split; [exact Hd|]. split; [repeat split; try tauto; lia|].
  split; [exact Hc2|]. split; [lra | exact Hsp].
Qed.

Lemma clear_buffer_keeps_ok (f : Frame) (s : Session) :
  session_ok s -> session_ok (clear_buffer f s).
Proof.
  intros H. pose proof (clear_keeps_ok s H) as Hc.
  assert (Hg : forall s0 b, session_ok s0 -> session_ok (with_clearedOnce s0 b))
    by (intros s0 b H0; exact H0).
  assert (Hl : forall s0 b, session_ok s0 -> session_ok (with_lastClearButton s0 b))
    by (intros s0 b H0; exact H0).
  unfold clear_buffer. cbv zeta. apply Hl.
  repeat match goal with
    | |- context [if ?c then _ else _] => destruct c
    end; try apply Hg; assumption.
Qed.

Lemma process_keeps_ok (fuel : nat) (f : Frame) (s : Session) :
  session_ok s -> (1 <= fuel)%nat ->
  exists out s', process fuel f s = Ok (out, s') /\ session_ok s'.
Proof.
  intros Hok Hfuel. unfold process. cbv zeta.
  assert (H1 : exists o1 s1,
             (if gRecording s
              then
                do '(processedIn, d) <-
                  processSample fuel (delayEffect s) (audioIn f);
                do s0 <- recordAdd processedIn (with_delayEffect s d);
                Ok (0 + processedIn, s0)
              else Ok (0, s)) = Ok (o1, s1) /\ session_ok s1).
  { destruct (gRecording s).
    - destruct Hok as (Hd & Hl & Hc2 & Hr & Hsp).
      destruct (processSample_keeps_knob_ok fuel (delayEffect s) (audioIn f)
                  Hd Hfuel) as (p & d' & -> & Hd').
      cbn [bind].
      assert (Hl' : looper_wf (with_delayEffect s d')) by exact Hl.
      rewrite recordAdd_ok by exact Hl'. cbn [bind].
      eexists _, _. split; [reflexivity|].
      destruct Hl as (Hcap & Hlen & Hwp).
      unfold session_ok, looper_wf, with_written, with_delayEffect,
        with_control.
      cbn [delayEffect gAudioBuffer gBufferSize gWritePointer readIndex
           gPlaybackSpeed].
      rewrite length_insert.
      split; [exact Hd'|].
      split; [repeat split; try tauto; try lia; apply Z.mod_pos_bound; lia|].
      tauto.
    - eexists _, _. split; [reflexivity | exact Hok]. }
  destruct H1 as (o1 & s1 & -> & Hok1). cbn [bind].
  destruct (gPlaying s1); [|eexists _, _; split; [reflexivity | exact Hok1]].
  destruct Hok1 as (Hd & Hl & Hc2 & Hr & Hsp).
  destruct (playbackRead_ok s1 Hl Hc2 Hr Hsp) as (r & -> & Hrr & _).
  cbn [bind]. eexists _, _. split; [reflexivity|].
  unfold session_ok, with_readIndex.
  cbn [delayEffect gBufferSize readIndex gPlaybackSpeed].
  split; [exact Hd|]. split; [exact Hl|]. tauto.
Qed.

Lemma render_frame_keeps_ok (fuel : nat) (n : Z) (f : Frame) (s : Session) :
  session_ok s -> frame_ok f -> (1 <= fuel)%nat ->
  exists out s', render_frame fuel n f s = Ok (out, s') /\ session_ok s'.
Proof.
  intros Hok Hf Hfuel. unfold render_frame.
  destruct (control_tick_keeps_ok n f s Hok Hf) as (s1 & -> & Hok1).
  cbn [bind]. apply process_keeps_ok; [|exact Hfuel].
  apply clear_buffer_keeps_ok, record_play_toggle_keeps_ok. exact Hok1.
Qed.

(** From a session that satisfies [session_ok], over frames whose speed
    knob reads within [[0, 1]], the per-sample loop runs to the end of the
    block with one unit of fuel, puts out one sample per frame, and leaves a
    session that satisfies [session_ok]: no conversion, index, remainder or
    loop of [render], [processSample] and [setDelayTime] goes wrong. *)
Lemma render_from_keeps_ok
    (fuel : nat) (frames : list Frame) : forall (n : Z) (s : Session),
  session_ok s -> Forall frame_ok frames -> (1 <= fuel)%nat ->
  exists outs s',
    render_from fuel n frames s = Ok (outs, s') /\
    length outs = length frames /\
    session_ok s'.
Proof.
  induction frames as [|f frames IH]; intros n s Hok Hfs Hfuel;
    cbn [render_from].
  - exists [], s. split; [reflexivity|]. split; [reflexivity | exact Hok].
  - apply Forall_cons in Hfs as [Hf Hfs].
    destruct (render_frame_keeps_ok fuel n f s Hok Hf Hfuel)
      as (o & s1 & -> & Hok1).
    cbn [bind].
    destruct (IH (n + 1)%Z s1 Hok1 Hfs Hfuel) as (os & s2 & -> & Hlen & Hok2).
    cbn [bind]. exists (o :: os), s2. cbn [length].
    split; [reflexivity|]. split; [congruence | exact Hok2].
Qed.

Lemma delayEffect_initial_ok : delay_ok delayEffect_initial.
Proof.
  split; [exact delayEffect_initial_wf|].
  unfold delayEffect_initial.
  cbn [sampleRate bufferSize currentDelayTimeInSamples
       targetDelayTimeInSamples timeSmoothingFactor].
  split; [lia|]. repeat split; discriminate.
Qed.

Lemma delayEffect_initial_knob_ok : delay_knob_ok delayEffect_initial.
Proof.
  split; [exact delayEffect_initial_ok|].
  unfold delayEffect_initial. cbn [sampleRate bufferSize]. lia.
Qed.

(** [setup] hands [render] a session that satisfies [session_ok]. *)
Lemma setup_ok (M_PI M_E : Q) (sin cos expf : Q -> Q)
    (audioFrames analogFrames : Z) (audioSampleRate : Q) (s : Session) :
  setup M_PI M_E sin cos expf audioFrames analogFrames audioSampleRate = Ok s ->
  session_ok s /\
  gBufferSize s = 882000%Z /\
  Lfo.lfo_type (gLFO s) = Lfo.SINE /\
  gRecording s = false /\ gPlaying s = false /\ gClearedOnce s = false /\
  localLastClearButtonState s = 0%Z.
Proof.
  unfold setup. rewrite delayEffect_constructed. cbn [bind]. cbv zeta.
  intros H. apply bind_Ok in H as (lp & _ & H). injection H as <-.
  cbn [gBufferSize gLFO gRecording gPlaying gClearedOnce
       localLastClearButtonState Lfo.set_lfo_type Lfo.lfo_type].
  split; [|repeat split].
  split; [exact delayEffect_initial_knob_ok|].
  split.
  { unfold looper_wf, vec_fill, INT_MAX.
    cbn [gAudioBuffer gBufferSize gWritePointer].
    rewrite length_replicate. repeat split; lia. }
  cbn [gBufferSize readIndex gPlaybackSpeed].
  split; [lia|]. repeat split; first [discriminate | reflexivity].
Qed.

Lemma session_example_ok : session_ok session_example.
Proof.
  unfold session_ok, delay_knob_ok, delay_ok, delay_wf, looper_wf, INT_MAX.
  cbn.
  repeat split; first [lia | discriminate | reflexivity].
Qed.

(** C5.  Take any session between frames ([session_ok]) with the clear
    control up and the guard not set, and any frames that bring a press of
    the control, any number of frames with it held down, its release, and a
    new press.  The loop runs over them, and the clear branch runs in the
    first frame and in the last and in no frame between: the first frame
    leaves the buffer zeroed and the cursors at 0 with the guard set; over
    the frames in which the control is held the loop puts out the samples
    and ends in the state of a run with the clear branch taken out
    ([render_from_inert]), so buffer, cursors and transport are touched by
    recording and playback alone, and the guard stays set; the frame that
    sees the control released resets the guard, and the new press clears
    again. *)
Theorem clear_once_per_press
    (fuel : nat) (n : Z) (s : Session)
    (press release press2 : Frame) (hold : list Frame) :
  session_ok s ->
  (1 <= fuel)%nat ->
  Forall frame_ok (press :: hold ++ [release; press2]) ->
  localLastClearButtonState s = 0%Z ->
  gClearedOnce s = false ->
  clearButtonState press = 1%Z ->
  Forall (fun f => clearButtonState f = 1%Z) hold ->
  clearButtonState release = 0%Z ->
  clearButtonState press2 = 1%Z ->
  exists outs s_end,
    render_from fuel n (press :: hold ++ [release; press2]) s
    = Ok (outs, s_end) /\
    clear_trace fuel n (press :: hold ++ [release; press2]) s
    = Ok (true :: replicate (length hold) false ++ [false; true]) /\
    (exists o1 s1 os s2 o3 s3 o4,
       render_frame fuel n press s = Ok (o1, s1) /\
       cleared (length (gAudioBuffer s)) s1 /\
       gClearedOnce s1 = true /\
       render_from fuel (n + 1) hold s1 = Ok (os, s2) /\
       render_from_inert fuel (n + 1) hold s1 = Ok (os, s2) /\
       gClearedOnce s2 = true /\
       render_frame fuel (n + 1 + Z.of_nat (length hold)) release s2
       = Ok (o3, s3) /\
       gClearedOnce s3 = false /\
       render_frame fuel (n + 1 + Z.of_nat (length hold) + 1) press2 s3
       = Ok (o4, s_end) /\
       clear_fires s3 press2 = true) /\
    cleared (length (gAudioBuffer s_end)) s_end /\
    gClearedOnce s_end = true.
Proof.
  intros Hok Hfuel Hframes Hlast Hguard Hpress Hheld Hrel Hpress2.
  destruct (render_from_keeps_ok fuel (press :: hold ++ [release; press2])
              n s Hok Hframes Hfuel) as (outs & s_end & Hrun & _ & _).
  exists outs, s_end. split; [exact Hrun|].
  exact (press_hold_release_press fuel n s s_end press release press2 hold
           outs Hlast Hguard Hpress Hheld Hrel Hpress2 Hrun).
Qed.

Lemma clear_once_per_press_witness :
  exists outs s_end,
    render_from 1 0 (frame_clear :: frames_held ++ [frame_idle; frame_clear])
      session_example = Ok (outs, s_end) /\
    clear_trace 1 0 (frame_clear :: frames_held ++ [frame_idle; frame_clear])
      session_example
    = Ok (true :: replicate (length frames_held) false ++ [false; true]) /\
    (exists o1 s1 os s2 o3 s3 o4,
       render_frame 1 0 frame_clear session_example = Ok (o1, s1) /\
       cleared (length (gAudioBuffer session_example)) s1 /\
       gClearedOnce s1 = true /\
       render_from 1 (0 + 1) frames_held s1 = Ok (os, s2) /\
       render_from_inert 1 (0 + 1) frames_held s1 = Ok (os, s2) /\
       gClearedOnce s2 = true /\
       render_frame 1 (0 + 1 + Z.of_nat (length frames_held)) frame_idle s2
       = Ok (o3, s3) /\
       gClearedOnce s3 = false /\
       render_frame 1 (0 + 1 + Z.of_nat (length frames_held) + 1)
         frame_clear s3
       = Ok (o4, s_end) /\
       clear_fires s3 frame_clear = true) /\
    cleared (length (gAudioBuffer s_end)) s_end /\
    gClearedOnce s_end = true.
Proof.
  apply (clear_once_per_press 1 0 session_example
           frame_clear frame_idle frame_clear frames_held).
  - exact session_example_ok.
  - lia.
  - repeat constructor; discriminate.
  - reflexivity.
  - reflexivity.
  - reflexivity.
  - repeat constructor.
  - reflexivity.
  - reflexivity.
Defined.

(** * Further properties of the delay line *)

Lemma clampValue_range (value minVal maxVal : Q) :
  minVal <= maxVal -> minVal <= clampValue value minVal maxVal <= maxVal.
Proof.
  intros H. unfold clampValue.
  destruct (Qltb_reflect value minVal); [lra|].
  destruct (Qltb_reflect maxVal value); lra.
Qed.

Lemma clampValue_in_range (value minVal maxVal : Q) :
  minVal <= value <= maxVal -> clampValue value minVal maxVal = value.
Proof.
  intros H. unfold clampValue.
  destruct (Qltb_reflect value minVal); [lra|].
  destruct (Qltb_reflect maxVal value); [lra | reflexivity].
Qed.

(** What a successful [processSample] leaves of the state it found. *)
Lemma processSample_fields (fuel : nat) (d d' : DelayEffect) (input out : Q) :
  processSample fuel d input = Ok (out, d') ->
  sampleRate d' = sampleRate d /\
  bufferSize d' = bufferSize d /\
  targetDelayTimeInSamples d' = targetDelayTimeInSamples d /\
  timeSmoothingFactor d' = timeSmoothingFactor d /\
  feedback d' = feedback d /\
  mix d' = mix d /\
  currentDelayTimeInSamples d' = smoothed_delay d /\
  length (delayBuffer d') = length (delayBuffer d).
Proof.
  unfold processSample. cbv zeta. intros H.
  repeat (apply bind_Ok in H as (? & ? & H)).
  injection H as _ <-.
  match goal with
  | E : vec_set _ _ _ = Ok _ |- _ =>
      unfold vec_set in E; destruct (_ && _)%bool in E; try discriminate;
      injection E as <-
  end.
  unfold with_processed. cbn. rewrite length_insert. repeat split.
Qed.

Lemma setDelayTime_fields (d d' : DelayEffect) (seconds : Q) :
  setDelayTime d seconds = Ok d' ->
  sampleRate d' = sampleRate d /\
  bufferSize d' = bufferSize d /\
  writePointer d' = writePointer d /\
  currentDelayTimeInSamples d' = currentDelayTimeInSamples d /\
  timeSmoothingFactor d' = timeSmoothingFactor d /\
  feedback d' = feedback d /\
  mix d' = mix d /\
  delayBuffer d' = delayBuffer d.
Proof.
  unfold setDelayTime. intros H. apply bind_Ok in H as (t & _ & H).
  injection H as <-. repeat split.
Qed.

Lemma run_call_params (fuel : nat) (d d' : DelayEffect) (c : call) :
  run_call fuel d c = Ok d' ->
  delay_params_ok d ->
  delay_params_ok d' /\
  sampleRate d' = sampleRate d /\
  bufferSize d' = bufferSize d /\
  length (delayBuffer d') = length (delayBuffer d).
Proof.
  intros H (Hf & Hm & Hs). unfold delay_params_ok.
  destruct c; cbn [run_call] in H.
  - apply setDelayTime_fields in H.
    destruct H as (-> & -> & _ & _ & -> & -> & -> & ->). tauto.
  - injection H as <-. cbn. pose proof (clampValue_range feedbackAmount 0 1).
    repeat split; try tauto; apply H; lra.
  - injection H as <-. cbn. pose proof (clampValue_range mixAmount 0 1).
    repeat split; try tauto; apply H; lra.
  - injection H as <-. cbn. pose proof (clampValue_range factor 0 1).
    repeat split; try tauto; apply H; lra.
  - apply bind_Ok in H as ([o d1] & H & E). injection E as <-.
    apply processSample_fields in H.
    destruct H as (-> & -> & _ & -> & -> & -> & _ & ->). tauto.
Qed.

Lemma run_calls_params (fuel : nat) (calls : list call) :
  forall d d' : DelayEffect,
  run_calls fuel d calls = Ok d' ->
  delay_params_ok d ->
  delay_params_ok d' /\
  sampleRate d' = sampleRate d /\
  bufferSize d' = bufferSize d /\
  length (delayBuffer d') = length (delayBuffer d).
Proof.
  induction calls as [|c calls IH]; intros d d' H Hok; cbn [run_calls] in H.
  - injection H as <-. tauto.
  - apply bind_Ok in H as (d1 & H1 & H).
    destruct (run_call_params fuel d d1 c H1 Hok) as (Hok1 & <- & <- & <-).
    apply IH; assumption.
Qed.

Lemma DelayEffect_new_fields
    (sr bufSize : Z) (delayTimeSec feedbackAmount : Q) (d : DelayEffect) :
  DelayEffect_new sr delayTimeSec feedbackAmount bufSize = Ok d ->
  sampleRate d = sr /\ bufferSize d = bufSize /\ writePointer d = 0%Z /\
  delayBuffer d = vec_fill (Z.to_nat bufSize) 0 /\
  currentDelayTimeInSamples d = targetDelayTimeInSamples d /\
  feedback d = clampValue feedbackAmount 0 1 /\
  mix d = 0.5 /\ timeSmoothingFactor d = 0.01.
Proof.
  unfold DelayEffect_new. cbv zeta. intros H.
  apply bind_Ok in H as (d1 & H1 & H). injection H as <-.
  apply setDelayTime_fields in H1. cbn in H1 |- *.
  destruct H1 as (-> & -> & -> & _ & -> & _ & _ & ->).
  repeat split.
Qed.

(** X1.  The parameters stay clamped.  On a delay line that the constructor
    returned, after any sequence of calls of its methods that ran, the
    feedback, the mix and the smoothing factor lie in [[0, 1]] whatever
    values the setters were given, and the sample rate, the capacity and
    the length of the buffer are those of the construction. *)
Theorem parameters_stay_clamped
    (sr bufSize : Z) (delayTimeSec feedbackAmount : Q) (d0 d : DelayEffect)
    (fuel : nat) (calls : list call) :
  DelayEffect_new sr delayTimeSec feedbackAmount bufSize = Ok d0 ->
  run_calls fuel d0 calls = Ok d ->
  delay_params_ok d /\
  sampleRate d = sr /\
  bufferSize d = bufSize /\
  length (delayBuffer d) = Z.to_nat bufSize.
Proof.
  intros Hnew Hrun.
  destruct (DelayEffect_new_fields _ _ _ _ _ Hnew)
    as (Hsr & Hb & _ & Hbuf & _ & Hf & Hm & Hs).
  assert (Hok : delay_params_ok d0).
  { unfold delay_params_ok. rewrite Hf, Hm, Hs.
    pose proof (clampValue_range feedbackAmount 0 1).
    repeat split; try (apply H; lra); discriminate. }
  destruct (run_calls_params fuel calls d0 d Hrun Hok) as (Hok' & -> & -> & ->).
  rewrite Hbuf. unfold vec_fill. rewrite length_replicate. tauto.
Qed.

Lemma parameters_stay_clamped_witness :
  delay_params_ok delay_fresh_after /\
  sampleRate delay_fresh_after = 8%Z /\
  bufferSize delay_fresh_after = 4%Z /\
  length (delayBuffer delay_fresh_after) = Z.to_nat 4.
Proof.
  apply (parameters_stay_clamped 8 4 0.25 1.5 delay_fresh delay_fresh_after
           2 delay_fresh_calls).
  - vm_compute. reflexivity.
  - vm_compute. reflexivity.
Defined.

(** X2.  The constructor establishes the class invariant.  For a capacity
    between 1 and [INT_MAX] and a delay time whose product with the sample
    rate, rounded to [float], converts to [unsigned int], it returns a delay
    line with a zeroed buffer of capacity slots, the write pointer at 0,
    the target delay at the whole sample count (that product without its
    fraction) capped at capacity - 1 and stored as a [float], which is the
    count itself for a capacity up to 2^24, the smoothed delay already on
    the target, the feedback clamped into [[0, 1]], the mix at 0.5 and the
    smoothing factor at 0.01. *)
Theorem constructor_establishes_invariant
    (sr bufSize : Z) (delayTimeSec feedbackAmount : Q) :
  (0 < bufSize <= INT_MAX)%Z ->
  -1 < f32 (delayTimeSec * float_of_int sr) < inject_Z (2 ^ 32) ->
  exists d,
    DelayEffect_new sr delayTimeSec feedbackAmount bufSize = Ok d /\
    delay_wf d /\
    delay_params_ok d /\
    sampleRate d = sr /\ bufferSize d = bufSize /\ writePointer d = 0%Z /\
    delayBuffer d = vec_fill (Z.to_nat bufSize) 0 /\
    targetDelayTimeInSamples d
    = float_of_int (delay_samples sr bufSize delayTimeSec) /\
    (0 <= delay_samples sr bufSize delayTimeSec <= bufSize - 1)%Z /\
    ((bufSize <= 2 ^ 24)%Z ->
     targetDelayTimeInSamples d
     = inject_Z (delay_samples sr bufSize delayTimeSec)) /\
    currentDelayTimeInSamples d = targetDelayTimeInSamples d /\
    feedback d = clampValue feedbackAmount 0 1 /\
    mix d = 0.5 /\ timeSmoothingFactor d = 0.01.
Proof.
  intros Hcap Hx.
  set (d0 := with_buffer (mkDelayEffect sr bufSize 0 0 0 0.01 0.5 0.5 [])
               (vec_fill (Z.to_nat bufSize) 0)).
  destruct (setDelayTime_ok d0 delayTimeSec Hcap Hx) as [Hset Hmin].
  unfold DelayEffect_new. cbv zeta. fold d0. rewrite Hset. cbn [bind].
  eexists. split; [reflexivity|].
  pose proof (clampValue_range feedbackAmount 0 1) as Hc.
  cbn [sampleRate bufferSize d0 with_buffer] in Hmin.
  unfold delay_wf, delay_params_ok, delay_samples. cbn. unfold vec_fill.
  rewrite length_replicate.
  repeat split; try lia; try (apply Hc; lra); try discriminate.
  intros Hsmall. apply float_of_int_exact. lia.
Qed.

Lemma constructor_establishes_invariant_witness :
  exists d,
    DelayEffect_new 8 0.3125 1.7 4 = Ok d /\
    delay_wf d /\
    delay_params_ok d /\
    sampleRate d = 8%Z /\ bufferSize d = 4%Z /\ writePointer d = 0%Z /\
    delayBuffer d = vec_fill (Z.to_nat 4) 0 /\
    targetDelayTimeInSamples d = float_of_int (delay_samples 8 4 0.3125) /\
    (0 <= delay_samples 8 4 0.3125 <= 4 - 1)%Z /\
    ((4 <= 2 ^ 24)%Z ->
     targetDelayTimeInSamples d = inject_Z (delay_samples 8 4 0.3125)) /\
    currentDelayTimeInSamples d = targetDelayTimeInSamples d /\
    feedback d = clampValue 1.7 0 1 /\
    mix d = 0.5 /\ timeSmoothingFactor d = 0.01.
Proof.
  apply (constructor_establishes_invariant 8 4 0.3125 1.7).
  - unfold INT_MAX. lia.
  - vm_compute. split; reflexivity.
Defined.

(** ** Blocks of samples *)

Lemma Qpower_succ (a : Q) (n : nat) :
  a ^ Z.of_nat (S n) == a * a ^ Z.of_nat n.
Proof.
  rewrite Nat2Z.inj_succ. unfold Z.succ.
  rewrite Z.add_comm, Qpower_plus' by lia. reflexivity.
Qed.

Lemma Qpower_unit (a : Q) (n : nat) :
  0 <= a <= 1 -> 0 <= a ^ Z.of_nat n <= 1.
Proof.
  intros Ha. induction n as [|n IH].
  - change (a ^ Z.of_nat 0) with 1. lra.
  - rewrite Qpower_succ. set (p := a ^ Z.of_nat n) in *. clearbody p. nra.
Qed.

Lemma processSamples_app (fuel : nat) (a b : list Q) :
  forall (d da db : DelayEffect) (oa ob : list Q),
  processSamples fuel d a = Ok (oa, da) ->
  processSamples fuel da b = Ok (ob, db) ->
  processSamples fuel d (a ++ b) = Ok (oa ++ ob, db).
Proof.
  induction a as [|x a IH]; intros d da db oa ob Ha Hb;
    cbn [processSamples app] in *.
  - injection Ha as <- <-. exact Hb.
  - apply bind_Ok in Ha as ([o d1] & H1 & Ha).
    apply bind_Ok in Ha as ([os d2] & H2 & Ha). injection Ha as <- <-.
    rewrite H1. cbn [bind]. rewrite (IH _ _ _ _ _ H2 Hb). reflexivity.
Qed.

(** One call under [delay_ok], with what it leaves. *)
Lemma processSample_step (fuel : nat) (d : DelayEffect) (input : Q) :
  delay_ok d -> (1 <= fuel)%nat ->
  exists out d',
    processSample fuel d input = Ok (out, d') /\
    delay_ok d' /\
    sampleRate d' = sampleRate d /\
    bufferSize d' = bufferSize d /\
    targetDelayTimeInSamples d' = targetDelayTimeInSamples d /\
    timeSmoothingFactor d' = timeSmoothingFactor d /\
    feedback d' = feedback d /\
    mix d' = mix d /\
    currentDelayTimeInSamples d' = smoothed_delay d /\
    length (delayBuffer d') = length (delayBuffer d).
Proof.
  intros Hok Hfuel.
  destruct (processSample_keeps_ok fuel d input Hok Hfuel)
    as (out & d' & Hrun & Hok').
  exists out, d'. split; [exact Hrun|]. split; [exact Hok'|].
  exact (processSample_fields fuel d d' input out Hrun).
Qed.

Lemma smoothing_run (fuel : nat) (inputs : list Q) : forall d : DelayEffect,
  delay_ok d -> (1 <= fuel)%nat ->
  exists outs d',
    processSamples fuel d inputs = Ok (outs, d') /\
    length outs = length inputs /\
    delay_ok d' /\
    targetDelayTimeInSamples d' = targetDelayTimeInSamples d /\
    timeSmoothingFactor d' = timeSmoothingFactor d /\
    currentDelayTimeInSamples d' - targetDelayTimeInSamples d
    == (1 - timeSmoothingFactor d) ^ Z.of_nat (length inputs)
       * (currentDelayTimeInSamples d - targetDelayTimeInSamples d).
Proof.
  induction inputs as [|x inputs IH]; intros d Hok Hfuel;
    cbn [processSamples length].
  - exists [], d. repeat split; try assumption; try apply Hok.
    change ((1 - timeSmoothingFactor d) ^ Z.of_nat 0) with 1. ring.
  - destruct (processSample_step fuel d x Hok Hfuel)
      as (o & d1 & -> & Hok1 & _ & _ & Ht & Hs & _ & _ & Hc & _).
    cbn [bind].
    destruct (IH d1 Hok1 Hfuel) as (os & d2 & -> & Hlen & Hok2 & Ht2 & Hs2 & Hc2).
    cbn [bind]. exists (o :: os), d2. cbn [length].
    split; [reflexivity|]. split; [congruence|]. split; [exact Hok2|].
    split; [congruence|]. split; [congruence|].
    rewrite Qpower_succ. rewrite Ht, Hs, Hc in Hc2. rewrite Hc2.
    unfold smoothed_delay. ring.
Qed.

(** X3.  The delay time is smoothed geometrically.  On a delay line between
    calls ([delay_ok]), any number [n] of calls of [processSample] runs with
    one unit of fuel, returns one value per sample, leaves the target and
    the smoothing factor [a] alone, and leaves the smoothed delay at the
    target plus [(1 - a)^n] times its initial distance from the target: it
    moves toward the target and never past it. *)
Theorem smoothing_is_geometric
    (fuel : nat) (d : DelayEffect) (inputs : list Q) :
  delay_ok d -> (1 <= fuel)%nat ->
  exists outs d',
    processSamples fuel d inputs = Ok (outs, d') /\
    length outs = length inputs /\
    targetDelayTimeInSamples d' = targetDelayTimeInSamples d /\
    timeSmoothingFactor d' = timeSmoothingFactor d /\
    currentDelayTimeInSamples d' - targetDelayTimeInSamples d
    == (1 - timeSmoothingFactor d) ^ Z.of_nat (length inputs)
       * (currentDelayTimeInSamples d - targetDelayTimeInSamples d) /\
    Qabs (currentDelayTimeInSamples d' - targetDelayTimeInSamples d)
    <= Qabs (currentDelayTimeInSamples d - targetDelayTimeInSamples d).
Proof.
  intros Hok Hfuel.
  destruct (smoothing_run fuel inputs d Hok Hfuel)
    as (outs & d' & Hrun & Hlen & _ & Ht & Hs & Hc).
  exists outs, d'. repeat (split; [assumption|]).
  rewrite Hc, Qabs_Qmult.
  assert (Ha : 0 <= 1 - timeSmoothingFactor d <= 1).
  { destruct Hok as (_ & _ & _ & _ & Hf). lra. }
  pose proof (Qpower_unit _ (length inputs) Ha) as Hp.
  rewrite (Qabs_pos _ (proj1 Hp)).
  pose proof (Qabs_nonneg
                (currentDelayTimeInSamples d - targetDelayTimeInSamples d)).
  set (p := (1 - timeSmoothingFactor d) ^ Z.of_nat (length inputs)) in *.
  set (q := Qabs _) in *. clearbody p q. nra.
Qed.

Lemma smoothing_is_geometric_witness :
  exists outs d',
    processSamples 1 delay_example [1; 0; 0] = Ok (outs, d') /\
    length outs = length [1; 0; 0] /\
    targetDelayTimeInSamples d' = targetDelayTimeInSamples delay_example /\
    timeSmoothingFactor d' = timeSmoothingFactor delay_example /\
    currentDelayTimeInSamples d' - targetDelayTimeInSamples delay_example
    == (1 - timeSmoothingFactor delay_example) ^ Z.of_nat (length [1; 0; 0])
       * (currentDelayTimeInSamples delay_example
          - targetDelayTimeInSamples delay_example) /\
    Qabs (currentDelayTimeInSamples d' - targetDelayTimeInSamples delay_example)
    <= Qabs (currentDelayTimeInSamples delay_example
             - targetDelayTimeInSamples delay_example).
Proof.
  apply (smoothing_is_geometric 1 delay_example [1; 0; 0]).
  - unfold delay_ok, delay_wf, INT_MAX. cbn.
    repeat split; first [lia | discriminate | reflexivity].
  - lia.
Defined.

(** ** A settled delay of whole samples *)

Lemma inject_Z_mod_decomp (a b : Z) :
  (0 < b)%Z ->
  inject_Z (a mod b) == inject_Z a + inject_Z (- (a / b)) * inject_Z b.
Proof.
  intros Hb.
  assert (H : (a mod b = a + - (a / b) * b)%Z).
  { pose proof (Z.div_mod a b). lia. }
  rewrite H at 1. rewrite inject_Z_plus, inject_Z_mult. reflexivity.
Qed.

Lemma settled_range (d : DelayEffect) (D : Z) :
  delay_ok d -> currentDelayTimeInSamples d == inject_Z D ->
  (0 <= D <= bufferSize d - 1)%Z.
Proof.
  intros (_ & _ & Hc & _) H. rewrite H in Hc.
  change 0 with (inject_Z 0) in Hc. rewrite <- !Zle_Qle in Hc. exact Hc.
Qed.

(** One call on a delay line settled on [D] whole samples: the delayed
    sample is the slot [D] behind the write pointer, with no interpolation. *)
Lemma processSample_settled (fuel : nat) (d : DelayEffect) (input : Q) (D : Z) :
  delay_ok d -> (1 <= fuel)%nat ->
  currentDelayTimeInSamples d == inject_Z D ->
  targetDelayTimeInSamples d == inject_Z D ->
  let m := Z.to_nat ((writePointer d - D) mod bufferSize d) in
  exists out d',
    processSample fuel d input = Ok (out, d') /\
    delay_ok d' /\
    out == (1 - mix d) * input + mix d * nth m (delayBuffer d) 0 /\
    nth (Z.to_nat (writePointer d)) (delayBuffer d') 0
    == input + nth m (delayBuffer d) 0 * feedback d /\
    (forall j : nat, j <> Z.to_nat (writePointer d) ->
       nth j (delayBuffer d') 0 = nth j (delayBuffer d) 0) /\
    writePointer d' = ((writePointer d + 1) mod bufferSize d)%Z /\
    bufferSize d' = bufferSize d /\
    currentDelayTimeInSamples d' == inject_Z D /\
    targetDelayTimeInSamples d' = targetDelayTimeInSamples d /\
    feedback d' = feedback d /\
    mix d' = mix d.
Proof.
  intros Hok Hfuel Hc Ht m.
  pose proof (delay_ok_fuel d Hok) as Hn.
  destruct (processSample_step fuel d input Hok Hfuel)
    as (out & d' & Hrun' & Hok' & _).
  pose proof Hok as (Hwf & _).
  destruct (processSample_ok d input fuel Hwf) as (pos & _ & Hr & Hwrap & Hi & Hrun);
    [lia|].
  cbv zeta in Hrun. rewrite Hrun in Hrun'. injection Hrun' as <- <-.
  rewrite Hrun. clear Hrun.
  destruct Hwf as (Hcap & Hlen & Hwp).
  assert (Hsm : smoothed_delay d == inject_Z D).
  { unfold smoothed_delay. rewrite Hc, Ht. ring. }
  set (mz := ((writePointer d - D) mod bufferSize d)%Z) in *.
  assert (Hmz : (0 <= mz < bufferSize d)%Z) by (apply Z.mod_pos_bound; lia).
  assert (Hsize : 0 < inject_Z (bufferSize d)).
  { change 0 with (inject_Z 0). rewrite <- Zlt_Qlt. lia. }
  assert (Hpos : pos == inject_Z mz).
  { rewrite Hwrap. symmetry.
    apply (wrap_into_unique (inject_Z (bufferSize d)) _ _
             (- ((writePointer d - D) / bufferSize d))).
    - exact Hsize.
    - split.
      + change 0 with (inject_Z 0). rewrite <- Zle_Qle. lia.
      + rewrite <- Zlt_Qlt. lia.
    - unfold mz. rewrite inject_Z_mod_decomp by lia.
      unfold Z.sub. rewrite inject_Z_plus, inject_Z_opp, Hsm. ring. }
  assert (Hfl : Qfloor pos = mz).
  { rewrite (Qfloor_comp _ _ Hpos). apply Qfloor_Z. }
  rewrite Hfl in *. fold m.
  set (a := nth m (delayBuffer d) 0).
  set (b := nth (Z.to_nat ((mz + 1) mod bufferSize d)) (delayBuffer d) 0).
  assert (Hdel : (1 - (pos - inject_Z mz)) * a + (pos - inject_Z mz) * b == a).
  { rewrite Hpos. ring. }
  eexists _, _. split; [reflexivity|]. split; [exact Hok'|].
  unfold with_processed.
  cbn [delayBuffer writePointer bufferSize currentDelayTimeInSamples
       targetDelayTimeInSamples feedback mix].
  split; [rewrite Hdel; reflexivity|].
  split.
  { rewrite nth_lookup, list_lookup_insert_eq by lia. cbn [default].
    rewrite Hdel. reflexivity. }
  split.
  { intros j Hj. rewrite !nth_lookup.
    rewrite list_lookup_insert_ne by congruence. reflexivity. }
  repeat split; try reflexivity. exact Hsm.
Qed.

(** Calls that stop short of slot [j] leave it alone. *)
Lemma processSamples_settled_keeps_slot (fuel : nat) (D : Z) (inputs : list Q) :
  forall (d : DelayEffect) (j : Z),
  delay_ok d -> (1 <= fuel)%nat ->
  currentDelayTimeInSamples d == inject_Z D ->
  targetDelayTimeInSamples d == inject_Z D ->
  (0 <= j < bufferSize d)%Z ->
  (Z.of_nat (length inputs) <= (j - writePointer d) mod bufferSize d)%Z ->
  exists outs d',
    processSamples fuel d inputs = Ok (outs, d') /\
    length outs = length inputs /\
    delay_ok d' /\
    currentDelayTimeInSamples d' == inject_Z D /\
    targetDelayTimeInSamples d' = targetDelayTimeInSamples d /\
    feedback d' = feedback d /\
    mix d' = mix d /\
    bufferSize d' = bufferSize d /\
    writePointer d'
    = ((writePointer d + Z.of_nat (length inputs)) mod bufferSize d)%Z /\
    nth (Z.to_nat j) (delayBuffer d') 0 = nth (Z.to_nat j) (delayBuffer d) 0.
Proof.
  induction inputs as [|x inputs IH]; intros d j Hok Hfuel Hc Ht Hj Hd;
    cbn [processSamples length] in *.
  - exists [], d. pose proof Hok as ((Hcap & _ & Hwp) & _).
    split; [reflexivity|]. split; [reflexivity|]. split; [exact Hok|].
    split; [exact Hc|]. repeat (split; [reflexivity|]).
    split; [|reflexivity].
    change (Z.of_nat 0) with 0%Z.
    rewrite Z.add_0_r, Z.mod_small by lia. reflexivity.
  - pose proof Hok as ((Hcap & _ & Hwp) & _).
    destruct (processSample_settled fuel d x D Hok Hfuel Hc Ht)
      as (o & d1 & -> & Hok1 & _ & _ & Hkeep & Hwp1 & Hb1 & Hc1 & Ht1 & Hf1 & Hm1).
    cbn [bind].
    rewrite Nat2Z.inj_succ in Hd.
    assert (Hne : j <> writePointer d).
    { intros ->. rewrite Z.sub_diag, Z.mod_0_l in Hd by lia. lia. }
    assert (Hd1 : ((j - writePointer d1) mod bufferSize d1
                   = (j - writePointer d) mod bufferSize d - 1)%Z).
    { rewrite Hb1, Hwp1, Zminus_mod_idemp_r.
      replace (j - (writePointer d + 1))%Z
        with ((j - writePointer d) - 1)%Z by lia.
      rewrite <- Zminus_mod_idemp_l.
      apply Z.mod_small.
      pose proof (Z.mod_pos_bound (j - writePointer d) (bufferSize d)).
      lia. }
    destruct (IH d1 j Hok1 Hfuel Hc1) as
      (os & d2 & -> & Hlen & Hok2 & Hc2 & Ht2 & Hf2 & Hm2 & Hb2 & Hwp2 & Hslot).
    { rewrite Ht1. exact Ht. }
    { lia. }
    { lia. }
    cbn [bind]. exists (o :: os), d2. cbn [length].
    split; [reflexivity|]. split; [congruence|]. split; [exact Hok2|].
    split; [exact Hc2|]. split; [congruence|]. split; [congruence|].
    split; [congruence|]. split; [congruence|]. split.
    + rewrite Hwp2, Hb1, Hwp1, Zplus_mod_idemp_l, Nat2Z.inj_succ.
      f_equal. lia.
    + rewrite Hslot. apply Hkeep. lia.
Qed.

(** X4.  A settled delay of whole samples echoes.  On a delay line between
    calls whose smoothed and target delays are both [D] whole samples, the
    first call mixes the input with the slot [D] behind the write pointer
    and writes the input plus that slot times the feedback; the call that
    comes [D] calls later returns its own input mixed with exactly the
    value written then.  A delay of zero is the one exception to the
    count: the slot under the write pointer is read before it is
    overwritten, so the value comes back a whole buffer length later. *)
Theorem settled_delay_echoes
    (fuel : nat) (d : DelayEffect) (D : Z) (x y : Q) (between : list Q) :
  delay_ok d -> (1 <= fuel)%nat ->
  currentDelayTimeInSamples d == inject_Z D ->
  targetDelayTimeInSamples d == inject_Z D ->
  Z.of_nat (length between) = (echo_lag D (bufferSize d) - 1)%Z ->
  let old :=
    nth (Z.to_nat ((writePointer d - D) mod bufferSize d)) (delayBuffer d) 0 in
  exists o1 os oD d',
    processSamples fuel d (x :: between ++ [y]) = Ok (o1 :: os ++ [oD], d') /\
    length os = length between /\
    o1 == (1 - mix d) * x + mix d * old /\
    oD == (1 - mix d) * y + mix d * (x + old * feedback d).
Proof.
  intros Hok Hfuel Hc Ht Hlen old.
  pose proof (settled_range d D Hok Hc) as HD.
  pose proof Hok as ((Hcap & Hbuf & Hwp) & _).
  destruct (processSample_settled fuel d x D Hok Hfuel Hc Ht)
    as (o1 & d1 & Hrun1 & Hok1 & Ho1 & Hw1 & _ & Hwp1 & Hb1 & Hc1 & Ht1 & Hf1 & Hm1).
  fold old in Ho1, Hw1.
  assert (Hlag : (1 <= echo_lag D (bufferSize d) <= bufferSize d)%Z).
  { unfold echo_lag. destruct (Z.eqb_spec D 0); lia. }
  destruct (processSamples_settled_keeps_slot fuel D between d1 (writePointer d)
              Hok1 Hfuel Hc1)
    as (os & d2 & Hrun2 & Hlen2 & Hok2 & Hc2 & Ht2 & Hf2 & Hm2 & Hb2 & Hwp2 & Hslot).
  { rewrite Ht1. exact Ht. }
  { lia. }
  { rewrite Hb1, Hwp1, Zminus_mod_idemp_r.
    replace (writePointer d - (writePointer d + 1))%Z with (-1)%Z by lia.
    destruct (Z.eq_dec (bufferSize d) 1%Z) as [E|E].
    - rewrite E in *. change ((-1) mod 1)%Z with 0%Z. lia.
    - rewrite <- (Z.mod_unique (-1) (bufferSize d) (-1) (bufferSize d - 1))
        by lia.
      lia. }
  destruct (processSample_settled fuel d2 y D Hok2 Hfuel Hc2)
    as (oD & d3 & Hrun3 & _ & HoD & _).
  { rewrite Ht2, Ht1. exact Ht. }
  assert (Hback : ((writePointer d2 - D) mod bufferSize d2)%Z = writePointer d).
  { rewrite Hb2, Hwp2, Hb1, Hwp1, Hlen, Zplus_mod_idemp_l, Zminus_mod_idemp_l.
    unfold echo_lag. destruct (Z.eqb_spec D 0) as [->|Hnz].
    - replace (writePointer d + 1 + (bufferSize d - 1) - 0)%Z
        with (writePointer d + 1 * bufferSize d)%Z by lia.
      rewrite Z.mod_add by lia. apply Z.mod_small. lia.
    - replace (writePointer d + 1 + (D - 1) - D)%Z with (writePointer d) by lia.
      apply Z.mod_small. lia. }
  rewrite Hback, Hslot, Hm2, Hm1 in HoD.
  exists o1, os, oD, d3. split.
  - change (x :: between ++ [y]) with ([x] ++ between ++ [y]).
    change (o1 :: os ++ [oD]) with ([o1] ++ os ++ [oD]).
    apply (processSamples_app fuel [x] (between ++ [y]) d d1 d3).
    + cbn [processSamples]. rewrite Hrun1. reflexivity.
    + apply (processSamples_app fuel between [y] d1 d2 d3); [exact Hrun2|].
      cbn [processSamples]. rewrite Hrun3. reflexivity.
  - split; [exact Hlen2|]. split; [exact Ho1|].
    rewrite HoD, Hw1. reflexivity.
Qed.

Lemma settled_delay_echoes_witness :
  let d := delay_settled in
  let old :=
    nth (Z.to_nat ((writePointer d - 2) mod bufferSize d)) (delayBuffer d) 0 in
  exists o1 os oD d',
    processSamples 1 d (1 :: [5] ++ [0.25]) = Ok (o1 :: os ++ [oD], d') /\
    length os = length [5] /\
    o1 == (1 - mix d) * 1 + mix d * old /\
    oD == (1 - mix d) * 0.25 + mix d * (1 + old * feedback d).
Proof.
  apply (settled_delay_echoes 1 delay_settled 2 1 0.25 [5]).
  - unfold delay_ok, delay_wf, INT_MAX. cbn.
    repeat split; first [lia | discriminate | reflexivity].
  - lia.
  - reflexivity.
  - reflexivity.
  - reflexivity.
Defined.

(** ** Bounded input, bounded output *)

Lemma processSample_bounded
    (fuel : nat) (d : DelayEffect) (input M B : Q) :
  delay_ok d -> (1 <= fuel)%nat ->
  0 <= mix d <= 1 -> 0 <= feedback d ->
  0 <= M -> M + feedback d * B <= B ->
  - M <= input <= M ->
  Forall (fun v => - B <= v <= B) (delayBuffer d) ->
  exists out d',
    processSample fuel d input = Ok (out, d') /\
    delay_ok d' /\
    mix d' = mix d /\
    feedback d' = feedback d /\
    - B <= out <= B /\
    Forall (fun v => - B <= v <= B) (delayBuffer d').
Proof.
  intros Hok Hfuel Hmix Hfb HM HB Hin Hbuf.
  pose proof (delay_ok_fuel d Hok) as Hn.
  destruct (processSample_step fuel d input Hok Hfuel)
    as (out & d' & Hrun' & Hok' & _).
  pose proof Hok as (Hwf & _).
  destruct (processSample_ok d input fuel Hwf) as (pos & _ & Hr & _ & Hi & Hrun);
    [lia|].
  cbv zeta in Hrun. rewrite Hrun in Hrun'. injection Hrun' as <- <-.
  rewrite Hrun. clear Hrun.
  destruct Hwf as (Hcap & Hlen & Hwp).
  assert (Hnx : (0 <= (Qfloor pos + 1) mod bufferSize d < bufferSize d)%Z)
    by (apply Z.mod_pos_bound; lia).
  eexists _, _. split; [reflexivity|]. split; [exact Hok'|].
  unfold with_processed. cbn [delayBuffer mix feedback].
  split; [reflexivity|]. split; [reflexivity|].
  clear Hok'.
  pose proof (proj1 (Forall_nth _ 0 _) Hbuf) as Hnth.
  pose proof (Hnth (Z.to_nat (Qfloor pos)) ltac:(lia)) as Ha.
  pose proof (Hnth (Z.to_nat ((Qfloor pos + 1) mod bufferSize d)) ltac:(lia))
    as Hb.
  cbv beta in Ha, Hb.
  set (a := nth (Z.to_nat (Qfloor pos)) (delayBuffer d) 0) in *.
  set (b := nth (Z.to_nat ((Qfloor pos + 1) mod bufferSize d))
              (delayBuffer d) 0) in *.
  pose proof (Qfloor_le pos) as Hf0. pose proof (Qlt_floor pos) as Hf1.
  rewrite inject_Z_plus in Hf1. change (inject_Z 1) with 1 in Hf1.
  set (frac := pos - inject_Z (Qfloor pos)) in *.
  assert (Hfrac : 0 <= frac <= 1) by (unfold frac; lra).
  set (g := feedback d) in *. set (mx := mix d) in *.
  clearbody a b frac g mx.
  assert (HB0 : 0 <= B) by lra.
  assert (Hdel : - B <= (1 - frac) * a + frac * b <= B) by (split; nra).
  set (del := (1 - frac) * a + frac * b) in *. clearbody del.
  assert (HgB : 0 <= g * B) by nra.
  assert (H1 : - ((1 - mx) * B) <= (1 - mx) * input <= (1 - mx) * B)
    by (split; nra).
  assert (H2 : - (mx * B) <= mx * del <= mx * B) by (split; nra).
  assert (H3 : - (g * B) <= del * g <= g * B) by (split; nra).
  split; [split; lra|].
  apply Forall_insert; [exact Hbuf|]. split; lra.
Qed.

(** X5.  Bounded input gives bounded output.  Take a delay line between
    calls with its mix in [[0, 1]] and a feedback [g >= 0], inputs within
    [[-M, M]], and a bound [B] with [M + g B <= B] (for [g < 1], any
    [B >= M / (1 - g)]) that the buffer's slots respect.  Then however many
    samples are processed, every value returned and every slot of the
    buffer stays within [[-B, B]]: the feedback path cannot run away. *)
Theorem bounded_input_bounded_output
    (fuel : nat) (d : DelayEffect) (inputs : list Q) (M B : Q) :
  delay_ok d -> (1 <= fuel)%nat ->
  0 <= mix d <= 1 -> 0 <= feedback d ->
  0 <= M -> M + feedback d * B <= B ->
  Forall (fun x => - M <= x <= M) inputs ->
  Forall (fun v => - B <= v <= B) (delayBuffer d) ->
  exists outs d',
    processSamples fuel d inputs = Ok (outs, d') /\
    length outs = length inputs /\
    Forall (fun o => - B <= o <= B) outs /\
    Forall (fun v => - B <= v <= B) (delayBuffer d').
Proof.
  intros Hok Hfuel Hmix Hfb HM HB Hin. revert d Hok Hmix Hfb HB.
  induction Hin as [|x inputs Hx Hin IH]; intros d Hok Hmix Hfb HB Hbuf;
    cbn [processSamples length].
  - exists [], d. repeat split; [constructor | exact Hbuf].
  - destruct (processSample_bounded fuel d x M B Hok Hfuel Hmix Hfb HM HB Hx Hbuf)
      as (o & d1 & -> & Hok1 & Hm1 & Hf1 & Ho & Hbuf1).
    cbn [bind].
    destruct (IH d1 Hok1) as (os & d2 & -> & Hlen & Hos & Hbuf2);
      try (rewrite ?Hm1, ?Hf1; assumption).
    cbn [bind]. exists (o :: os), d2. cbn [length].
    split; [reflexivity|]. split; [congruence|].
    split; [constructor; assumption | exact Hbuf2].
Qed.

Lemma bounded_input_bounded_output_witness :
  exists outs d',
    processSamples 1 delay_example [2; -2; 1.5; 2; 2] = Ok (outs, d') /\
    length outs = length [2; -2; 1.5; 2; 2] /\
    Forall (fun o => - 4 <= o <= 4) outs /\
    Forall (fun v => - 4 <= v <= 4) (delayBuffer d').
Proof.
  apply (bounded_input_bounded_output 1 delay_example [2; -2; 1.5; 2; 2] 2 4).
  - unfold delay_ok, delay_wf, INT_MAX. cbn.
    repeat split; first [lia | discriminate | reflexivity].
  - lia.
  - cbn. split; discriminate.
  - cbn. discriminate.
  - discriminate.
  - vm_compute. discriminate.
  - repeat constructor; discriminate.
  - repeat constructor; discriminate.
Defined.

(** * Further properties of the LFO bank *)

Section LfoMore.

Import Lfo.

Lemma run_lfo_sine_block (lp : lfoparams) :
  block_of (lfo_type lp) = Sine -> snd (run_lfo lp) = snd (run_sine_lfo lp).
Proof.
  unfold run_lfo. destruct (lfo_type lp); cbn [block_of]; intros H;
    try discriminate; destruct (run_sine_lfo lp); reflexivity.
Qed.

Lemma run_sine_lfo_energy (lp : lfoparams) :
  ksin (sine (snd (run_sine_lfo lp))) = ksin (sine lp) /\
  sine_energy (sine (snd (run_sine_lfo lp))) == sine_energy (sine lp).
Proof.
  unfold run_sine_lfo, sine_energy.
  cbn [snd sine with_sine ksin sin_part cos_part].
  split; [reflexivity | ring].
Qed.

Lemma sine_energy_run (n : nat) : forall lp : lfoparams,
  block_of (lfo_type lp) = Sine ->
  ksin (sine (snd (run_lfo_n n lp))) = ksin (sine lp) /\
  sine_energy (sine (snd (run_lfo_n n lp))) == sine_energy (sine lp).
Proof.
  induction n as [|n IH]; intros lp Hb; cbn [run_lfo_n].
  - split; reflexivity.
  - pose proof (run_lfo_sine_block lp Hb) as Hs.
    pose proof (run_lfo_type lp) as Ht.
    destruct (run_sine_lfo_energy lp) as [Hk He].
    destruct (run_lfo lp) as [v lp1]. cbn [snd] in *. subst lp1.
    rewrite <- Ht in Hb. destruct (IH _ Hb) as [Hk' He'].
    destruct (run_lfo_n n _) as [vs lp2]. cbn [snd] in *.
    split; [congruence|]. rewrite He'. exact He.
Qed.

(** The amplitude of the sine variant's value, from the conserved form. *)
Lemma sine_amplitude_run (n : nat) : forall (lp : lfoparams) (E kk : Q),
  lfo_type lp = SINE ->
  ksin (sine lp) = kk ->
  sine_energy (sine lp) == E ->
  Forall (fun v => (2 * v - 1) * (2 * v - 1) * (4 - kk * kk) <= 4 * E)
    (fst (run_lfo_n n lp)).
Proof.
  induction n as [|n IH]; intros lp E kk Ht Hk HE; cbn [run_lfo_n].
  - constructor.
  - assert (Hrun : run_lfo lp = run_sine_lfo lp)
      by (unfold run_lfo; rewrite Ht; reflexivity).
    pose proof (run_lfo_type lp) as Ht1.
    destruct (run_sine_lfo_energy lp) as [Hk1 He1].
    rewrite Hrun in *.
    assert (Hv : fst (run_sine_lfo lp)
                 = 0.5 * (1 + cos_part (sine (snd (run_sine_lfo lp)))))
      by reflexivity.
    destruct (run_sine_lfo lp) as [v lp1]. cbn [fst snd] in *.
    assert (Ht' : lfo_type lp1 = SINE) by congruence.
    assert (HE1 : sine_energy (sine lp1) == E) by (rewrite He1; exact HE).
    assert (Hk' : ksin (sine lp1) = kk) by congruence.
    specialize (IH lp1 E kk Ht' Hk' HE1).
    destruct (run_lfo_n n lp1) as [vs lp2]. cbn [fst] in *.
    constructor; [|exact IH].
    rewrite <- HE1. unfold sine_energy. rewrite Hk', Hv.
    set (s := sin_part (sine lp1)). set (c := cos_part (sine lp1)).
    clearbody s c.
    assert (Hsq : 0 <= (2 * s + kk * c) * (2 * s + kk * c)).
    { set (u := 2 * s + kk * c). clearbody u. nra. }
    lra.
Qed.

(** One step of the relaxation recurrence keeps [rlx_inv]; its value is
    past a threshold by at most one step. *)
Lemma rlx_step (lp : lfoparams) :
  rlx_inv (rlx lp) ->
  let r := rlx lp in
  let r' := rlx (snd (run_rlx_lfo lp)) in
  rlx_ik r * rlx_min r <= fst (run_rlx_lfo lp) <= rlx_k r + rlx_ik r * rlx_max r /\
  rlx_inv r' /\
  rlx_k r' = rlx_k r /\ rlx_ik r' = rlx_ik r /\
  rlx_max r' = rlx_max r /\ rlx_min r' = rlx_min r.
Proof.
  intros (Hk & Hik & Hmin & Hmax & Hcase). cbv zeta.
  unfold run_rlx_lfo, rlx_inv.
  cbn [fst snd rlx with_rlx rlx_k rlx_ik rlx_sign rlx_max rlx_min rlx_lfo].
  set (k := rlx_k (rlx lp)) in *. set (ik := rlx_ik (rlx lp)) in *.
  set (sg := rlx_sign (rlx lp)) in *. set (mx := rlx_max (rlx lp)) in *.
  set (mn := rlx_min (rlx lp)) in *. set (l := rlx_lfo (rlx lp)) in *.
  clearbody k ik sg mx mn l.
  assert (Hik0 : 0 < ik < 1) by lra.
  assert (Hlo : ik * mn <= 0) by nra.
  assert (Hhi : 1 <= k + ik * mx) by nra.
  assert (Hv : ik * mn <= sg * ik + k * l <= k + ik * mx).
  { destruct Hcase as [(Hs & Hl) | (Hs & Hl)]; rewrite Hs.
    - assert (0 <= mx * ik) by nra.
      assert (ik * mn <= k * l) by nra.
      assert (k * l <= k) by nra. lra.
    - assert (mn * ik <= 0) by nra.
      assert (0 <= k * l) by nra.
      assert (k * l <= k * (k + ik * mx)) by nra.
      assert (k * (k + ik * mx) <= k + ik * mx) by nra.
      split; [nra | lra]. }
  split; [exact Hv|]. split; [|repeat split].
  set (v := sg * ik + k * l) in *. clearbody v.
  repeat (split; [assumption|]).
  destruct (Qleb_reflect 1 v) as [H1|H1];
    [|destruct (Qleb_reflect v 0) as [H0|H0]].
  - right. split; [reflexivity | lra].
  - left. split; [reflexivity | lra].
  - destruct Hcase as [(Hs & Hl) | (Hs & Hl)]; [left | right];
      (split; [exact Hs | lra]).
Qed.

Lemma rlx_run (n : nat) : forall lp : lfoparams,
  lfo_type lp = RELAX -> rlx_inv (rlx lp) ->
  Forall (fun v => rlx_ik (rlx lp) * rlx_min (rlx lp) <= v
                   <= rlx_k (rlx lp) + rlx_ik (rlx lp) * rlx_max (rlx lp))
    (fst (run_lfo_n n lp)).
Proof.
  induction n as [|n IH]; intros lp Ht Hinv; cbn [run_lfo_n].
  - constructor.
  - pose proof (run_lfo_type lp) as Ht1.
    assert (Hrun : run_lfo lp = run_rlx_lfo lp)
      by (unfold run_lfo; rewrite Ht; reflexivity).
    destruct (rlx_step lp Hinv) as (Hv & Hinv1 & Hk & Hik & Hmx & Hmn).
    rewrite Hrun in *.
    destruct (run_rlx_lfo lp) as [v lp1]. cbn [fst snd] in *.
    assert (Ht' : lfo_type lp1 = RELAX) by congruence.
    specialize (IH lp1 Ht' Hinv1). rewrite Hk, Hik, Hmx, Hmn in IH.
    destruct (run_lfo_n n lp1) as [vs lp2]. cbn [fst] in *.
    constructor; assumption.
Qed.

(** One step of the exponential recurrence keeps [exp_inv]. *)
Lemma exp_step (lp : lfoparams) :
  exp_inv (expo lp) ->
  let e := expo lp in
  let e' := expo (snd (run_exp_lfo lp)) in
  exp_min e * exp_ik e - exp_min e <= fst (run_exp_lfo lp)
    <= exp_max e * exp_k e - exp_min e /\
  exp_inv e' /\
  exp_k e' = exp_k e /\ exp_ik e' = exp_ik e /\
  exp_max e' = exp_max e /\ exp_min e' = exp_min e.
Proof.
  intros (Hik & Hk & Hmm & Hsv & Hcase). cbv zeta.
  unfold run_exp_lfo, exp_inv.
  cbn [fst snd expo with_expo exp_k exp_ik exp_x exp_max exp_min exp_sv].
  set (k := exp_k (expo lp)) in *. set (ik := exp_ik (expo lp)) in *.
  set (x := exp_x (expo lp)) in *. set (mx := exp_max (expo lp)) in *.
  set (mn := exp_min (expo lp)) in *. set (sv := exp_sv (expo lp)) in *.
  clearbody k ik x mx mn sv.
  assert (Hk1 : 1 < k) by nra.
  assert (Hsv0 : 0 < sv) by nra.
  assert (Hv : mn * ik <= sv * x <= mx * k).
  { destruct Hcase as [(Hx & Hl) | (Hx & Hl)]; rewrite Hx; split; nra. }
  split; [lra|]. split; [|repeat split].
  set (v := sv * x) in *. clearbody v.
  repeat (split; [assumption|]).
  destruct (Qleb_reflect mx v) as [H1|H1];
    [|destruct (Qleb_reflect v mn) as [H0|H0]].
  - left. split; [reflexivity | lra].
  - right. split; [reflexivity | lra].
  - destruct Hcase as [(Hx & Hl) | (Hx & Hl)]; [left | right];
      (split; [exact Hx | lra]).
Qed.

Lemma exp_run (n : nat) : forall lp : lfoparams,
  lfo_type lp = EXP -> exp_inv (expo lp) ->
  Forall (fun v => exp_min (expo lp) * exp_ik (expo lp) - exp_min (expo lp) <= v
                   <= exp_max (expo lp) * exp_k (expo lp) - exp_min (expo lp))
    (fst (run_lfo_n n lp)).
Proof.
  induction n as [|n IH]; intros lp Ht Hinv; cbn [run_lfo_n].
  - constructor.
  - pose proof (run_lfo_type lp) as Ht1.
    assert (Hrun : run_lfo lp = run_exp_lfo lp)
      by (unfold run_lfo; rewrite Ht; reflexivity).
    destruct (exp_step lp Hinv) as (Hv & Hinv1 & Hk & Hik & Hmx & Hmn).
    rewrite Hrun in *.
    destruct (run_exp_lfo lp) as [v lp1]. cbn [fst snd] in *.
    assert (Ht' : lfo_type lp1 = EXP) by congruence.
    specialize (IH lp1 Ht' Hinv1). rewrite Hk, Hik, Hmx, Hmn in IH.
    destruct (run_lfo_n n lp1) as [vs lp2]. cbn [fst] in *.
    constructor; assumption.
Qed.

(** While the startup delay lasts the integrated triangle returns 0 and
    does not move. *)
Lemma startup_run (n : nat) : forall lp : lfoparams,
  lfo_type lp = INT_TRI ->
  startup_delay (int_tri lp) = Z.of_nat n ->
  fst (run_lfo_n n lp) = replicate n 0 /\
  startup_delay (int_tri (snd (run_lfo_n n lp))) = 0%Z /\
  x (int_tri (snd (run_lfo_n n lp))) = x (int_tri lp) /\
  sign (int_tri (snd (run_lfo_n n lp))) = sign (int_tri lp) /\
  lfo_type (snd (run_lfo_n n lp)) = INT_TRI.
Proof.
  induction n as [|n IH]; intros lp Ht Hd; cbn [run_lfo_n replicate].
  - cbn [fst snd]. repeat split; assumption.
  - assert (Hrun : run_lfo lp = (0, with_int_tri lp (it_startup (int_tri lp)))).
    { unfold run_lfo. rewrite Ht. unfold run_integrated_triangle_lfo.
      rewrite Hd. destruct (Z.gtb_spec (Z.of_nat (S n)) 0); [reflexivity | lia]. }
    rewrite Hrun.
    destruct (IH (with_int_tri lp (it_startup (int_tri lp)))) as
      (Ho & Hs & Hx & Hsg & Ht').
    { exact Ht. }
    { cbn. lia. }
    destruct (run_lfo_n n _) as [vs lp2]. cbn [fst snd] in *.
    repeat split; try assumption. congruence.
Qed.

End LfoMore.

(** X6.  The sine recurrence conserves a quadratic form.  For the three
    types that step the sine block (sine, square, hyper-sine) and any
    number of calls of [run_lfo], the coefficient [ksin] is unchanged and
    [sin_part^2 + cos_part^2 + ksin * sin_part * cos_part] has the value it
    started with: in exact arithmetic the oscillation neither grows nor
    decays. *)
Theorem sine_recurrence_conserves_energy (lp : Lfo.lfoparams) (n : nat) :
  block_of (Lfo.lfo_type lp) = Sine ->
  let lp' := snd (Lfo.run_lfo_n n lp) in
  Lfo.ksin (Lfo.sine lp') = Lfo.ksin (Lfo.sine lp) /\
  sine_energy (Lfo.sine lp') == sine_energy (Lfo.sine lp).
Proof.
  intros Hb. exact (sine_energy_run n lp Hb).
Qed.

Lemma sine_recurrence_conserves_energy_witness :
  let lp' := snd (Lfo.run_lfo_n 3 (Lfo.set_lfo_type lfo_example Lfo.SQUARE)) in
  Lfo.ksin (Lfo.sine lp')
  = Lfo.ksin (Lfo.sine (Lfo.set_lfo_type lfo_example Lfo.SQUARE)) /\
  sine_energy (Lfo.sine lp')
  == sine_energy (Lfo.sine (Lfo.set_lfo_type lfo_example Lfo.SQUARE)).
Proof.
  apply (sine_recurrence_conserves_energy
           (Lfo.set_lfo_type lfo_example Lfo.SQUARE) 3).
  reflexivity.
Defined.

(** X7.  The sine variant's amplitude is bounded by its initial state.
    With the sine type selected, every value [v] that [run_lfo] returns
    satisfies [(2 v - 1)^2 (4 - ksin^2) <= 4 E], where [E] is the conserved
    form of the state the run started from: for [|ksin| < 2] the value stays
    within [sqrt (E / (4 - ksin^2))] of one half, for as long as the
    oscillator runs. *)
Theorem sine_output_amplitude (lp : Lfo.lfoparams) (n : nat) :
  Lfo.lfo_type lp = Lfo.SINE ->
  let kk := Lfo.ksin (Lfo.sine lp) in
  Forall (fun v => (2 * v - 1) * (2 * v - 1) * (4 - kk * kk)
                   <= 4 * sine_energy (Lfo.sine lp))
    (fst (Lfo.run_lfo_n n lp)).
Proof.
  intros Ht kk.
  apply (sine_amplitude_run n lp (sine_energy (Lfo.sine lp)) kk Ht);
    reflexivity.
Qed.

Lemma sine_output_amplitude_witness :
  let kk := Lfo.ksin (Lfo.sine lfo_example) in
  Forall (fun v => (2 * v - 1) * (2 * v - 1) * (4 - kk * kk)
                   <= 4 * sine_energy (Lfo.sine lfo_example))
    (fst (Lfo.run_lfo_n 4 lfo_example)).
Proof.
  apply (sine_output_amplitude lfo_example 4). reflexivity.
Defined.

(** X8.  The relaxation variant overshoots by at most one step.  From the
    bank [init_lfo] builds (with [M_E > 1] and the filter coefficient
    [k = expf (-2 fosc / fs)] inside (0, 1)), with the relaxation type
    selected, every value [run_lfo] returns lies between
    [(1 - k) (1 - ie)] and [k + (1 - k) ie], where [ie = 1 / (1 - 1 / M_E)]
    is the level it charges toward: below 0 and above 1 by no more than
    [(1 - k) (ie - 1)]. *)
Theorem relaxation_output_bounds
    (M_PI M_E : Q) (sin cos expf : Q -> Q)
    (fosc fs phase : Q) (lp : Lfo.lfoparams) (n : nat) :
  1 < M_E ->
  0 < expf (-2 * fosc / fs) < 1 ->
  Lfo.init_lfo M_PI M_E sin cos expf fosc fs phase = Ok lp ->
  let k := expf (-2 * fosc / fs) in
  let ie := 1 / (1 - 1 / M_E) in
  Forall (fun v => (1 - k) * (1 - ie) <= v <= k + (1 - k) * ie)
    (fst (Lfo.run_lfo_n n (Lfo.set_lfo_type lp Lfo.RELAX))).
Proof.
  intros He Hk Hinit k ie.
  unfold Lfo.init_lfo in Hinit. cbv zeta in Hinit.
  apply bind_Ok in Hinit as (phdly & _ & Hinit).
  assert (Hie : 1 < ie).
  { unfold ie.
    assert (Hm : 0 < 1 / M_E < 1)
      by (split; [apply Qlt_shift_div_l | apply Qlt_shift_div_r]; lra).
    apply Qlt_shift_div_l; lra. }
  assert (Hgoal : forall lp0,
            Lfo.lfo_type lp0 = Lfo.RELAX ->
            Lfo.rlx lp0 = Lfo.mkRlx k (1 - k) ie ie (1 - ie) 0 ->
            Forall (fun v => (1 - k) * (1 - ie) <= v <= k + (1 - k) * ie)
              (fst (Lfo.run_lfo_n n lp0))).
  { intros lp0 Ht Hrx.
    assert (Hinv : rlx_inv (Lfo.rlx lp0)).
    { rewrite Hrx. unfold rlx_inv.
      cbn [Lfo.rlx_k Lfo.rlx_ik Lfo.rlx_sign Lfo.rlx_max Lfo.rlx_min
           Lfo.rlx_lfo].
      fold k in Hk. clearbody k ie.
      repeat split; try lra.
      left. split; [reflexivity | split; [nra | lra]]. }
    pose proof (rlx_run n lp0 Ht Hinv) as Hrun. rewrite Hrx in Hrun.
    cbn [Lfo.rlx_k Lfo.rlx_ik Lfo.rlx_max Lfo.rlx_min] in Hrun.
    exact Hrun. }
  destruct (_ >=? _) in Hinit; destruct (_ <? _) in Hinit;
    injection Hinit as <-; apply Hgoal; reflexivity.
Qed.

Lemma relaxation_output_bounds_witness :
  let k := expf_q (-2 * 1.5 / 8) in
  let ie := 1 / (1 - 1 / M_E_q) in
  Forall (fun v => (1 - k) * (1 - ie) <= v <= k + (1 - k) * ie)
    (fst (Lfo.run_lfo_n 3 (Lfo.set_lfo_type lfo_initial_q Lfo.RELAX))).
Proof.
  apply (relaxation_output_bounds M_PI_q M_E_q sin_q cos_q expf_q 1.5 8 0
           lfo_initial_q 3).
  - reflexivity.
  - vm_compute. split; reflexivity.
  - vm_compute. reflexivity.
Defined.

(** X9.  The exponential variant overshoots by at most one step.  From the
    bank [init_lfo] builds (with [M_E > 0] and the decay factor
    [k = expf (-2 * 1.3133 * fosc / fs)] inside (0, 1)), with the
    exponential type selected, the level stays between [exp_min * k] and
    [exp_max / k], so every value [run_lfo] returns lies between
    [- (1 - k) / M_E] and [(1 + 1 / M_E) / k - 1 / M_E]. *)
Theorem exponential_output_bounds
    (M_PI M_E : Q) (sin cos expf : Q -> Q)
    (fosc fs phase : Q) (lp : Lfo.lfoparams) (n : nat) :
  0 < M_E ->
  0 < expf (-2 * 1.3133 * fosc / fs) < 1 ->
  Lfo.init_lfo M_PI M_E sin cos expf fosc fs phase = Ok lp ->
  let k := expf (-2 * 1.3133 * fosc / fs) in
  let lo := 1 / M_E in
  Forall (fun v => - ((1 - k) * lo) <= v <= (1 + lo) * (1 / k) - lo)
    (fst (Lfo.run_lfo_n n (Lfo.set_lfo_type lp Lfo.EXP))).
Proof.
  intros He Hk Hinit k lo.
  unfold Lfo.init_lfo in Hinit. cbv zeta in Hinit.
  apply bind_Ok in Hinit as (phdly & _ & Hinit).
  assert (Hlo : 0 < lo) by (unfold lo; apply Qlt_shift_div_l; lra).
  assert (Hkk : (1 / k) * k == 1) by (field; fold k in Hk; lra).
  assert (Hgoal : forall lp0,
            Lfo.lfo_type lp0 = Lfo.EXP ->
            Lfo.expo lp0 = Lfo.mkExp k (1 / k) k lo (1 + lo) lo ->
            Forall (fun v => - ((1 - k) * lo) <= v <= (1 + lo) * (1 / k) - lo)
              (fst (Lfo.run_lfo_n n lp0))).
  { intros lp0 Ht Hex.
    assert (Hinv : exp_inv (Lfo.expo lp0)).
    { rewrite Hex. unfold exp_inv.
      cbn [Lfo.exp_k Lfo.exp_ik Lfo.exp_x Lfo.exp_max Lfo.exp_min Lfo.exp_sv].
      fold k in Hk. set (ik := 1 / k) in *. clearbody k lo ik.
      assert (1 < ik) by nra.
      repeat split; try lra; try nra. }
    pose proof (exp_run n lp0 Ht Hinv) as Hrun. rewrite Hex in Hrun.
    cbn [Lfo.exp_k Lfo.exp_ik Lfo.exp_max Lfo.exp_min] in Hrun.
    eapply Forall_impl; [exact Hrun|].
    intros v Hv. cbv beta in Hv. lra. }
  destruct (_ >=? _) in Hinit; destruct (_ <? _) in Hinit;
    injection Hinit as <-; apply Hgoal; reflexivity.
Qed.

Lemma exponential_output_bounds_witness :
  let k := expf_q (-2 * 1.3133 * 1.5 / 8) in
  let lo := 1 / M_E_q in
  Forall (fun v => - ((1 - k) * lo) <= v <= (1 + lo) * (1 / k) - lo)
    (fst (Lfo.run_lfo_n 3 (Lfo.set_lfo_type lfo_initial_q Lfo.EXP))).
Proof.
  apply (exponential_output_bounds M_PI_q M_E_q sin_q cos_q expf_q 1.5 8 0
           lfo_initial_q 3).
  - reflexivity.
  - vm_compute. split; reflexivity.
  - vm_compute. reflexivity.
Defined.

(** A conversion to [int] that is defined gives the truncation. *)
Lemma float_to_int_inv (x : Q) (z : Z) :
  float_to_int x = Ok z -> z = Qtrunc x.
Proof.
  unfold float_to_int. cbv zeta.
  destruct (_ && _)%bool; intros H; [|discriminate].
  injection H as <-. reflexivity.
Qed.

(** [if(p < 0.0) p = -p;] takes the magnitude. *)
Lemma startup_chain_abs (q frq fs : Q) :
  f32 (f32 ((if q <? 0 then - q else q) / frq) * fs)
  = f32 (f32 (Qabs q / frq) * fs).
Proof.
  assert (E : (if q <? 0 then - q else q) == Qabs q).
  { destruct (Qltb_reflect q 0) as [Hneg|Hpos].
    - rewrite (Qabs_neg q) by lra. reflexivity.
    - rewrite (Qabs_pos q) by lra. reflexivity. }
  rewrite E. reflexivity.
Qed.

Lemma startup_chain_nonneg (q frq fs : Q) :
  0 < frq -> 0 < fs -> 0 <= f32 (f32 (Qabs q / frq) * fs).
Proof.
  intros Hfrq Hfs. apply f32_nonneg.
  assert (0 <= f32 (Qabs q / frq)).
  { apply f32_nonneg. apply Qle_shift_div_l; [lra|].
    pose proof (Qabs_nonneg q). lra. }
  nra.
Qed.

(** X10.  A phase offset delays the integrated triangle.  For a positive
    rate and sample rate, [init_lfo] sets the startup delay to the phase
    offset's share of one period as [float] arithmetic gives it: the
    magnitude of [phase / 180] (a [double] stored in a [float]), divided by
    twice the rate and multiplied by the sample rate, each a rounded
    [float] operation, and then rounded toward zero (a negative phase
    delays like a positive one).  For that many calls [run_lfo] returns 0
    and leaves the oscillator where it was, and the delay is then used
    up. *)
Theorem phase_delays_integrated_triangle
    (M_PI M_E : Q) (sin cos expf : Q -> Q)
    (fosc fs phase : Q) (lp : Lfo.lfoparams) :
  0 < fosc -> 0 < fs ->
  Lfo.init_lfo M_PI M_E sin cos expf fosc fs phase = Ok lp ->
  let p := Qabs (f32 (f64 (phase / 180))) in
  let delay := Qtrunc (f32 (f32 (p / (2 * fosc)) * fs)) in
  let held := Lfo.run_lfo_n (Z.to_nat delay) lp in
  Lfo.startup_delay (Lfo.int_tri lp) = delay /\
  (0 <= delay)%Z /\
  fst held = replicate (Z.to_nat delay) 0 /\
  Lfo.startup_delay (Lfo.int_tri (snd held)) = 0%Z /\
  Lfo.x (Lfo.int_tri (snd held)) = Lfo.x (Lfo.int_tri lp) /\
  Lfo.sign (Lfo.int_tri (snd held)) = Lfo.sign (Lfo.int_tri lp).
Proof.
  intros Hfosc Hfs Hinit p delay held.
  unfold Lfo.init_lfo in Hinit. cbv zeta in Hinit.
  apply bind_Ok in Hinit as (phdly & Hp & Hinit).
  assert (Hd : phdly = delay).
  { destruct (Qeq_bool (2 * fosc) 0); [discriminate|].
    apply float_to_int_inv in Hp. rewrite Hp. unfold delay, p. f_equal.
    apply startup_chain_abs. }
  assert (H0 : (0 <= delay)%Z).
  { unfold delay.
    assert (Hx : 0 <= f32 (f32 (p / (2 * fosc)) * fs)).
    { apply startup_chain_nonneg; lra. }
    rewrite Qtrunc_nonneg by exact Hx.
    change 0%Z with (Qfloor 0). apply Qfloor_resp_le. exact Hx. }
  assert (Ht : Lfo.lfo_type lp = Lfo.INT_TRI /\
               Lfo.startup_delay (Lfo.int_tri lp) = phdly).
  { destruct (_ >=? _) in Hinit; destruct (_ <? _) in Hinit;
      injection Hinit as <-; split; reflexivity. }
  destruct Ht as [Ht Hs]. rewrite Hd in Hs.
  destruct (startup_run (Z.to_nat delay) lp Ht) as (Ho & Hz & Hx & Hsg & _).
  { rewrite Z2Nat.id by exact H0. exact Hs. }
  fold held in Ho, Hz, Hx, Hsg. repeat split; assumption.
Qed.

Lemma phase_delays_integrated_triangle_witness :
  let lp :=
    match init_lfo_q 0.125 100 189 with Ok lp => lp | _ => lfo_example end in
  let p := Qabs (f32 (f64 (189 / 180))) in
  let delay := Qtrunc (f32 (f32 (p / (2 * 0.125)) * 100)) in
  let held := Lfo.run_lfo_n (Z.to_nat delay) lp in
  Lfo.startup_delay (Lfo.int_tri lp) = delay /\
  (0 <= delay)%Z /\
  fst held = replicate (Z.to_nat delay) 0 /\
  Lfo.startup_delay (Lfo.int_tri (snd held)) = 0%Z /\
  Lfo.x (Lfo.int_tri (snd held)) = Lfo.x (Lfo.int_tri lp) /\
  Lfo.sign (Lfo.int_tri (snd held)) = Lfo.sign (Lfo.int_tri lp).
Proof.
  apply (phase_delays_integrated_triangle M_PI_q M_E_q sin_q cos_q expf_q
           0.125 100 189).
  - reflexivity.
  - reflexivity.
  - vm_compute. reflexivity.
Defined.

(** The rounding shows in the count: at 0.125 Hz, 100 samples per second
    and a phase of 189 degrees, all three of them [float]s, the exact
    share of the period is 420 samples and the startup delay is 419. *)
Lemma startup_delay_is_rounded :
  Qtrunc (Qabs 189 / 360 * (100 / 0.125)) = 420%Z /\
  exists lp,
    init_lfo_q 0.125 100 189 = Ok lp /\
    Lfo.startup_delay (Lfo.int_tri lp) = 419%Z.
Proof.
  split; [reflexivity|].
  destruct (init_lfo_q 0.125 100 189) as [lp| |] eqn:E;
    [|vm_compute in E; discriminate E | vm_compute in E; discriminate E].
  exists lp. split; [reflexivity|].
  vm_compute in E. injection E as <-. reflexivity.
Qed.

(** X11.  [update_lfo] at the unchanged rate is the identity.  On the bank
    [init_lfo] returns, with the exponential decay factor below 1,
    [update_lfo] called with the rate and sample rate of the
    initialisation (in exact arithmetic) changes no field: neither a
    coefficient, nor a phase, nor the direction or level of any
    oscillator. *)
Theorem update_lfo_same_rate_is_identity
    (M_PI M_E : Q) (sin cos expf : Q -> Q)
    (fosc fs phase : Q) (lp : Lfo.lfoparams) :
  expf (-2 * 1.3133 * fosc / fs) < 1 ->
  Lfo.init_lfo M_PI M_E sin cos expf fosc fs phase = Ok lp ->
  Lfo.update_lfo M_PI M_E expf lp fosc fs = lp.
Proof.
  intros Hk Hinit.
  unfold Lfo.init_lfo in Hinit. cbv zeta in Hinit.
  apply bind_Ok in Hinit as (phdly & _ & Hinit).
  set (kx := expf (-2 * 1.3133 * fosc / fs)) in *.
  set (m := 1 / M_E) in *.
  assert (Hx : (kx >=? 1) = false) by (destruct (Qleb_reflect 1 kx); [lra | reflexivity]).
  assert (H1 : (m <? m) = false) by (destruct (Qltb_reflect m m); [lra | reflexivity]).
  assert (H2 : (m >? 1 + m) = false)
    by (destruct (Qltb_reflect (1 + m) m); [lra | reflexivity]).
  destruct (_ >=? _) in Hinit; destruct (_ <? _) in Hinit;
    injection Hinit as <-; unfold Lfo.update_lfo;
    cbn [Lfo.int_tri Lfo.tri Lfo.sine Lfo.rlx Lfo.expo Lfo.lfo_type
         Lfo.startup_delay Lfo.k Lfo.nk Lfo.psign Lfo.nsign Lfo.sign
         Lfo.lfo Lfo.x Lfo.trisign Lfo.trilfo Lfo.sin_part Lfo.cos_part
         Lfo.rlx_sign Lfo.rlx_max Lfo.rlx_min Lfo.rlx_lfo
         Lfo.exp_x Lfo.exp_sv];
    fold kx; fold m; rewrite Hx, H1, H2; reflexivity.
Qed.

Lemma update_lfo_same_rate_is_identity_witness :
  Lfo.update_lfo M_PI_q M_E_q expf_q lfo_initial_q 1.5 8 = lfo_initial_q.
Proof.
  apply (update_lfo_same_rate_is_identity M_PI_q M_E_q sin_q cos_q expf_q
           1.5 8 0 lfo_initial_q).
  - vm_compute. reflexivity.
  - vm_compute. reflexivity.
Defined.

(** X12.  A later [update_lfo] overrides an earlier one.  When the first
    rate's exponential decay factor lies inside (0, 1), updating to that
    rate and then to a second one leaves exactly the state that updating to
    the second rate alone leaves: the first update is forgotten, and the
    direction of the exponential oscillator and every phase survive
    both. *)
Theorem update_lfo_last_wins
    (M_PI M_E : Q) (expf : Q -> Q)
    (lp : Lfo.lfoparams) (fosc1 fs1 fosc2 fs2 : Q) :
  0 < expf (-2 * 1.3133 * fosc1 / fs1) < 1 ->
  Lfo.update_lfo M_PI M_E expf
    (Lfo.update_lfo M_PI M_E expf lp fosc1 fs1) fosc2 fs2
  = Lfo.update_lfo M_PI M_E expf lp fosc2 fs2.
Proof.
  intros Hk. unfold Lfo.update_lfo.
  cbn [Lfo.int_tri Lfo.tri Lfo.sine Lfo.rlx Lfo.expo Lfo.lfo_type
       Lfo.startup_delay Lfo.k Lfo.nk Lfo.psign Lfo.nsign Lfo.sign
       Lfo.lfo Lfo.x Lfo.trisign Lfo.trilfo Lfo.sin_part Lfo.cos_part
       Lfo.rlx_sign Lfo.rlx_max Lfo.rlx_min Lfo.rlx_lfo
       Lfo.exp_x Lfo.exp_sv].
  set (k1 := expf (-2 * 1.3133 * fosc1 / fs1)) in *.
  set (k2 := expf (-2 * 1.3133 * fosc2 / fs2)).
  set (m := 1 / M_E).
  set (x0 := Lfo.exp_x (Lfo.expo lp)). set (sv := Lfo.exp_sv (Lfo.expo lp)).
  assert (Hinv : 1 <= 1 / k1) by (apply Qle_shift_div_l; lra).
  assert (Hx : ((if x0 >=? 1 then 1 / k1 else k1) >=? 1) = (x0 >=? 1)).
  { destruct (Qleb_reflect 1 x0).
    - destruct (Qleb_reflect 1 (1 / k1)); [reflexivity | contradiction].
    - destruct (Qleb_reflect 1 k1); [lra | reflexivity]. }
  rewrite Hx.
  set (cl := fun s : Q =>
               if (if s <? m then m else s) >? 1 + m then 1 + m
               else (if s <? m then m else s)).
  assert (Hsv : cl (cl sv) = cl sv).
  { clearbody m sv.
    assert (Hc : forall s, m <= s <= 1 + m -> cl s = s).
    { intros s Hs. unfold cl.
      destruct (Qltb_reflect s m); [lra|].
      destruct (Qltb_reflect (1 + m) s); [lra | reflexivity]. }
    assert (Hr : cl sv = m \/ cl sv = 1 + m \/ (cl sv = sv /\ m <= sv <= 1 + m)).
    { unfold cl. destruct (Qltb_reflect sv m).
      - destruct (Qltb_reflect (1 + m) m); [lra | left; reflexivity].
      - destruct (Qltb_reflect (1 + m) sv).
        + right. left. reflexivity.
        + right. right. split; [reflexivity | lra]. }
    destruct Hr as [Hr | [Hr | [Hr Hs]]]; rewrite Hr; apply Hc; lra. }
  unfold cl in Hsv. rewrite Hsv. reflexivity.
Qed.

Lemma update_lfo_last_wins_witness :
  Lfo.update_lfo M_PI_q M_E_q expf_q
    (Lfo.update_lfo M_PI_q M_E_q expf_q lfo_example 1.5 8) 0.5 8
  = Lfo.update_lfo M_PI_q M_E_q expf_q lfo_example 0.5 8.
Proof.
  apply (update_lfo_last_wins M_PI_q M_E_q expf_q lfo_example 1.5 8 0.5 8).
  vm_compute. split; reflexivity.
Defined.

(** X13.  The square variant is bounded whatever the sine oscillator does.
    With the square type selected, the value [v] that [run_lfo] returns
    satisfies [-1 < 30 v < 31], that is, it lies strictly between [-1/30]
    and [1 + 1/30], for every state of the bank: the clipping curve keeps
    it that close to [[0, 1]] even when the sine oscillator's amplitude is
    far above 1. *)
Theorem square_stays_near_unit (lp : Lfo.lfoparams) :
  Lfo.lfo_type lp = Lfo.SQUARE ->
  -1 < 30 * fst (Lfo.run_lfo lp) < 31.
Proof.
  intros Ht. unfold Lfo.run_lfo. rewrite Ht.
  destruct (Lfo.run_sine_lfo lp) as [v lp1]. cbn [fst].
  set (y := v - 0.5). clearbody y.
  destruct (Qltb_reflect 0 y) as [Hpos|Hneg].
  - set (w := 1 / (1 + 30 * y)).
    assert (Hw : w * (1 + 30 * y) == 1) by (unfold w; field; lra).
    assert (Hw0 : 0 < w) by (unfold w; apply Qlt_shift_div_l; lra).
    clearbody w.
    assert (0 < y * w) by nra.
    split; lra.
  - set (w := 1 / (1 - 30 * y)).
    assert (Hw : w * (1 - 30 * y) == 1) by (unfold w; field; lra).
    assert (Hw0 : 0 < w) by (unfold w; apply Qlt_shift_div_l; lra).
    clearbody w.
    assert (y * w <= 0) by nra.
    split; lra.
Qed.

Lemma square_stays_near_unit_witness :
  -1 < 30 * fst (Lfo.run_lfo (Lfo.set_lfo_type lfo_example Lfo.SQUARE)) < 31.
Proof.
  apply (square_stays_near_unit (Lfo.set_lfo_type lfo_example Lfo.SQUARE)).
  reflexivity.
Defined.

(** The three courses of one step of the integrated triangle. *)
Lemma int_tri_waits (lp : Lfo.lfoparams) :
  (Lfo.startup_delay (Lfo.int_tri lp) > 0)%Z ->
  Lfo.run_integrated_triangle_lfo lp
  = (0, Lfo.with_int_tri lp (Lfo.it_startup (Lfo.int_tri lp))).
Proof.
  intros H. unfold Lfo.run_integrated_triangle_lfo.
  destruct (Z.gtb_spec (Lfo.startup_delay (Lfo.int_tri lp)) 0);
    [reflexivity | lia].
Qed.

Lemma int_tri_moves (lp : Lfo.lfoparams) :
  (Lfo.startup_delay (Lfo.int_tri lp) <= 0)%Z ->
  Lfo.nk (Lfo.int_tri lp)
  < Lfo.x (Lfo.int_tri lp) + Lfo.sign (Lfo.int_tri lp)
  < Lfo.k (Lfo.int_tri lp) ->
  let i := Lfo.int_tri lp in
  let x1 := Lfo.x i + Lfo.sign i in
  let l0 := Lfo.lfo i + x1 in
  let l := if (if l0 >? 1 then 1 else l0) <? 0 then 0
           else (if l0 >? 1 then 1 else l0) in
  Lfo.run_integrated_triangle_lfo lp
  = (l, Lfo.with_int_tri lp (Lfo.it_out (Lfo.it_move i x1) l)).
Proof.
  intros Hd Hx. cbv zeta. unfold Lfo.run_integrated_triangle_lfo.
  destruct (Z.gtb_spec (Lfo.startup_delay (Lfo.int_tri lp)) 0); [lia|].
  cbv zeta.
  destruct (Qleb_reflect (Lfo.k (Lfo.int_tri lp))
              (Lfo.x (Lfo.int_tri lp) + Lfo.sign (Lfo.int_tri lp))); [lra|].
  destruct (Qleb_reflect
              (Lfo.x (Lfo.int_tri lp) + Lfo.sign (Lfo.int_tri lp))
              (Lfo.nk (Lfo.int_tri lp))); [lra|].
  reflexivity.
Qed.

Lemma int_tri_turns_down (lp : Lfo.lfoparams) :
  (Lfo.startup_delay (Lfo.int_tri lp) <= 0)%Z ->
  Lfo.k (Lfo.int_tri lp)
  <= Lfo.x (Lfo.int_tri lp) + Lfo.sign (Lfo.int_tri lp) ->
  let i := Lfo.int_tri lp in
  let i' := Lfo.int_tri (snd (Lfo.run_integrated_triangle_lfo lp)) in
  Lfo.k i' = Lfo.k_ i /\ Lfo.nk i' = Lfo.nk_ i /\
  Lfo.x i' = Lfo.k_ i /\ Lfo.sign i' = Lfo.nsign_ i.
Proof.
  intros Hd Hx. cbv zeta. unfold Lfo.run_integrated_triangle_lfo.
  destruct (Z.gtb_spec (Lfo.startup_delay (Lfo.int_tri lp)) 0); [lia|].
  cbv zeta.
  destruct (Qleb_reflect (Lfo.k (Lfo.int_tri lp))
              (Lfo.x (Lfo.int_tri lp) + Lfo.sign (Lfo.int_tri lp)));
    [|contradiction].
  repeat split.
Qed.

(** X14.  A rate change waits for the turning point.  With the integrated
    triangle selected, [update_lfo] only stores the new bounds and slopes
    beside the running ones.  If the next step of the oscillator does not
    reach a bound (or the startup delay is still running), stepping after
    the update returns the same value as stepping before it and leaves the
    same state as updating afterwards.  If the step reaches the upper
    bound, the oscillator turns and from there on runs with the bounds and
    the downward slope of the new rate. *)
Theorem rate_change_waits_for_turning_point
    (M_PI M_E : Q) (expf : Q -> Q) (lp : Lfo.lfoparams) (fosc fs : Q) :
  Lfo.lfo_type lp = Lfo.INT_TRI ->
  let i := Lfo.int_tri lp in
  let updated := Lfo.update_lfo M_PI M_E expf lp fosc fs in
  ((Lfo.startup_delay i > 0)%Z \/
   ((Lfo.startup_delay i <= 0)%Z /\
    Lfo.nk i < Lfo.x i + Lfo.sign i < Lfo.k i) ->
   Lfo.run_lfo updated
   = (fst (Lfo.run_lfo lp),
      Lfo.update_lfo M_PI M_E expf (snd (Lfo.run_lfo lp)) fosc fs)) /\
  ((Lfo.startup_delay i <= 0)%Z -> Lfo.k i <= Lfo.x i + Lfo.sign i ->
   let i' := Lfo.int_tri (snd (Lfo.run_lfo updated)) in
   let step := 2 * (1 / fs) * (2 * fosc) in
   Lfo.k i' = step /\ Lfo.nk i' = -2 * (1 / fs) * (2 * fosc) /\
   Lfo.x i' = step /\
   Lfo.sign i' = - (4 * (2 * fosc) * (2 * fosc) * (1 / fs) * (1 / fs))).
Proof.
  intros Ht i updated.
  assert (Hrun : Lfo.run_lfo lp = Lfo.run_integrated_triangle_lfo lp)
    by (unfold Lfo.run_lfo; rewrite Ht; reflexivity).
  assert (Hrun' : Lfo.run_lfo updated
                  = Lfo.run_integrated_triangle_lfo updated).
  { unfold Lfo.run_lfo.
    replace (Lfo.lfo_type updated) with (Lfo.lfo_type lp) by reflexivity.
    rewrite Ht. reflexivity. }
  rewrite Hrun, Hrun'. split.
  - intros [Hpos | [Hd Hx]].
    + rewrite (int_tri_waits updated) by exact Hpos.
      rewrite (int_tri_waits lp) by exact Hpos. reflexivity.
    + rewrite (int_tri_moves updated Hd Hx).
      rewrite (int_tri_moves lp Hd Hx). reflexivity.
  - intros Hd Hx.
    exact (int_tri_turns_down updated Hd Hx).
Qed.

Lemma rate_change_waits_for_turning_point_witness :
  let lp := Lfo.set_lfo_type lfo_example Lfo.INT_TRI in
  let i := Lfo.int_tri lp in
  let updated := Lfo.update_lfo M_PI_q M_E_q expf_q lp 0.5 8 in
  ((Lfo.startup_delay i > 0)%Z \/
   ((Lfo.startup_delay i <= 0)%Z /\
    Lfo.nk i < Lfo.x i + Lfo.sign i < Lfo.k i) ->
   Lfo.run_lfo updated
   = (fst (Lfo.run_lfo lp),
      Lfo.update_lfo M_PI_q M_E_q expf_q (snd (Lfo.run_lfo lp)) 0.5 8)) /\
  ((Lfo.startup_delay i <= 0)%Z -> Lfo.k i <= Lfo.x i + Lfo.sign i ->
   let i' := Lfo.int_tri (snd (Lfo.run_lfo updated)) in
   let step := 2 * (1 / 8) * (2 * 0.5) in
   Lfo.k i' = step /\ Lfo.nk i' = -2 * (1 / 8) * (2 * 0.5) /\
   Lfo.x i' = step /\
   Lfo.sign i' = - (4 * (2 * 0.5) * (2 * 0.5) * (1 / 8) * (1 / 8))).
Proof.
  apply (rate_change_waits_for_turning_point M_PI_q M_E_q expf_q
           (Lfo.set_lfo_type lfo_example Lfo.INT_TRI) 0.5 8).
  reflexivity.
Defined.

(** ** [get_lfo_name] *)

Lemma get_lfo_name_unfold (type : Lfo.lfo_kind) (outstring : chars) :
  get_lfo_name type outstring =
    if (30 <=? length outstring)%nat
    then Ok (String.list_ascii_of_string (lfo_label type)
             ++ replicate (30 - String.length (lfo_label type)) Ascii.zero
             ++ drop 30 outstring)
    else Undefined.
Proof.
  do 30 (destruct outstring as [|? outstring]; [destruct type; reflexivity|]).
  destruct type; reflexivity.
Qed.

Lemma lfo_label_read_back (type : Lfo.lfo_kind) (rest : chars) :
  c_string (String.list_ascii_of_string (lfo_label type)
            ++ replicate (30 - String.length (lfo_label type)) Ascii.zero
            ++ rest)
  = Some (lfo_label type).
Proof. destruct type; reflexivity. Qed.

Lemma lfo_label_inj (t1 t2 : Lfo.lfo_kind) :
  lfo_label t1 = lfo_label t2 -> t1 = t2.
Proof. destruct t1, t2; intros H; first [reflexivity | discriminate H]. Qed.

(** X15.  What [get_lfo_name] leaves in the caller's buffer.  On a buffer
    of at least 30 bytes it writes the label of the type, pads with NUL up
    to byte 30 (every label is at most 28 characters, so the string is
    always terminated) and touches nothing from byte 30 on, so the buffer
    keeps its length; on a buffer shorter than 30 bytes the zeroing loop
    stores past its end, which is undefined, whatever the type. *)
Theorem get_lfo_name_fills_thirty_bytes
    (type : Lfo.lfo_kind) (outstring : chars) :
  get_lfo_name type outstring =
    (if (30 <=? length outstring)%nat
     then Ok (String.list_ascii_of_string (lfo_label type)
              ++ replicate (30 - String.length (lfo_label type)) Ascii.zero
              ++ drop 30 outstring)
     else Undefined) /\
  (String.length (lfo_label type) <= 28)%nat /\
  forall out', get_lfo_name type outstring = Ok out' ->
    length out' = length outstring /\ drop 30 out' = drop 30 outstring.
Proof.
  split; [apply get_lfo_name_unfold|].
  split; [destruct type; cbn; lia|].
  intros out' H. rewrite get_lfo_name_unfold in H.
  destruct (Nat.leb_spec 30 (length outstring)) as [Hlen|Hlen];
    try discriminate.
  injection H as <-.
  assert (Hl : length (String.list_ascii_of_string (lfo_label type)
                       ++ replicate (30 - String.length (lfo_label type))
                            Ascii.zero) = 30%nat)
    by (destruct type; reflexivity).
  rewrite app_assoc. split.
  - rewrite length_app, Hl, length_drop. lia.
  - rewrite drop_app_length' by (symmetry; exact Hl). reflexivity.
Qed.

(** X16.  The name identifies the type.  When [get_lfo_name] has run, the
    C string in the buffer (its bytes up to the first NUL) is the label of
    the type, whatever the buffer held before; and two runs leave the same
    string only for the same type: each of the eight listed types and the
    switch's default has a name of its own. *)
Theorem get_lfo_name_identifies_type
    (t1 t2 : Lfo.lfo_kind) (o1 o2 b1 b2 : chars) :
  get_lfo_name t1 o1 = Ok b1 ->
  get_lfo_name t2 o2 = Ok b2 ->
  c_string b1 = Some (lfo_label t1) /\
  (c_string b1 = c_string b2 -> t1 = t2).
Proof.
  intros H1 H2. rewrite get_lfo_name_unfold in H1, H2.
  destruct (30 <=? length o1)%nat; try discriminate.
  destruct (30 <=? length o2)%nat; try discriminate.
  injection H1 as <-. injection H2 as <-.
  rewrite !lfo_label_read_back. split; [reflexivity|].
  intros H. injection H as H. apply lfo_label_inj. exact H.
Qed.

Lemma get_lfo_name_identifies_type_witness :
  let b1 := match get_lfo_name Lfo.INT_TRI chars_example with
            | Ok b => b | _ => [] end in
  let b2 := match get_lfo_name Lfo.UNLISTED chars_example with
            | Ok b => b | _ => [] end in
  c_string b1 = Some (lfo_label Lfo.INT_TRI) /\
  (c_string b1 = c_string b2 -> Lfo.INT_TRI = Lfo.UNLISTED).
Proof.
  apply (get_lfo_name_identifies_type Lfo.INT_TRI Lfo.UNLISTED
           chars_example chars_example).
  - vm_compute. reflexivity.
  - vm_compute. reflexivity.
Defined.

(** * Further properties of the per-sample loop *)

(** [setup] always returns: the phase it initialises the LFO with is 0, so
    the startup delay converts. *)
Lemma setup_runs (M_PI M_E : Q) (sin cos expf : Q -> Q)
    (audioFrames analogFrames : Z) (audioSampleRate : Q) :
  exists s,
    setup M_PI M_E sin cos expf audioFrames analogFrames audioSampleRate = Ok s.
Proof.
  unfold setup. rewrite delayEffect_constructed. cbn [bind]. cbv zeta.
  unfold Lfo.init_lfo. cbv zeta.
  replace (Qeq_bool (2 * 0.1) 0) with false by reflexivity.
  assert (E : f32 ((if f32 (f64 (0 / 180)) <? 0
                    then - f32 (f64 (0 / 180))
                    else f32 (f64 (0 / 180))) / (2 * 0.1)) = 0)
    by (vm_compute; reflexivity).
  rewrite E.
  rewrite (f32_comp (0 * audioSampleRate) 0) by ring.
  replace (float_to_int (f32 0)) with (Ok 0%Z : result Z) by reflexivity.
  cbn [bind].
  destruct (_ >=? _); destruct (_ <? _); eexists; reflexivity.
Qed.

Lemma render_blocks_keeps_ok (fuel : nat) (blocks : list (list Frame)) :
  forall s : Session,
  session_ok s -> Forall (Forall frame_ok) blocks -> (1 <= fuel)%nat ->
  exists outs s',
    render_blocks fuel blocks s = Ok (outs, s') /\
    Forall2 (fun o b => length o = length b) outs blocks /\
    session_ok s'.
Proof.
  induction blocks as [|b blocks IH]; intros s Hok Hbs Hfuel;
    cbn [render_blocks].
  - exists [], s. split; [reflexivity|]. split; [constructor | exact Hok].
  - apply Forall_cons in Hbs as [Hb Hbs]. unfold render.
    destruct (render_from_keeps_ok fuel b 0 s Hok Hb Hfuel)
      as (o & s1 & -> & Hlen & Hok1).
    cbn [bind].
    destruct (IH s1 Hok1 Hbs Hfuel) as (os & s2 & -> & Hlens & Hok2).
    cbn [bind]. exists (o :: os), s2.
    split; [reflexivity|]. split; [constructor; assumption | exact Hok2].
Qed.

(** X17.  The program never leaves defined behaviour.  [setup] returns for
    every context, leaving the looper idle on a zeroed buffer of 882000
    slots with the sine LFO selected; and from the session it leaves, over
    any number of blocks of audio frames whose speed knob reads within
    [[0, 1]], every call of [render] runs to the end with one unit of fuel
    for the delay line's wrap loops and puts out one sample per frame: no
    index leaves its buffer, no conversion or remainder is undefined, no
    loop fails to end. *)
Theorem render_never_goes_wrong
    (M_PI M_E : Q) (sin cos expf : Q -> Q)
    (audioFrames analogFrames : Z) (audioSampleRate : Q)
    (fuel : nat) (blocks : list (list Frame)) :
  (1 <= fuel)%nat ->
  Forall (Forall frame_ok) blocks ->
  exists s0 outs s',
    setup M_PI M_E sin cos expf audioFrames analogFrames audioSampleRate
    = Ok s0 /\
    gBufferSize s0 = 882000%Z /\
    gAudioBuffer s0 = vec_fill (Z.to_nat 882000) 0 /\
    gRecording s0 = false /\ gPlaying s0 = false /\
    Lfo.lfo_type (gLFO s0) = Lfo.SINE /\
    render_blocks fuel blocks s0 = Ok (outs, s') /\
    Forall2 (fun o b => length o = length b) outs blocks /\
    session_ok s'.
Proof.
  intros Hfuel Hbs.
  destruct (setup_runs M_PI M_E sin cos expf audioFrames analogFrames
              audioSampleRate) as [s0 Hs0].
  destruct (setup_ok _ _ _ _ _ _ _ _ _ Hs0) as (Hok & Hsz & Hty & Hr & Hp & _).
  destruct (render_blocks_keeps_ok fuel blocks s0 Hok Hbs Hfuel)
    as (outs & s' & Hrun & Hlen & Hok').
  exists s0, outs, s'. repeat (split; [assumption|]).
  split; [|repeat (split; [assumption|]); assumption].
  unfold setup in Hs0. rewrite delayEffect_constructed in Hs0.
  cbn [bind] in Hs0. cbv zeta in Hs0.
  apply bind_Ok in Hs0 as (lp & _ & Hs0). injection Hs0 as <-. reflexivity.
Qed.

Lemma render_never_goes_wrong_witness :
  exists s0 outs s',
    setup M_PI_q M_E_q sin_q cos_q expf_q 16 8 44100 = Ok s0 /\
    gBufferSize s0 = 882000%Z /\
    gAudioBuffer s0 = vec_fill (Z.to_nat 882000) 0 /\
    gRecording s0 = false /\ gPlaying s0 = false /\
    Lfo.lfo_type (gLFO s0) = Lfo.SINE /\
    render_blocks 1 [[frame_idle; frame_clear]; frames_held] s0
    = Ok (outs, s') /\
    Forall2 (fun o b => length o = length b) outs
      [[frame_idle; frame_clear]; frames_held] /\
    session_ok s'.
Proof.
  apply (render_never_goes_wrong M_PI_q M_E_q sin_q cos_q expf_q 16 8 44100 1
           [[frame_idle; frame_clear]; frames_held]).
  - lia.
  - repeat constructor; discriminate.
Defined.

(** ** The transport *)

Lemma record_play_toggle_transport (f : Frame) (s : Session) :
  transport_inv s -> transport_inv (record_play_toggle f s).
Proof.
  unfold transport_inv, record_play_toggle. intros [Hp Hl].
  destruct (_ && _)%bool; [destruct (gRecording s) eqn:E|];
    cbn [with_lastButton with_transport gRecording gPlaying ledPin];
    rewrite ?E; split;
    first [exact Hp | exact Hl | reflexivity | intros; discriminate].
Qed.

Lemma clear_buffer_transport (f : Frame) (s : Session) :
  transport_inv s -> transport_inv (clear_buffer f s).
Proof.
  unfold transport_inv, clear_buffer. intros [Hp Hl]. cbv zeta.
  destruct ((clearButtonState f =? 1)%Z && (localLastClearButtonState s =? 0)%Z);
    destruct (negb (gClearedOnce s));
    destruct ((clearButtonState f =? 0)%Z && (localLastClearButtonState s =? 1)%Z);
    cbn [with_lastClearButton with_clearedOnce clear gRecording gPlaying
         ledPin];
    split; first [exact Hp | exact Hl | reflexivity | intros; discriminate].
Qed.

Lemma render_frame_transport
    (fuel : nat) (n : Z) (f : Frame) (s s' : Session) (out : Q) :
  render_frame fuel n f s = Ok (out, s') ->
  transport_inv s -> transport_inv s'.
Proof.
  intros H Hinv. apply render_frame_stages in H as (s1 & Hc & Hp).
  apply control_tick_frame in Hc. apply process_frame in Hp.
  assert (H1 : transport_inv s1).
  { unfold transport_inv in *.
    destruct Hc as (_ & _ & _ & _ & _ & -> & -> & _ & _ & _ & ->). exact Hinv. }
  pose proof (clear_buffer_transport f _ (record_play_toggle_transport f _ H1))
    as H2.
  unfold transport_inv in *.
  destruct Hp as (_ & _ & -> & -> & _ & _ & _ & ->). exact H2.
Qed.

(** X18.  The LED mirrors the recording state.  If, between frames, the LED
    is high exactly when the looper records and recording implies playing
    (as after [setup], with the LED low and the transport stopped), then
    this holds again after any run of frames, whatever the buttons do:
    every write to the LED pin goes with the matching change of the
    recording flag, and no path records without playing.  (The run starts
    from a session that satisfies [session_ok] and is over frames whose
    speed knob reads within [[0, 1]], so it runs to the end.) *)
Theorem led_mirrors_recording
    (fuel : nat) (n : Z) (frames : list Frame) (s : Session) :
  session_ok s -> Forall frame_ok frames -> (1 <= fuel)%nat ->
  transport_inv s ->
  exists outs s',
    render_from fuel n frames s = Ok (outs, s') /\
    (gRecording s' = true -> gPlaying s' = true) /\
    ledPin s' = (if gRecording s' then HIGH else LOW).
Proof.
  intros Hok Hfs Hfuel Hinv.
  destruct (render_from_keeps_ok fuel frames n s Hok Hfs Hfuel)
    as (outs & s' & Hrun & _ & _).
  exists outs, s'. split; [exact Hrun|].
  clear Hok Hfs. revert n s outs Hinv Hrun.
  induction frames as [|f frames IH]; intros n s outs Hinv Hrun;
    cbn [render_from] in Hrun.
  - injection Hrun as _ <-. exact Hinv.
  - apply bind_Ok in Hrun as ([o s1] & Hf & Hrun).
    apply bind_Ok in Hrun as ([os s2] & Hrun & E). injection E as _ <-.
    apply (IH (n + 1)%Z s1 os); [|exact Hrun].
    exact (render_frame_transport fuel n f s s1 o Hf Hinv).
Qed.

Lemma led_mirrors_recording_witness :
  exists outs s',
    render_from 1 0 (frame_clear_and_record :: frames_held) session_example
    = Ok (outs, s') /\
    (gRecording s' = true -> gPlaying s' = true) /\
    ledPin s' = (if gRecording s' then HIGH else LOW).
Proof.
  apply (led_mirrors_recording 1 0 (frame_clear_and_record :: frames_held)
           session_example).
  - exact session_example_ok.
  - repeat constructor; discriminate.
  - lia.
  - split; [discriminate | reflexivity].
Defined.

(** ** What the stages leave alone *)

(** The knob block on the delay line: only the three parameters change. *)
Lemma control_tick_delay (n : Z) (f : Frame) (s s1 : Session) :
  control_tick n f s = Ok s1 ->
  delayBuffer (delayEffect s1) = delayBuffer (delayEffect s) /\
  writePointer (delayEffect s1) = writePointer (delayEffect s) /\
  currentDelayTimeInSamples (delayEffect s1)
  = currentDelayTimeInSamples (delayEffect s) /\
  sampleRate (delayEffect s1) = sampleRate (delayEffect s) /\
  bufferSize (delayEffect s1) = bufferSize (delayEffect s) /\
  gAudioFramesPerAnalogFrame s1 = gAudioFramesPerAnalogFrame s.
Proof.
  unfold control_tick. cbv zeta.
  destruct (negb _ && _)%bool.
  - destruct (Lfo.run_lfo (gLFO s)) as [lfoVal lp].
    intros H. apply bind_Ok in H as (d & Hd & H). injection H as <-.
    apply setDelayTime_fields in Hd. cbn in Hd |- *.
    destruct Hd as (-> & -> & -> & -> & _ & _ & _ & ->). repeat split.
  - intros H. injection H as <-. repeat split.
Qed.

(** (A) and (B) leave the knob block's variables and the delay line
    alone. *)
Lemma buttons_keep_control (f : Frame) (s : Session) :
  let s1 := clear_buffer f (record_play_toggle f s) in
  delayEffect s1 = delayEffect s /\
  gLFO s1 = gLFO s /\
  gPlaybackSpeed s1 = gPlaybackSpeed s /\
  gAudioFramesPerAnalogFrame s1 = gAudioFramesPerAnalogFrame s /\
  gBufferSize s1 = gBufferSize s /\
  localLastButtonState s1 = buttonState f.
Proof.
  unfold clear_buffer, record_play_toggle. cbv zeta.
  repeat match goal with
    | |- context [if ?c then _ else _] => destruct c
    end; repeat split.
Qed.

(** Processing leaves the knob block's variables alone, and of the delay
    line's parameters changes none. *)
Lemma process_keeps_control
    (fuel : nat) (f : Frame) (s s' : Session) (out : Q) :
  process fuel f s = Ok (out, s') ->
  gLFO s' = gLFO s /\
  gPlaybackSpeed s' = gPlaybackSpeed s /\
  gAudioFramesPerAnalogFrame s' = gAudioFramesPerAnalogFrame s /\
  mix (delayEffect s') = mix (delayEffect s) /\
  feedback (delayEffect s') = feedback (delayEffect s) /\
  targetDelayTimeInSamples (delayEffect s')
  = targetDelayTimeInSamples (delayEffect s) /\
  (gRecording s = false ->
   delayEffect s' = delayEffect s /\ gAudioBuffer s' = gAudioBuffer s /\
   gWritePointer s' = gWritePointer s).
Proof.
  unfold process. cbv zeta. intros H.
  apply bind_Ok in H as ([o1 s1] & H1 & H2).
  assert (F1 : gLFO s1 = gLFO s /\
               gPlaybackSpeed s1 = gPlaybackSpeed s /\
               gAudioFramesPerAnalogFrame s1 = gAudioFramesPerAnalogFrame s /\
               mix (delayEffect s1) = mix (delayEffect s) /\
               feedback (delayEffect s1) = feedback (delayEffect s) /\
               targetDelayTimeInSamples (delayEffect s1)
               = targetDelayTimeInSamples (delayEffect s) /\
               (gRecording s = false ->
                delayEffect s1 = delayEffect s /\
                gAudioBuffer s1 = gAudioBuffer s /\
                gWritePointer s1 = gWritePointer s)).
  { destruct (gRecording s) eqn:Er.
    - apply bind_Ok in H1 as ([p d] & Hp & H1).
      apply bind_Ok in H1 as (s2 & H1 & H3). injection H3 as _ <-.
      apply processSample_fields in Hp.
      destruct Hp as (_ & _ & Ht & _ & Hf & Hm & _).
      unfold recordAdd in H1.
      repeat (apply bind_Ok in H1 as (? & _ & H1)).
      injection H1 as <-. cbn. repeat split; try assumption; discriminate.
    - injection H1 as _ <-. repeat split. }
  assert (F2 : gLFO s' = gLFO s1 /\
               gPlaybackSpeed s' = gPlaybackSpeed s1 /\
               gAudioFramesPerAnalogFrame s' = gAudioFramesPerAnalogFrame s1 /\
               delayEffect s' = delayEffect s1 /\
               gAudioBuffer s' = gAudioBuffer s1 /\
               gWritePointer s' = gWritePointer s1).
  { destruct (gPlaying s1).
    - apply bind_Ok in H2 as ([p s2] & H2 & H3). injection H3 as _ <-.
      unfold playbackRead in H2.
      repeat (apply bind_Ok in H2 as (? & _ & H2)).
      injection H2 as _ <-. repeat split.
    - injection H2 as _ <-. repeat split. }
  destruct F2 as (-> & -> & -> & -> & -> & ->). exact F1.
Qed.

(** ** The idle looper *)

Lemma render_frame_idle
    (fuel : nat) (n : Z) (f : Frame) (s s' : Session) (out : Q) :
  render_frame fuel n f s = Ok (out, s') ->
  gRecording s = false -> gPlaying s = false ->
  buttonState f = 0%Z ->
  out = 0 /\
  gRecording s' = false /\ gPlaying s' = false /\
  delayBuffer (delayEffect s') = delayBuffer (delayEffect s) /\
  writePointer (delayEffect s') = writePointer (delayEffect s) /\
  currentDelayTimeInSamples (delayEffect s')
  = currentDelayTimeInSamples (delayEffect s).
Proof.
  intros H Hr Hp Hb. apply render_frame_stages in H as (s1 & Hc & Hproc).
  pose proof (control_tick_frame n f s s1 Hc) as Hk.
  pose proof (control_tick_delay n f s s1 Hc) as Hd.
  pose proof (buttons_keep_control f s1) as Hbk. cbv zeta in Hbk.
  set (s2 := clear_buffer f (record_play_toggle f s1)) in *.
  assert (Hstop : gRecording s2 = false /\ gPlaying s2 = false).
  { unfold s2, clear_buffer, record_play_toggle. rewrite Hb.
    cbn [Z.eqb andb]. cbv zeta.
    assert (Hr1 : gRecording s1 = false) by (rewrite <- Hr; apply Hk).
    assert (Hp1 : gPlaying s1 = false) by (rewrite <- Hp; apply Hk).
    repeat match goal with
      | |- context [if ?c then _ else _] => destruct c
      end; cbn; split; first [assumption | reflexivity]. }
  destruct Hstop as [Hr2 Hp2].
  rewrite (process_stopped fuel f s2 Hr2 Hp2) in Hproc.
  injection Hproc as <- <-.
  split; [reflexivity|]. split; [exact Hr2|]. split; [exact Hp2|].
  destruct Hbk as (-> & _). tauto.
Qed.

(** X19.  The idle looper is silent and deaf.  While the transport is
    stopped and the record button stays up, every frame runs and puts out
    exactly 0, and the transport stays stopped, whatever the audio input
    is and whatever the knobs and the clear button read (for a delay line
    whose sample rate is below 2^31 - 64, so that the [float] product of
    the knob block's [setDelayTime] stays below 2^32): the delay line is
    not run, so its buffer, its write pointer and its smoothed delay are as
    before (the knob block still retargets it). *)
Theorem idle_looper_is_silent
    (fuel : nat) (n : Z) (frames : list Frame) (s : Session) :
  (0 <= sampleRate (delayEffect s) < 2 ^ 31 - 64)%Z ->
  gRecording s = false -> gPlaying s = false ->
  Forall (fun f => buttonState f = 0%Z) frames ->
  exists outs s',
    render_from fuel n frames s = Ok (outs, s') /\
    outs = replicate (length frames) 0 /\
    gRecording s' = false /\ gPlaying s' = false /\
    delayBuffer (delayEffect s') = delayBuffer (delayEffect s) /\
    writePointer (delayEffect s') = writePointer (delayEffect s) /\
    currentDelayTimeInSamples (delayEffect s')
    = currentDelayTimeInSamples (delayEffect s).
Proof.
  intros Hsr Hr Hp Hup. revert n s Hsr Hr Hp.
  induction Hup as [|f frames Hf Hup IH]; intros n s Hsr Hr Hp;
    cbn [render_from length replicate].
  - exists [], s. repeat split; assumption.
  - destruct (control_tick_defined n f s Hsr) as [s1 Htick].
    pose proof (control_tick_frame n f s s1 Htick) as Hk.
    pose proof (control_tick_delay n f s s1 Htick) as (_ & _ & _ & Hsr1 & _).
    pose proof (buttons_keep_control f s1) as (Hd2 & _).
    set (s2 := clear_buffer f (record_play_toggle f s1)) in *.
    assert (Hframe : exists o, render_frame fuel n f s = Ok (o, s2)).
    { unfold render_frame. rewrite Htick. cbn [bind]. fold s2.
      assert (Hstop : gRecording s2 = false /\ gPlaying s2 = false).
      { unfold s2, clear_buffer, record_play_toggle. rewrite Hf.
        cbn [Z.eqb andb]. cbv zeta.
        assert (Hr1 : gRecording s1 = false) by (rewrite <- Hr; apply Hk).
        assert (Hp1 : gPlaying s1 = false) by (rewrite <- Hp; apply Hk).
        repeat match goal with
          | |- context [if ?c then _ else _] => destruct c
          end; cbn; split; first [assumption | reflexivity]. }
      destruct Hstop as [Hr2 Hp2].
      rewrite (process_stopped fuel f s2 Hr2 Hp2). eexists. reflexivity. }
    destruct Hframe as [o Hframe].
    destruct (render_frame_idle fuel n f s s2 o Hframe Hr Hp Hf)
      as (-> & Hr1 & Hp1 & Hb1 & Hw1 & Hc1).
    rewrite Hframe. cbn [bind].
    destruct (IH (n + 1)%Z s2) as (os & s3 & -> & -> & Hr2 & Hp2 & Hb2 & Hw2 & Hc2);
      try assumption.
    { rewrite Hd2, Hsr1. exact Hsr. }
    cbn [bind]. eexists _, _. split; [reflexivity|].
    repeat split; congruence.
Qed.

Lemma idle_looper_is_silent_witness :
  let s := with_transport session_example false false LOW in
  let frames := [frame_idle; frame_clear; mkFrame 0.5 0 0 3 (-1) 7 2] in
  exists outs s',
    render_from 1 0 frames s = Ok (outs, s') /\
    outs = replicate (length frames) 0 /\
    gRecording s' = false /\ gPlaying s' = false /\
    delayBuffer (delayEffect s') = delayBuffer (delayEffect s) /\
    writePointer (delayEffect s') = writePointer (delayEffect s) /\
    currentDelayTimeInSamples (delayEffect s')
    = currentDelayTimeInSamples (delayEffect s).
Proof.
  apply (idle_looper_is_silent 1 0
           [frame_idle; frame_clear; mkFrame 0.5 0 0 3 (-1) 7 2]
           (with_transport session_example false false LOW)).
  - cbn. lia.
  - reflexivity.
  - reflexivity.
  - repeat constructor.
Defined.

(** ** The record button *)

Lemma render_frame_press
    (fuel : nat) (n : Z) (f : Frame) (s s' : Session) (out : Q) :
  render_frame fuel n f s = Ok (out, s') ->
  clearButtonState f = 0%Z ->
  let rising := (buttonState f =? 1)%Z && (localLastButtonState s =? 0)%Z in
  gRecording s' = xorb (gRecording s) rising /\
  gPlaying s' = gPlaying s || rising /\
  localLastButtonState s' = buttonState f.
Proof.
  intros H Hc rising. apply render_frame_stages in H as (s1 & Hk & Hproc).
  apply control_tick_frame in Hk.
  destruct Hk as (_ & _ & _ & _ & _ & Hr & Hp & _ & Hl & _).
  apply process_frame in Hproc.
  destruct Hproc as (_ & _ & -> & -> & _ & -> & _).
  unfold rising. rewrite <- Hr, <- Hp, <- Hl.
  unfold clear_buffer, record_play_toggle. rewrite Hc. cbn [Z.eqb andb].
  cbv zeta.
  destruct ((buttonState f =? 1)%Z && (localLastButtonState s1 =? 0)%Z);
    destruct (gRecording s1) eqn:Er, (gPlaying s1) eqn:Ep;
    repeat match goal with
      | |- context [if ?c then _ else _] => destruct c
      end; cbn; rewrite ?Er, ?Ep; repeat split.
Qed.

Lemma last_button_cons (last : Z) (f : Frame) (frames : list Frame) :
  last_button last (f :: frames) = last_button (buttonState f) frames.
Proof. reflexivity. Qed.

(** X20.  Recording follows the parity of the presses.  Over any run of
    frames in which the clear button stays up, the looper ends up
    recording exactly when it was recording before and the record button
    saw an even number of rising edges, or was not and the number was odd;
    it is playing if it was playing before or the button was pressed at
    all.  A button held down over many frames counts once: only a frame
    that reads 1 after the loop last saw 0 is a press.  (The run starts
    from a session that satisfies [session_ok] and is over frames whose
    speed knob reads within [[0, 1]], so it runs to the end.) *)
Theorem recording_follows_press_parity
    (fuel : nat) (n : Z) (frames : list Frame) (s : Session) :
  session_ok s -> Forall frame_ok frames -> (1 <= fuel)%nat ->
  Forall (fun f => clearButtonState f = 0%Z) frames ->
  let count := presses (localLastButtonState s) frames in
  exists outs s',
    render_from fuel n frames s = Ok (outs, s') /\
    gRecording s' = xorb (gRecording s) (Nat.odd count) /\
    gPlaying s' = gPlaying s || (0 <? count)%nat /\
    localLastButtonState s' = last_button (localLastButtonState s) frames.
Proof.
  intros Hok Hfs Hfuel Hup count.
  destruct (render_from_keeps_ok fuel frames n s Hok Hfs Hfuel)
    as (outs & s' & Hrun & _ & _).
  exists outs, s'. split; [exact Hrun|]. unfold count.
  clear Hok Hfs count. revert n s outs Hrun.
  induction Hup as [|f frames Hf Hup IH]; intros n s outs Hrun;
    cbn [render_from presses] in *.
  - injection Hrun as _ <-. cbn.
    rewrite xorb_false_r, orb_false_r. repeat split.
  - apply bind_Ok in Hrun as ([o s1] & Hframe & Hrun).
    apply bind_Ok in Hrun as ([os s2] & Hrun & E). injection E as _ <-.
    destruct (render_frame_press fuel n f s s1 o Hframe Hf) as (Hr1 & Hp1 & Hl1).
    destruct (IH (n + 1)%Z s1 os Hrun) as (Hr2 & Hp2 & Hl2).
    rewrite Hl1 in Hr2, Hp2, Hl2. rewrite Hr2, Hp2, Hl2, Hr1, Hp1.
    rewrite last_button_cons.
    set (c := presses (buttonState f) frames).
    destruct ((buttonState f =? 1)%Z && (localLastButtonState s =? 0)%Z).
    + change (1 + c)%nat with (S c). rewrite Nat.odd_succ, <- Nat.negb_odd.
      destruct (gRecording s), (gPlaying s), (Nat.odd c); repeat split.
    + change (0 + c)%nat with c.
      rewrite xorb_false_r, orb_false_r. repeat split.
Qed.

Lemma recording_follows_press_parity_witness :
  let frames := [frame_idle; mkFrame 0.25 1 0 0.5 0.5 0.5 0;
                 mkFrame 0.25 1 0 0.5 0.5 0.5 0; frame_idle;
                 mkFrame 0.25 1 0 0.5 0.5 0.5 0] in
  let count := presses (localLastButtonState session_example) frames in
  exists outs s',
    render_from 1 0 frames session_example = Ok (outs, s') /\
    gRecording s' = xorb (gRecording session_example) (Nat.odd count) /\
    gPlaying s' = gPlaying session_example || (0 <? count)%nat /\
    localLastButtonState s'
    = last_button (localLastButtonState session_example) frames.
Proof.
  apply (recording_follows_press_parity 1 0
           [frame_idle; mkFrame 0.25 1 0 0.5 0.5 0.5 0;
            mkFrame 0.25 1 0 0.5 0.5 0.5 0; frame_idle;
            mkFrame 0.25 1 0 0.5 0.5 0.5 0] session_example).
  - exact session_example_ok.
  - repeat constructor; discriminate.
  - lia.
  - repeat constructor.
Defined.

(** ** The knob block *)

Lemma render_frame_no_analog
    (fuel : nat) (n : Z) (f : Frame) (s : Session) :
  session_ok s -> (1 <= fuel)%nat ->
  gAudioFramesPerAnalogFrame s = 0%Z ->
  exists out s',
    render_frame fuel n f s = Ok (out, s') /\
    session_ok s' /\
    gAudioFramesPerAnalogFrame s' = 0%Z /\
    gPlaybackSpeed s' = gPlaybackSpeed s /\
    gLFO s' = gLFO s /\
    mix (delayEffect s') = mix (delayEffect s) /\
    feedback (delayEffect s') = feedback (delayEffect s) /\
    targetDelayTimeInSamples (delayEffect s')
    = targetDelayTimeInSamples (delayEffect s).
Proof.
  intros Hok Hfuel Hg.
  assert (Hc : control_tick n f s = Ok s).
  { unfold control_tick. cbv zeta. rewrite Hg. reflexivity. }
  unfold render_frame. rewrite Hc. cbn [bind].
  pose proof (buttons_keep_control f s) as Hb. cbv zeta in Hb.
  set (s2 := clear_buffer f (record_play_toggle f s)) in *.
  assert (Hok2 : session_ok s2)
    by (apply clear_buffer_keeps_ok, record_play_toggle_keeps_ok; exact Hok).
  destruct (process_keeps_ok fuel f s2 Hok2 Hfuel) as (out & s' & Hp & Hok').
  exists out, s'. split; [exact Hp|]. split; [exact Hok'|].
  apply process_keeps_control in Hp.
  destruct Hp as (-> & -> & -> & -> & -> & -> & _).
  destruct Hb as (-> & -> & -> & -> & _). repeat split. exact Hg.
Qed.

Lemma no_analog_run (fuel : nat) (frames : list Frame) :
  forall (n : Z) (s : Session),
  session_ok s -> (1 <= fuel)%nat ->
  gAudioFramesPerAnalogFrame s = 0%Z ->
  exists outs s',
    render_from fuel n frames s = Ok (outs, s') /\
    length outs = length frames /\
    gPlaybackSpeed s' = gPlaybackSpeed s /\
    gLFO s' = gLFO s /\
    mix (delayEffect s') = mix (delayEffect s) /\
    feedback (delayEffect s') = feedback (delayEffect s) /\
    targetDelayTimeInSamples (delayEffect s')
    = targetDelayTimeInSamples (delayEffect s).
Proof.
  induction frames as [|f frames IH]; intros n s Hok Hfuel Hg;
    cbn [render_from].
  - exists [], s. repeat split.
  - destruct (render_frame_no_analog fuel n f s Hok Hfuel Hg)
      as (o & s1 & -> & Hok1 & Hg1 & Hs1 & Hl1 & Hm1 & Hf1 & Ht1).
    cbn [bind].
    destruct (IH (n + 1)%Z s1 Hok1 Hfuel Hg1)
      as (os & s2 & -> & Hlen & Hs2 & Hl2 & Hm2 & Hf2 & Ht2).
    cbn [bind]. exists (o :: os), s2. cbn [length].
    split; [reflexivity|]. repeat split; congruence.
Qed.

(** X21.  Without analog frames the knobs are never read.  When the context
    has no analog frames, or fewer audio than analog frames, [setup] leaves
    the number of audio frames per analog frame at 0, and the knob block
    of [render] then never runs: over any run of frames, whatever the knobs
    read, the loop runs to the end, the playback speed stays 1, the LFO
    bank is never stepped, and the delay line keeps the mix 0.5, the
    feedback 0.7 and the target delay of 22050 samples it was constructed
    with. *)
Theorem knobs_unread_without_analog_frames
    (M_PI M_E : Q) (sin cos expf : Q -> Q)
    (audioFrames analogFrames : Z) (audioSampleRate : Q) (fuel : nat) :
  (1 <= fuel)%nat ->
  analogFrames = 0%Z \/ (0 <= audioFrames < analogFrames)%Z ->
  exists s0,
    setup M_PI M_E sin cos expf audioFrames analogFrames audioSampleRate
    = Ok s0 /\
    gAudioFramesPerAnalogFrame s0 = 0%Z /\
    forall (n : Z) (frames : list Frame),
    exists outs s',
      render_from fuel n frames s0 = Ok (outs, s') /\
      length outs = length frames /\
      gPlaybackSpeed s' = 1 /\
      gLFO s' = gLFO s0 /\
      mix (delayEffect s') = 0.5 /\
      feedback (delayEffect s') = 0.7 /\
      targetDelayTimeInSamples (delayEffect s') = 22050.
Proof.
  intros Hfuel Hframes.
  destruct (setup_runs M_PI M_E sin cos expf audioFrames analogFrames
              audioSampleRate) as [s0 Hs0].
  destruct (setup_ok _ _ _ _ _ _ _ _ _ Hs0) as (Hok & _).
  exists s0. split; [exact Hs0|].
  unfold setup in Hs0. rewrite delayEffect_constructed in Hs0.
  cbn [bind] in Hs0. cbv zeta in Hs0.
  apply bind_Ok in Hs0 as (lp & _ & Hs0).
  assert (Hg : (if negb (analogFrames =? 0)%Z
                then uint (audioFrames / analogFrames) else 0%Z) = 0%Z).
  { destruct Hframes as [-> | Hlt]; [reflexivity|].
    destruct (Z.eqb_spec analogFrames 0); [reflexivity|].
    cbn [negb]. rewrite Z.div_small by exact Hlt. reflexivity. }
  rewrite Hg in Hs0.
  assert (Hfields : gAudioFramesPerAnalogFrame s0 = 0%Z /\
                    gPlaybackSpeed s0 = 1 /\
                    delayEffect s0 = delayEffect_initial).
  { injection Hs0 as <-. repeat split. }
  destruct Hfields as (Hg0 & Hsp0 & Hd0).
  split; [exact Hg0|]. intros n frames.
  destruct (no_analog_run fuel frames n s0 Hok Hfuel Hg0)
    as (outs & s' & Hrun & Hlen & Hsp & Hl & Hm & Hf & Ht).
  exists outs, s'. rewrite Hd0 in Hm, Hf, Ht. rewrite Hsp0 in Hsp.
  repeat (split; [assumption|]). exact Ht.
Qed.

Lemma knobs_unread_without_analog_frames_witness :
  exists s0,
    setup M_PI_q M_E_q sin_q cos_q expf_q 16 0 44100 = Ok s0 /\
    gAudioFramesPerAnalogFrame s0 = 0%Z /\
    forall (n : Z) (frames : list Frame),
    exists outs s',
      render_from 1 n frames s0 = Ok (outs, s') /\
      length outs = length frames /\
      gPlaybackSpeed s' = 1 /\
      gLFO s' = gLFO s0 /\
      mix (delayEffect s') = 0.5 /\
      feedback (delayEffect s') = 0.7 /\
      targetDelayTimeInSamples (delayEffect s') = 22050.
Proof.
  apply (knobs_unread_without_analog_frames M_PI_q M_E_q sin_q cos_q expf_q
           16 0 44100 1).
  - lia.
  - left. reflexivity.
Defined.

(** ** The knob block and the delay time *)

Lemma delay_samples_mono (sr size : Z) (a b : Q) :
  (0 <= sr)%Z -> 0 <= a <= b ->
  (delay_samples sr size a <= delay_samples sr size b)%Z.
Proof.
  intros Hsr Hab. unfold delay_samples.
  pose proof (float_of_int_nonneg sr Hsr) as H0.
  set (q := float_of_int sr) in *. clearbody q.
  assert (Ha : 0 <= f32 (a * q)) by (apply f32_nonneg; nra).
  assert (Hb : 0 <= f32 (b * q)) by (apply f32_nonneg; nra).
  assert (Hle : f32 (a * q) <= f32 (b * q)) by (apply f32_mono; nra).
  rewrite !Qtrunc_nonneg by assumption.
  pose proof (Qfloor_resp_le _ _ Hle). lia.
Qed.

Lemma delay_samples_comp (sr size : Z) (a b : Q) :
  a == b -> delay_samples sr size a = delay_samples sr size b.
Proof.
  intros H. unfold delay_samples. f_equal. f_equal. apply f32_comp.
  rewrite H. reflexivity.
Qed.

(** The knob block when it runs. *)
Lemma control_tick_runs (n : Z) (f : Frame) (s : Session) :
  delay_knob_ok (delayEffect s) ->
  gAudioFramesPerAnalogFrame s <> 0%Z ->
  (n mod gAudioFramesPerAnalogFrame s = 0)%Z ->
  exists t : Q,
    0.01 <= t <= 2 /\
    (lfoDepth f <= 0 -> t == 0.1) /\
    control_tick n f s =
      Ok (with_control s (-2 + speedVal f * 4)
            (with_target
               (setFeedback (setMix (delayEffect s) (analogMix f)) (analogFb f))
               (inject_Z (delay_samples (sampleRate (delayEffect s))
                            (bufferSize (delayEffect s)) t)))
            (snd (Lfo.run_lfo (gLFO s)))).
Proof.
  intros Hok Hg Hn. unfold control_tick. cbv zeta.
  destruct (Z.eqb_spec (gAudioFramesPerAnalogFrame s) 0) as [E|_];
    [contradiction|].
  rewrite Hn. cbn [negb andb Z.eqb].
  destruct (Lfo.run_lfo (gLFO s)) as [lfoVal lp]. cbn [snd].
  set (depth := if (if lfoDepth f <? 0 then 0 else lfoDepth f) >? 1 then 1
                else (if lfoDepth f <? 0 then 0 else lfoDepth f)).
  assert (Hdepth : lfoDepth f <= 0 -> depth == 0).
  { intros Hle. unfold depth.
    destruct (Qltb_reflect (lfoDepth f) 0).
    - destruct (Qltb_reflect 1 0); [lra | reflexivity].
    - destruct (Qltb_reflect 1 (lfoDepth f)); lra. }
  clearbody depth.
  set (raw := 0.1 + (lfoVal - 0.5) * 2 * 1.9 * depth).
  assert (Hraw : lfoDepth f <= 0 -> raw == 0.1).
  { intros Hle. unfold raw. rewrite (Hdepth Hle). ring. }
  clearbody raw.
  set (t := if (if raw <? 0.01 then 0.01 else raw) >? 2 then 2
            else (if raw <? 0.01 then 0.01 else raw)).
  assert (Ht : 0.01 <= t <= 2).
  { unfold t. destruct (Qltb_reflect raw 0.01).
    - destruct (Qltb_reflect 2 0.01); lra.
    - destruct (Qltb_reflect 2 raw); lra. }
  assert (Ht0 : lfoDepth f <= 0 -> t == 0.1).
  { intros Hle. specialize (Hraw Hle). unfold t.
    destruct (Qltb_reflect raw 0.01); [lra|].
    destruct (Qltb_reflect 2 raw); [lra | exact Hraw]. }
  clearbody t. exists t. split; [exact Ht|]. split; [exact Ht0|].
  destruct Hok as (((Hcap & _) & Hsr & _) & Hsr' & Hsz).
  set (d := setFeedback (setMix (delayEffect s) (analogMix f)) (analogFb f)).
  assert (Hsr2 : (0 <= sampleRate d < 2 ^ 31 - 64)%Z) by (cbn; lia).
  assert (Ht2 : 0 <= t <= 2) by lra.
  pose proof (delay_product_range (sampleRate d) t Hsr2 Ht2) as [H0 H1].
  assert (H2 : inject_Z (2 ^ 32 - 256) < inject_Z (2 ^ 32)) by reflexivity.
  destruct (setDelayTime_ok d t) as [Hset Hmin].
  { exact Hcap. }
  { split; lra. }
  rewrite Hset. rewrite float_of_int_exact by (cbn in Hmin |- *; lia).
  unfold delay_samples. reflexivity.
Qed.

(** X22.  What the knob block does to the delay line.  In a frame where it
    runs (the frame number is a multiple of the non-zero number of audio
    frames per analog frame), on a delay line between calls whose sample
    rate is below 2^31 - 64 and whose capacity is at most 2^24, it sets the
    mix and the feedback to the knob values clamped into [[0, 1]], the
    playback speed to [4 speedVal - 2], steps the LFO once, and sets the
    target delay to a whole number of samples between those of 0.01 s and
    of 2 s, each capped at capacity - 1; with the depth knob at or below
    zero the target is exactly that of 0.1 s, whatever the LFO returns. *)
Theorem knob_block_sets_delay (n : Z) (f : Frame) (s : Session) :
  delay_knob_ok (delayEffect s) ->
  gAudioFramesPerAnalogFrame s <> 0%Z ->
  (n mod gAudioFramesPerAnalogFrame s = 0)%Z ->
  let sr := sampleRate (delayEffect s) in
  let size := bufferSize (delayEffect s) in
  exists s1 samples,
    control_tick n f s = Ok s1 /\
    targetDelayTimeInSamples (delayEffect s1) = inject_Z samples /\
    (delay_samples sr size 0.01 <= samples <= delay_samples sr size 2)%Z /\
    (lfoDepth f <= 0 -> samples = delay_samples sr size 0.1) /\
    mix (delayEffect s1) = clampValue (analogMix f) 0 1 /\
    feedback (delayEffect s1) = clampValue (analogFb f) 0 1 /\
    gPlaybackSpeed s1 = -2 + speedVal f * 4 /\
    gLFO s1 = snd (Lfo.run_lfo (gLFO s)).
Proof.
  intros Hok Hg Hn sr size.
  destruct (control_tick_runs n f s Hok Hg Hn) as (t & Ht & Ht0 & Hrun).
  eexists _, (delay_samples sr size t). split; [exact Hrun|].
  cbn [delayEffect with_control with_target targetDelayTimeInSamples mix
       feedback setFeedback setMix with_feedback with_mix gPlaybackSpeed gLFO].
  split; [reflexivity|].
  assert (Hsr : (0 <= sr)%Z)
    by (destruct Hok as ((_ & Hsr & _) & _); unfold sr; lia).
  split.
  { split; apply delay_samples_mono; try exact Hsr; lra. }
  split.
  { intros Hle. apply delay_samples_comp. exact (Ht0 Hle). }
  repeat split.
Qed.

Lemma knob_block_sets_delay_witness :
  let s := mkSession [0.5; 0.25; 0; 1] 4 3 0 2 1.5 false true false (-0.5)
             delayEffect_initial lfo_example 0 0 LOW in
  let f := mkFrame 0.25 0 0 1.5 (-1) 0.5 0 in
  let sr := sampleRate (delayEffect s) in
  let size := bufferSize (delayEffect s) in
  exists s1 samples,
    control_tick 4 f s = Ok s1 /\
    targetDelayTimeInSamples (delayEffect s1) = inject_Z samples /\
    (delay_samples sr size 0.01 <= samples <= delay_samples sr size 2)%Z /\
    (lfoDepth f <= 0 -> samples = delay_samples sr size 0.1) /\
    mix (delayEffect s1) = clampValue (analogMix f) 0 1 /\
    feedback (delayEffect s1) = clampValue (analogFb f) 0 1 /\
    gPlaybackSpeed s1 = -2 + speedVal f * 4 /\
    gLFO s1 = snd (Lfo.run_lfo (gLFO s)).
Proof.
  apply (knob_block_sets_delay 4 (mkFrame 0.25 0 0 1.5 (-1) 0.5 0)
           (mkSession [0.5; 0.25; 0; 1] 4 3 0 2 1.5 false true false (-0.5)
              delayEffect_initial lfo_example 0 0 LOW)).
  - exact delayEffect_initial_knob_ok.
  - discriminate.
  - reflexivity.
Defined.

(** ** Recording and playing in one frame *)

(** X23.  Playback hears the sample just recorded.  In a frame that both
    records and plays, the recording branch runs first: it sends the input
    through the delay line, adds 0.75 of the processed sample [p] to the
    slot at the write cursor and puts [p] out; the playing branch then
    reads the loop.  When the playback index sits on the write cursor, as
    it does all through the first pass after a clear at normal speed, the
    slot it reads is the one just written, so the frame puts out
    [p + (old + 0.75 p)] for the slot's old content. *)
Theorem playback_hears_the_sample_just_recorded
    (fuel : nat) (f : Frame) (s : Session) :
  session_ok s -> (1 <= fuel)%nat ->
  gRecording s = true -> gPlaying s = true ->
  Qfloor (readIndex s) = gWritePointer s ->
  let slot := Z.to_nat (gWritePointer s) in
  exists p d' out s',
    processSample fuel (delayEffect s) (audioIn f) = Ok (p, d') /\
    process fuel f s = Ok (out, s') /\
    delayEffect s' = d' /\
    nth slot (gAudioBuffer s') 0 = nth slot (gAudioBuffer s) 0 + p * 0.75 /\
    out == p + (nth slot (gAudioBuffer s) 0 + p * 0.75).
Proof.
  intros Hok Hfuel Hr Hp Hidx slot.
  destruct Hok as (Hd & Hl & Hc2 & Hri & Hsp).
  destruct (processSample_keeps_ok fuel (delayEffect s) (audioIn f)
              (proj1 Hd) Hfuel) as (p & d' & Hps & Hd').
  exists p, d'. unfold process. cbv zeta. rewrite Hr, Hps. cbn [bind].
  assert (Hl1 : looper_wf (with_delayEffect s d')) by exact Hl.
  rewrite recordAdd_ok by exact Hl1. cbn [bind].
  cbn [with_delayEffect with_control gWritePointer gAudioBuffer gBufferSize].
  set (s2 := with_written _ _ _).
  assert (Hp2 : gPlaying s2 = true) by exact Hp.
  rewrite Hp2.
  destruct Hl as (Hcap & Hlen & Hwp).
  assert (Hl2 : looper_wf s2).
  { unfold looper_wf, s2, with_written. cbn. rewrite length_insert.
    repeat split; try tauto; try lia; apply Z.mod_pos_bound; lia. }
  destruct (playbackRead_ok s2 Hl2 Hc2 Hri Hsp) as (r & -> & _).
  cbn [bind]. eexists _, _. split; [reflexivity|]. split; [reflexivity|].
  cbn [with_readIndex delayEffect gAudioBuffer].
  assert (Hslot : nth slot (gAudioBuffer s2) 0
                  = nth slot (gAudioBuffer s) 0 + p * 0.75).
  { unfold s2, with_written. cbn [gAudioBuffer].
    rewrite nth_lookup, list_lookup_insert_eq by (unfold slot; lia).
    reflexivity. }
  split; [reflexivity|]. split; [exact Hslot|].
  replace (readIndex s2) with (readIndex s) by reflexivity.
  replace (gBufferSize s2) with (gBufferSize s) by reflexivity.
  rewrite Hidx, Z.mod_small by lia. fold slot. rewrite Hslot. ring.
Qed.

Lemma playback_hears_the_sample_just_recorded_witness :
  let s := session_recording in
  let slot := Z.to_nat (gWritePointer s) in
  exists p d' out s',
    processSample 1 (delayEffect s) (audioIn frame_idle) = Ok (p, d') /\
    process 1 frame_idle s = Ok (out, s') /\
    delayEffect s' = d' /\
    nth slot (gAudioBuffer s') 0 = nth slot (gAudioBuffer s) 0 + p * 0.75 /\
    out == p + (nth slot (gAudioBuffer s) 0 + p * 0.75).
Proof.
  apply (playback_hears_the_sample_just_recorded 1 frame_idle
           session_recording).
  - unfold session_ok, delay_knob_ok, delay_ok, delay_wf, looper_wf,
      INT_MAX. cbn.
    repeat split; first [lia | discriminate | reflexivity].
  - lia.
  - reflexivity.
  - reflexivity.
  - reflexivity.
Defined.

(** ** Playback at normal speed *)

Lemma control_tick_speed (n : Z) (f : Frame) (s s1 : Session) :
  control_tick n f s = Ok s1 ->
  gPlaybackSpeed s1 = gPlaybackSpeed s \/
  gPlaybackSpeed s1 = -2 + speedVal f * 4.
Proof.
  unfold control_tick. cbv zeta.
  destruct (negb _ && _)%bool.
  - destruct (Lfo.run_lfo (gLFO s)) as [lfoVal lp].
    intros H. apply bind_Ok in H as (d & _ & H). injection H as <-.
    right. reflexivity.
  - intros H. injection H as <-. left. reflexivity.
Qed.

(** A frame that only plays, at normal speed, from a whole index. *)
Lemma render_frame_plays
    (fuel : nat) (n : Z) (f : Frame) (s : Session) (i : Z) :
  session_ok s -> (1 <= fuel)%nat ->
  buttonState f = 0%Z -> clearButtonState f = 0%Z -> speedVal f == 0.75 ->
  gRecording s = false -> gPlaying s = true ->
  gPlaybackSpeed s == 1 ->
  readIndex s == inject_Z i ->
  (i < gBufferSize s)%Z ->
  exists out s',
    render_frame fuel n f s = Ok (out, s') /\
    out == nth (Z.to_nat i) (gAudioBuffer s) 0 /\
    session_ok s' /\
    gRecording s' = false /\ gPlaying s' = true /\
    gPlaybackSpeed s' == 1 /\
    gBufferSize s' = gBufferSize s /\
    gAudioBuffer s' = gAudioBuffer s /\
    delayBuffer (delayEffect s') = delayBuffer (delayEffect s) /\
    readIndex s' == inject_Z ((i + 1) mod gBufferSize s).
Proof.
  intros Hok Hfuel Hb Hc Hsv Hr Hp Hsp Hidx Hilt.
  assert (Hf : frame_ok f) by (unfold frame_ok; rewrite Hsv; split; discriminate).
  destruct (control_tick_keeps_ok n f s Hok Hf) as (s1 & Htick & Hok1).
  pose proof (control_tick_frame n f s s1 Htick)
    as (Hb1 & Hsz1 & _ & _ & Hri1 & Hr1 & Hp1 & _ & _ & _ & _).
  pose proof (control_tick_delay n f s s1 Htick) as (Hdb1 & _).
  assert (Hsp1 : gPlaybackSpeed s1 == 1).
  { destruct (control_tick_speed n f s s1 Htick) as [-> | ->];
      [exact Hsp | rewrite Hsv; reflexivity]. }
  unfold render_frame. rewrite Htick. cbn [bind].
  pose proof (buttons_keep_control f s1) as (Hd2 & _ & Hsp2 & _ & Hsz2 & _).
  assert (Hquiet : clear_fires (record_play_toggle f s1) f = false).
  { unfold clear_fires. rewrite Hc. reflexivity. }
  pose proof (clear_buffer_quiet f _ Hquiet)
    as (Hb2 & _ & _ & _ & Hri2 & Hr2 & Hp2 & _).
  pose proof (record_play_toggle_frame f s1) as (Hb3 & _ & _ & _ & Hri3 & _).
  assert (Hflags : gRecording (record_play_toggle f s1) = false /\
                   gPlaying (record_play_toggle f s1) = true).
  { unfold record_play_toggle. rewrite Hb. cbn [Z.eqb andb].
    cbn. rewrite Hr1, Hp1. split; assumption. }
  destruct Hflags as [Hr3 Hp3].
  assert (Hok2 : session_ok (clear_buffer f (record_play_toggle f s1)))
    by (apply clear_buffer_keeps_ok, record_play_toggle_keeps_ok; exact Hok1).
  set (s2 := clear_buffer f (record_play_toggle f s1)) in *.
  assert (Hrec2 : gRecording s2 = false) by congruence.
  assert (Hplay2 : gPlaying s2 = true) by congruence.
  assert (Hbuf2 : gAudioBuffer s2 = gAudioBuffer s) by congruence.
  assert (Hidx2 : readIndex s2 = readIndex s) by congruence.
  assert (Hsize2 : gBufferSize s2 = gBufferSize s) by congruence.
  destruct Hok2 as (Hdok & Hl & Hc2 & Hri & Hspd).
  destruct (playbackRead_ok s2 Hl Hc2 Hri Hspd) as (r & Hread & Hrr & Hcases).
  unfold process. cbv zeta. rewrite Hrec2. cbn [bind]. rewrite Hplay2, Hread.
  cbn [bind].
  rewrite Hidx2, Hsize2, Hbuf2 in *.
  assert (Hi : (0 <= i < gBufferSize s)%Z).
  { split; [|exact Hilt]. destruct Hri as [Hri _]. rewrite Hidx in Hri.
    change 0 with (inject_Z 0) in Hri. rewrite <- Zle_Qle in Hri. exact Hri. }
  assert (Hfl : Qfloor (readIndex s) = i).
  { rewrite (Qfloor_comp _ _ Hidx). apply Qfloor_Z. }
  rewrite Hfl, Z.mod_small by exact Hi.
  eexists _, _. split; [reflexivity|].
  split; [ring|].
  cbn [with_readIndex gRecording gPlaying gPlaybackSpeed gBufferSize
       gAudioBuffer delayEffect readIndex].
  assert (Hspeed : gPlaybackSpeed s2 == 1) by (rewrite Hsp2; exact Hsp1).
  assert (Hone : inject_Z (i + 1) == inject_Z i + 1)
    by (rewrite inject_Z_plus; reflexivity).
  assert (Hsum : f32 (readIndex s + gPlaybackSpeed s2) = inject_Z (i + 1)).
  { rewrite Hidx, Hspeed, <- Hone. apply f32_Z. lia. }
  rewrite Hsum in Hcases.
  assert (Hnext : r == inject_Z ((i + 1) mod gBufferSize s)).
  { destruct (Z.eq_dec (i + 1)%Z (gBufferSize s)) as [E|E].
    - rewrite E, Z.mod_same by lia.
      rewrite E in Hcases.
      destruct Hcases as [[H _] | [[_ ->] | [[_ H] _]]].
      + exfalso. change 0 with (inject_Z 0) in H.
        rewrite <- Zlt_Qlt in H. lia.
      + assert (Ez : inject_Z (gBufferSize s) - inject_Z (gBufferSize s)
                     == inject_Z 0) by (change (inject_Z 0) with 0; ring).
        rewrite Ez, f32_Z by lia. reflexivity.
      + exfalso. lra.
    - rewrite Z.mod_small by lia.
      destruct Hcases as [[H _] | [[H _] | [_ ->]]].
      + exfalso. change 0 with (inject_Z 0) in H.
        rewrite <- Zlt_Qlt in H. lia.
      + exfalso. rewrite <- Zle_Qle in H. lia.
      + reflexivity. }
  split.
  { unfold session_ok.
    cbn [with_readIndex delayEffect readIndex gBufferSize gPlaybackSpeed].
    rewrite Hsize2.
    split; [exact Hdok|]. split; [exact Hl|]. split; [exact Hc2|].
    split; [exact Hrr | exact Hspd]. }
  split; [exact Hrec2|]. split; [exact Hplay2|]. split; [exact Hspeed|].
  split; [exact Hsize2|]. split; [exact Hbuf2|].
  split; [|exact Hnext].
  rewrite Hd2. exact Hdb1.
Qed.

Lemma playback_run (fuel : nat) (frames : list Frame) :
  forall (n : Z) (s : Session) (i : Z),
  session_ok s -> (1 <= fuel)%nat ->
  Forall (fun f => buttonState f = 0%Z /\ clearButtonState f = 0%Z /\
                   speedVal f == 0.75) frames ->
  gRecording s = false -> gPlaying s = true ->
  gPlaybackSpeed s == 1 ->
  readIndex s == inject_Z i ->
  (i < gBufferSize s)%Z ->
  (i + Z.of_nat (length frames) <= gBufferSize s)%Z ->
  exists outs s',
    render_from fuel n frames s = Ok (outs, s') /\
    Forall2 Qeq outs
      (take (length frames) (drop (Z.to_nat i) (gAudioBuffer s))) /\
    gAudioBuffer s' = gAudioBuffer s /\
    delayBuffer (delayEffect s') = delayBuffer (delayEffect s) /\
    readIndex s'
    == inject_Z ((i + Z.of_nat (length frames)) mod gBufferSize s).
Proof.
  induction frames as [|f frames IH];
    intros n s i Hok Hfuel Hfs Hr Hp Hsp Hidx Hilt Hlen;
    cbn [render_from length].
  - exists [], s. split; [reflexivity|]. cbn [take]. split; [constructor|].
    split; [reflexivity|]. split; [reflexivity|].
    pose proof Hok as (_ & _ & _ & [Hri _] & _).
    rewrite Hidx in Hri. change 0 with (inject_Z 0) in Hri.
    rewrite <- Zle_Qle in Hri.
    change (Z.of_nat 0) with 0%Z. rewrite Z.add_0_r, Z.mod_small by lia.
    exact Hidx.
  - apply Forall_cons in Hfs as [(Hb & Hc & Hsv) Hfs].
    destruct (render_frame_plays fuel n f s i Hok Hfuel Hb Hc Hsv Hr Hp Hsp
                Hidx Hilt)
      as (o & s1 & -> & Ho & Hok1 & Hr1 & Hp1 & Hsp1 & Hsz1 & Hbuf1 & Hdb1 & Hidx1).
    cbn [bind].
    pose proof Hok as (_ & (Hcap & Hblen & _) & _ & [Hri _] & _).
    assert (Hi : (0 <= i < gBufferSize s)%Z).
    { split; [|exact Hilt]. rewrite Hidx in Hri.
      change 0 with (inject_Z 0) in Hri. rewrite <- Zle_Qle in Hri.
      exact Hri. }
    cbn [length] in Hlen. rewrite Nat2Z.inj_succ in Hlen.
    assert (Hdrop : drop (Z.to_nat i) (gAudioBuffer s)
                    = nth (Z.to_nat i) (gAudioBuffer s) 0
                      :: drop (S (Z.to_nat i)) (gAudioBuffer s)).
    { apply drop_S.
      destruct (nth_lookup_or_length (gAudioBuffer s) (Z.to_nat i) 0)
        as [H|H]; [exact H | lia]. }
    destruct frames as [|f2 frames].
    + cbn [render_from bind length take]. exists [o], s1.
      split; [reflexivity|]. rewrite Hdrop. cbn [take].
      split; [repeat constructor; exact Ho|].
      split; [exact Hbuf1|]. split; [exact Hdb1|].
      change (Z.of_nat 1) with 1%Z. exact Hidx1.
    + assert (Hnext : ((i + 1) mod gBufferSize s = i + 1)%Z).
      { apply Z.mod_small. cbn [length] in Hlen. lia. }
      rewrite Hnext in Hidx1.
      destruct (IH (n + 1)%Z s1 (i + 1)%Z Hok1 Hfuel Hfs Hr1 Hp1 Hsp1 Hidx1)
        as (os & s2 & -> & Hos & Hbuf2 & Hdb2 & Hidx2).
      { rewrite Hsz1. cbn [length] in Hlen. lia. }
      { rewrite Hsz1. lia. }
      cbn [bind]. exists (o :: os), s2.
      split; [reflexivity|].
      rewrite Hbuf1, Hsz1 in *.
      split.
      { rewrite Hdrop. cbn [take]. constructor; [exact Ho|].
        replace (S (Z.to_nat i)) with (Z.to_nat (i + 1)) by lia.
        exact Hos. }
      split; [exact Hbuf2|]. split; [congruence|].
      rewrite Hidx2. rewrite Nat2Z.inj_succ.
      replace (i + 1 + Z.of_nat (length (f2 :: frames)))%Z
        with (i + Z.succ (Z.of_nat (length (f2 :: frames))))%Z by lia.
      reflexivity.
Qed.

(** X24.  Playback at normal speed reproduces the loop.  With the looper
    playing and not recording, the speed knob at three quarters (a playback
    speed of 1), both buttons up and the playback index on a whole slot
    [i] of the buffer, a run of frames that does not pass the end of the
    buffer puts out
    the slots [i], [i + 1], ... of the loop in order, one per frame, each
    as stored: playback does not pass through the delay line, whose buffer
    is untouched, nor change the loop; the index ends on the slot after the
    last one played, back at 0 after the last slot of the buffer. *)
Theorem playback_reproduces_the_loop
    (fuel : nat) (n : Z) (frames : list Frame) (s : Session) (i : Z) :
  session_ok s -> (1 <= fuel)%nat ->
  Forall (fun f => buttonState f = 0%Z /\ clearButtonState f = 0%Z /\
                   speedVal f == 0.75) frames ->
  gRecording s = false -> gPlaying s = true ->
  gPlaybackSpeed s == 1 ->
  readIndex s == inject_Z i ->
  (i < gBufferSize s)%Z ->
  (i + Z.of_nat (length frames) <= gBufferSize s)%Z ->
  exists outs s',
    render_from fuel n frames s = Ok (outs, s') /\
    Forall2 Qeq outs
      (take (length frames) (drop (Z.to_nat i) (gAudioBuffer s))) /\
    gAudioBuffer s' = gAudioBuffer s /\
    delayBuffer (delayEffect s') = delayBuffer (delayEffect s) /\
    readIndex s'
    == inject_Z ((i + Z.of_nat (length frames)) mod gBufferSize s).
Proof.
  intros Hok Hfuel Hfs Hr Hp Hsp Hidx Hilt Hlen.
  exact (playback_run fuel frames n s i Hok Hfuel Hfs Hr Hp Hsp Hidx Hilt
           Hlen).
Qed.

Lemma playback_reproduces_the_loop_witness :
  let s := session_playing in
  let frames := replicate 4 frame_normal_speed in
  exists outs s',
    render_from 1 0 frames s = Ok (outs, s') /\
    Forall2 Qeq outs
      (take (length frames) (drop (Z.to_nat 0) (gAudioBuffer s))) /\
    gAudioBuffer s' = gAudioBuffer s /\
    delayBuffer (delayEffect s') = delayBuffer (delayEffect s) /\
    readIndex s'
    == inject_Z ((0 + Z.of_nat (length frames)) mod gBufferSize s).
Proof.
  apply (playback_reproduces_the_loop 1 0 (replicate 4 frame_normal_speed)
           session_playing 0).
  - unfold session_ok, delay_knob_ok, delay_ok, delay_wf, looper_wf,
      INT_MAX. cbn.
    repeat split; first [lia | discriminate | reflexivity].
  - lia.
  - repeat constructor.
  - reflexivity.
  - reflexivity.
  - reflexivity.
  - reflexivity.
  - cbn. lia.
  - cbn. lia.
Defined.

(** * Where the conversions are undefined *)

Lemma float_to_uint_undefined (x : Q) :
  x <= -1 \/ inject_Z (2 ^ 32) <= x -> float_to_uint x = Undefined.
Proof.
  intros H. unfold float_to_uint. cbv zeta.
  destruct H as [Hlo | Hhi].
  - assert (Ht : (Qtrunc x <= -1)%Z).
    { unfold Qtrunc. destruct (Qltb_reflect x 0); [|lra].
      change (-1)%Z with (Qceiling (-1)). apply Qceiling_resp_le. exact Hlo. }
    destruct (Z.leb_spec 0 (Qtrunc x)); [lia | reflexivity].
  - assert (Ht : (2 ^ 32 <= Qtrunc x)%Z).
    { assert (H0 : 0 <= x).
      { assert (0 <= inject_Z (2 ^ 32)) by discriminate. lra. }
      rewrite Qtrunc_nonneg by exact H0.
      rewrite <- (Qfloor_Z (2 ^ 32)). apply Qfloor_resp_le. exact Hhi. }
    destruct (Z.leb_spec 0 (Qtrunc x)); [|reflexivity].
    unfold UINT_MAX. destruct (Z.leb_spec (Qtrunc x) (2 ^ 32 - 1)); [lia|].
    reflexivity.
Qed.

(** X25.  A delay time outside the convertible range is undefined, not
    clamped.  [setDelayTime] converts the sample count to [unsigned int]
    before it bounds it, so for a delay time whose product with the sample
    rate (as a [float]) is -1 or less, or 2^32 or more, the conversion is
    undefined, rounding or not: neither [setDelayTime] nor a construction
    with that delay time has a defined result, whatever the capacity. *)
Theorem setDelayTime_undefined_outside_range
    (d : DelayEffect) (seconds feedbackAmount : Q) (bufSize : Z) :
  seconds * float_of_int (sampleRate d) <= -1 \/
  inject_Z (2 ^ 32) <= seconds * float_of_int (sampleRate d) ->
  setDelayTime d seconds = Undefined /\
  DelayEffect_new (sampleRate d) seconds feedbackAmount bufSize = Undefined.
Proof.
  intros H.
  assert (Hf : f32 (seconds * float_of_int (sampleRate d)) <= -1 \/
               inject_Z (2 ^ 32)
               <= f32 (seconds * float_of_int (sampleRate d))).
  { destruct H as [H | H]; apply f32_mono in H.
    - left. change (f32 (-1)) with (f32 (inject_Z (-1))) in H.
      rewrite f32_Z in H by lia. exact H.
    - right.
      assert (E : f32 (inject_Z (2 ^ 32)) = inject_Z (2 ^ 32))
        by (vm_compute; reflexivity).
      rewrite E in H. exact H. }
  apply float_to_uint_undefined in Hf.
  unfold DelayEffect_new, setDelayTime. cbv zeta.
  cbn [sampleRate with_buffer]. rewrite Hf. split; reflexivity.
Qed.

Lemma setDelayTime_undefined_outside_range_witness :
  setDelayTime delay_example (-0.125) = Undefined /\
  DelayEffect_new (sampleRate delay_example) (-0.125) 0.7 4 = Undefined.
Proof.
  apply (setDelayTime_undefined_outside_range delay_example (-0.125) 0.7 4).
  left. vm_compute. discriminate.
Defined.

(** X26.  [init_lfo] is defined exactly when the startup delay fits an
    [int].  For a positive rate and sample rate, the one conversion in
    [init_lfo] is that of the startup delay, the [float] that the
    magnitude of [phase / 180], divided by twice the rate and multiplied
    by the sample rate, comes to: it is never negative; below 2^31 the
    function returns a bank, and from 2^31 on the conversion to [int] is
    undefined. *)
Theorem init_lfo_defined_iff_delay_fits
    (M_PI M_E : Q) (sin cos expf : Q -> Q) (fosc fs phase : Q) :
  0 < fosc -> 0 < fs ->
  let p := Qabs (f32 (f64 (phase / 180))) in
  let delay := f32 (f32 (p / (2 * fosc)) * fs) in
  0 <= delay /\
  (delay < inject_Z (2 ^ 31) ->
   exists lp, Lfo.init_lfo M_PI M_E sin cos expf fosc fs phase = Ok lp) /\
  (inject_Z (2 ^ 31) <= delay ->
   Lfo.init_lfo M_PI M_E sin cos expf fosc fs phase = Undefined).
Proof.
  intros Hfosc Hfs p delay. unfold Lfo.init_lfo. cbv zeta.
  destruct (Qeq_bool (2 * fosc) 0) eqn:Ez.
  { apply Qeq_bool_eq in Ez. lra. }
  rewrite startup_chain_abs. fold p. fold delay.
  assert (H0 : 0 <= delay).
  { unfold delay, p. apply startup_chain_nonneg; lra. }
  assert (Ht : Qtrunc delay = Qfloor delay) by (apply Qtrunc_nonneg; exact H0).
  assert (Hf0 : (0 <= Qfloor delay)%Z).
  { change 0%Z with (Qfloor 0). apply Qfloor_resp_le. exact H0. }
  clearbody delay. split; [exact H0|]. split.
  - intros Hlt.
    assert (Hf : (Qfloor delay < 2 ^ 31)%Z).
    { pose proof (Qfloor_le delay). rewrite Zlt_Qlt. lra. }
    unfold float_to_int. cbv zeta. rewrite Ht. unfold INT_MIN, INT_MAX.
    destruct (Z.leb_spec (- 2 ^ 31) (Qfloor delay)); [|lia].
    destruct (Z.leb_spec (Qfloor delay) (2 ^ 31 - 1)); [|lia].
    cbn [andb bind].
    destruct (_ >=? _); destruct (_ <? _); eexists; reflexivity.
  - intros Hge.
    assert (Hf : (2 ^ 31 <= Qfloor delay)%Z).
    { rewrite <- (Qfloor_Z (2 ^ 31)). apply Qfloor_resp_le. exact Hge. }
    unfold float_to_int. cbv zeta. rewrite Ht. unfold INT_MIN, INT_MAX.
    destruct (Z.leb_spec (- 2 ^ 31) (Qfloor delay)); [|reflexivity].
    destruct (Z.leb_spec (Qfloor delay) (2 ^ 31 - 1)); [lia|].
    reflexivity.
Qed.

Lemma init_lfo_defined_iff_delay_fits_witness :
  let p := Qabs (f32 (f64 (90 / 180))) in
  let delay := f32 (f32 (p / (2 * 0.1)) * 44100) in
  0 <= delay /\
  (delay < inject_Z (2 ^ 31) ->
   exists lp, init_lfo_q 0.1 44100 90 = Ok lp) /\
  (inject_Z (2 ^ 31) <= delay -> init_lfo_q 0.1 44100 90 = Undefined).
Proof.
  apply (init_lfo_defined_iff_delay_fits M_PI_q M_E_q sin_q cos_q expf_q
           0.1 44100 90); reflexivity.
Defined.
